(** * kingdon: basis blades, the swap-counting sort and the Cayley table

    A shallow embedding of [kingdon/algebra.py]: the construction of an
    [Algebra] ([__post_init__]), the blade-name tables [bin2canon] and
    [canon2bin], the grade buckets [indices_for_grade], the swap counter
    [_sort_product], the table builder [_prepare_signs_and_cayley] and the
    blade cache [BladeDict].

    Python values are rendered as follows: [int] is [Z] (counters that only
    ever count upwards from zero are [nat]), [str] is [string], a [list] or
    [tuple] is a [list], a [dict] is an insertion-ordered association list
    without repeated keys, a numpy integer array is a list of rows, and a
    raised exception is the [Raise] branch of [result]. *)

From Stdlib Require Import ZArith List String Ascii Bool Lia Arith.
From Stdlib Require Import Permutation Sorted.
From Stdlib Require HexString BinaryString.
Import ListNotations.

Local Open Scope Z_scope.

(* ================================================================= *)
(** ** Exceptions *)

Inductive exn : Type :=
| TypeError (msg : string)
| KeyError
| IndexError
| ValueError.

Inductive result (A : Type) : Type :=
| Ok (a : A)
| Raise (e : exn).

Arguments Ok {A} a.
Arguments Raise {A} e.

Definition bind {A B : Type} (m : result A) (k : A -> result B) : result B :=
  match m with
  | Ok a => k a
  | Raise e => Raise e
  end.

Notation "x <- m ;; k" := (bind m (fun x => k))
  (at level 61, m at next level, right associativity).
Notation "' pat <- m ;; k" := (bind m (fun x => match x with pat => k end))
  (at level 61, pat pattern, m at next level, right associativity).

(** A [for] loop whose body may raise: the state is threaded left to right
    and the first exception ends the loop. *)
Fixpoint for_each {S X : Type} (body : S -> X -> result S) (xs : list X) (st : S)
  : result S :=
  match xs with
  | [] => Ok st
  | x :: rest => st' <- body st x ;; for_each body rest st'
  end.

(* ================================================================= *)
(** ** Python built-ins used by the module *)

(** [range(n)] *)
Definition range (n : Z) : list Z := map Z.of_nat (seq 0 (Z.to_nat n)).

(** [s[n:]] on a string *)
Fixpoint str_drop (n : nat) (s : string) : string :=
  match n, s with
  | O, _ => s
  | S _, EmptyString => EmptyString
  | S n', String _ rest => str_drop n' rest
  end.

(** [hex(z)]: ["0x.."] in lower case, ["-0x.."] below zero. *)
Definition hex (z : Z) : string := HexString.of_Z z.

(** [bin(z)]: ["0b.."], ["-0b.."] below zero. *)
Definition bin (z : Z) : string := BinaryString.of_Z z.

(** [format(z, 'b')]: the digits of [bin] without the ["0b"] prefix. *)
Definition format_b (z : Z) : string :=
  match z with
  | Z0 => "0"
  | Zpos p => BinaryString.Raw.of_pos p ""
  | Zneg p => String "-" (BinaryString.Raw.of_pos p "")
  end.

(** [s.count(c)] for a one-character [c]. *)
Fixpoint str_count (c : ascii) (s : string) : nat :=
  match s with
  | EmptyString => O
  | String a rest => ((if Ascii.eqb a c then 1 else 0) + str_count c rest)%nat
  end.

(** [z.bit_length()] *)
Definition bit_length (z : Z) : Z :=
  if z =? 0 then 0 else Z.log2 (Z.abs z) + 1.

(** [int(c, base=16)] for a one-character string [c]: the sixteen digits
    in either case, [ValueError] for every other character. *)
Definition int16 (c : ascii) : result Z :=
  let n := Z.of_N (N_of_ascii c) in
  if (48 <=? n) && (n <=? 57) then Ok (n - 48)
  else if (97 <=? n) && (n <=? 102) then Ok (n - 87)
  else if (65 <=? n) && (n <=? 70) then Ok (n - 55)
  else Raise ValueError.

(** [a > b] on one-character strings: comparison of code points. *)
Definition char_gtb (a b : ascii) : bool :=
  (N_of_ascii b <? N_of_ascii a)%N.

(** [c * n] for a one-character string [c]. *)
Fixpoint str_repeat (c : ascii) (n : nat) : string :=
  match n with
  | O => EmptyString
  | S n' => String c (str_repeat c n')
  end.

(** Normalisation of an index into a numpy axis of length [n]: negative
    indices count from the end, anything outside [-n, n) is an
    [IndexError]. *)
Definition np_index (n : nat) (i : Z) : result nat :=
  if (0 <=? i) && (i <? Z.of_nat n) then Ok (Z.to_nat i)
  else if (- Z.of_nat n <=? i) && (i <? 0) then Ok (Z.to_nat (Z.of_nat n + i))
  else Raise IndexError.

(** [a[i]] on a one-dimensional integer array. *)
Definition np_get (a : list Z) (i : Z) : result Z :=
  k <- np_index (List.length a) i ;;
  match nth_error a k with
  | Some v => Ok v
  | None => Raise IndexError
  end.

(** In-place update of position [i] of a list. *)
Fixpoint list_set {A : Type} (l : list A) (i : nat) (v : A) : list A :=
  match l, i with
  | [], _ => []
  | _ :: rest, O => v :: rest
  | a :: rest, S i' => a :: list_set rest i' v
  end.

(** [np.zeros((n, n), dtype=int)] *)
Definition np_zeros2 (n : nat) : list (list Z) := repeat (repeat 0 n) n.

(** [a[i, j] = v] on a two-dimensional integer array. *)
Definition np_set2 (a : list (list Z)) (i j : Z) (v : Z) : result (list (list Z)) :=
  ki <- np_index (List.length a) i ;;
  match nth_error a ki with
  | Some row =>
      kj <- np_index (List.length row) j ;;
      Ok (list_set a ki (list_set row kj v))
  | None => Raise IndexError
  end.

(** [a[i, j]] on a two-dimensional integer array. *)
Definition np_get2 (a : list (list Z)) (i j : Z) : result Z :=
  ki <- np_index (List.length a) i ;;
  match nth_error a ki with
  | Some row => np_get row j
  | None => Raise IndexError
  end.

(* ================================================================= *)
(** ** Dictionaries

    A [dict] keeps its keys in insertion order; assigning to a key that is
    present replaces the value where it stands. *)

Section Dict.
Context {K V : Type}.
Variable eqb : K -> K -> bool.

Fixpoint dict_get (d : list (K * V)) (k : K) : option V :=
  match d with
  | [] => None
  | (k', v) :: rest => if eqb k' k then Some v else dict_get rest k
  end.

Fixpoint dict_set (d : list (K * V)) (k : K) (v : V) : list (K * V) :=
  match d with
  | [] => [(k, v)]
  | (k', v') :: rest =>
      if eqb k' k then (k', v) :: rest else (k', v') :: dict_set rest k v
  end.

(** [dict(items)] and the dict comprehension [{k: v for ...}]. *)
Definition dict_of_items (items : list (K * V)) : list (K * V) :=
  fold_left (fun d kv => dict_set d (fst kv) (snd kv)) items [].

(** [d[k]], raising [KeyError] on a missing key. *)
Definition dict_getitem (d : list (K * V)) (k : K) : result V :=
  match dict_get d k with
  | Some v => Ok v
  | None => Raise KeyError
  end.
End Dict.

Definition dict_keys {K V : Type} (d : list (K * V)) : list K := map fst d.

(** [Counter(xs)]: every element with the number of times it occurs, keyed
    in order of first occurrence. *)
Definition Counter {K : Type} (eqb : K -> K -> bool) (xs : list K) : list (K * nat) :=
  fold_left
    (fun c x =>
       dict_set eqb c x (S (match dict_get eqb c x with Some n => n | None => O end)))
    xs [].

(** [counter[k]]: a missing key counts as zero. *)
Definition counter_get {K : Type} (eqb : K -> K -> bool) (c : list (K * nat)) (k : K)
  : nat :=
  match dict_get eqb c k with
  | Some n => n
  | None => O
  end.

(* ================================================================= *)
(** ** Sorting by a key and grouping

    [sorted(xs, key=key)] is stable; a stable sort is determined by the key
    order, so the insertion sort below returns the list Python returns. *)

Section SortedBy.
Context {A K : Type}.
Variable leb : K -> K -> bool.
Variable key : A -> K.

Fixpoint insert_by (x : A) (l : list A) : list A :=
  match l with
  | [] => [x]
  | y :: rest =>
      if leb (key x) (key y) then x :: y :: rest else y :: insert_by x rest
  end.

Fixpoint sorted_by (l : list A) : list A :=
  match l with
  | [] => []
  | x :: rest => insert_by x (sorted_by rest)
  end.
End SortedBy.

(** [itertools.groupby(xs, key=key)]: the maximal runs of consecutive
    elements with equal keys, each with its key. *)
Fixpoint groupby {A K : Type} (eqb : K -> K -> bool) (key : A -> K) (l : list A)
  : list (K * list A) :=
  match l with
  | [] => []
  | x :: rest =>
      match groupby eqb key rest with
      | (k, g) :: groups =>
          if eqb (key x) k then (k, x :: g) :: groups
          else (key x, [x]) :: (k, g) :: groups
      | [] => [(key x, [x])]
      end
  end.

(* ================================================================= *)
(** ** [_sort_product] *)

Section SortProduct.
Context {A : Type}.
Variable gtb : A -> A -> bool.

(** The body of [for i in range(len(prod) - 1)]: compare positions [i]
    and [i + 1], swap them and count when they are out of order. *)
Definition swap_step (st : list A * nat) (i : nat) : list A * nat :=
  let '(prod, swaps) := st in
  match nth_error prod i, nth_error prod (S i) with
  | Some a, Some b =>
      if gtb a b then (list_set (list_set prod i b) (S i) a, S swaps)
      else (prod, swaps)
  | _, _ => (prod, swaps)
  end.

(** One full pass of the [for] loop. *)
Definition bubble_pass (st : list A * nat) : list A * nat :=
  fold_left swap_step (seq 0 (List.length (fst st) - 1)) st.

(** [while True:] with the number of passes bounded by [fuel]; [None]
    when the bound is reached before the loop breaks. *)
Fixpoint sort_loop (fuel : nat) (prod : list A) (swaps prev_swap : nat)
  : option (list A * nat) :=
  match fuel with
  | O => None
  | S fuel' =>
      let '(prod', swaps') := bubble_pass (prod, swaps) in
      if Nat.eqb prev_swap swaps' then Some (prod', swaps')
      else sort_loop fuel' prod' swaps' swaps'
  end.

Definition sort_product_fuel (fuel : nat) (prod : list A) : option (list A * nat) :=
  if (1 <? List.length prod)%nat then sort_loop fuel prod 0 0
  else Some (prod, O).

(** The list after the call (the argument is modified in place) and the
    returned number of swaps.  A pass that swaps removes an inversion,
    and a list of length [n] has fewer than [n * n] of them, so the bound
    below is never reached ([sort_product_fuel_enough]). *)
Definition _sort_product (prod : list A) : list A * nat :=
  match sort_product_fuel (S (List.length prod * List.length prod)) prod with
  | Some r => r
  | None => (prod, O)
  end.

(** *** Reference notions for [_sort_product] *)

(** The pass with the element at the current position carried along. *)
Fixpoint bubble_from (x : A) (rest : list A) : list A * nat :=
  match rest with
  | [] => ([x], O)
  | y :: rest' =>
      if gtb x y then
        let '(l, n) := bubble_from x rest' in (y :: l, S n)
      else
        let '(l, n) := bubble_from y rest' in (x :: l, n)
  end.

(** Number of later elements that [x] is greater than. *)
Fixpoint count_gt (x : A) (l : list A) : nat :=
  match l with
  | [] => O
  | y :: rest => ((if gtb x y then 1 else 0) + count_gt x rest)%nat
  end.

(** Number of pairs of positions that are out of order. *)
Fixpoint inversions (l : list A) : nat :=
  match l with
  | [] => O
  | x :: rest => (count_gt x rest + inversions rest)%nat
  end.

(** Non-decreasing order: no element is greater than a later one. *)
Definition sorted_list (l : list A) : Prop :=
  StronglySorted (fun a b => gtb a b = false) l.

(** Exchange of positions [i] and [i + 1], whatever their order. *)
Definition transpose (l : list A) (i : nat) : list A :=
  match nth_error l i, nth_error l (S i) with
  | Some a, Some b => list_set (list_set l i b) (S i) a
  | _, _ => l
  end.

(** A sequence of adjacent transpositions, applied in order. *)
Definition transpose_all (ts : list nat) (l : list A) : list A :=
  fold_left transpose ts l.
End SortProduct.

(* ================================================================= *)
(** ** Blade names *)

(** The generator expression inside [bin2canon]: for every [ei] in
    [range(0, d)] whose bit is set in [eJ],
    [num = (eJ & 2**ei).bit_length()] is [ei + 1] and the digit string is
    [hex(num + start_index - 1)[2:]]. *)
Definition blade_digits (start_index : Z) (d : nat) (eJ : Z) : list string :=
  flat_map
    (fun ei =>
       let num := bit_length (Z.land eJ (2 ^ ei)) in
       if num =? 0 then [] else [str_drop 2 (hex (num + start_index - 1))])
    (range (Z.of_nat d)).

(** ['e' + ''.join(...)] *)
Definition blade_name (start_index : Z) (d : nat) (eJ : Z) : string :=
  String "e" (String.concat "" (blade_digits start_index d eJ)).

(** The sort key [(len(x[0]), x[0])] of an item of [canon2bin] and the
    order of such tuples: first components first, then the strings by code
    points. *)
Definition name_key (x : string * Z) : nat * string :=
  (String.length (fst x), fst x).

Definition name_key_leb (a b : nat * string) : bool :=
  (fst a <? fst b)%nat || ((fst a =? fst b)%nat && String.leb (snd a) (snd b)).

(** [bin(i).count('1')], the key of [indices_for_grade]. *)
Definition grade_key (i : Z) : nat := str_count "1" (bin i).

(** Equality of the keys [(eI, eJ)] of the Cayley table. *)
Definition pair_eqb (a b : string * string) : bool :=
  String.eqb (fst a) (fst b) && String.eqb (snd a) (snd b).

(** Number of set bits of an integer, digit by digit. *)
Fixpoint pos_popcount (p : positive) : nat :=
  match p with
  | xH => 1%nat
  | xO p' => pos_popcount p'
  | xI p' => S (pos_popcount p')
  end.

Definition popcount (z : Z) : nat :=
  match z with
  | Z0 => O
  | Zpos p => pos_popcount p
  | Zneg p => pos_popcount p
  end.

(** The character of a hexadecimal digit: [hex(v)[2:]] is this one
    character when [0 <= v < 16]. *)
Definition hex_char (v : Z) : ascii :=
  match str_drop 2 (hex v) with
  | String c _ => c
  | EmptyString => "0"%char
  end.

(** The generators of a blade, lowest first: the positions of the bits
    set in [eJ]. *)
Definition generators (d : nat) (eJ : Z) : list Z :=
  filter (Z.testbit eJ) (range (Z.of_nat d)).

(** The digits of a blade name when every generator has a one-character
    digit. *)
Definition digit_chars (start_index : Z) (d : nat) (eJ : Z) : list ascii :=
  map (fun ei => hex_char (ei + start_index)) (generators d eJ).

(* ================================================================= *)
(** ** Further built-ins: tuples as keys, [itertools.combinations],
    strings of code points *)

(** Equality of tuples of integers, as used for the keys of
    [indices_for_grades]. *)
Fixpoint tuple_eqb (a b : list nat) : bool :=
  match a, b with
  | [], [] => true
  | x :: a', y :: b' => (x =? y)%nat && tuple_eqb a' b'
  | _, _ => false
  end.

(** [itertools.combinations(l, r)]: the subsequences of [l] of length [r],
    in the lexicographic order of their positions. *)
Fixpoint combinations {A : Type} (l : list A) (r : nat) : list (list A) :=
  match r, l with
  | O, _ => [[]]
  | S _, [] => []
  | S r', x :: rest => map (cons x) (combinations rest r') ++ combinations rest r
  end.

(** A Python string is a sequence of code points.  The names built by
    this module are ASCII and are kept as [string]; [code_points] gives
    the code points of such a string. *)
Definition code_points (s : string) : list N :=
  map N_of_ascii (list_ascii_of_string s).

(** [s.replace(old, new)] for one-character [old] and [new]. *)
Definition str_replace1 (old new : N) (s : list N) : list N :=
  map (fun c => if (c =? old)%N then new else c) s.

(** [s[-1]], an [IndexError] on the empty string, and [s[:-1]]. *)
Definition str_last (s : string) : result ascii :=
  match rev (list_ascii_of_string s) with
  | c :: _ => Ok c
  | [] => Raise IndexError
  end.

Definition str_init (s : string) : string :=
  string_of_list_ascii (removelast (list_ascii_of_string s)).

(* ================================================================= *)
(** ** Multivectors *)

(** Modelled from the spec: class [MultiVector] ([kingdon/multivector.py])
    is not among the sources.  A multivector is a sparse coefficient
    vector: the blade indices that are present and one coefficient for
    each of them. *)
Record MultiVector : Type := {
  mv_keys : list Z;
  mv_values : list Z
}.

(** Modelled from the spec: [MultiVector.fromkeysvalues(algebra, keys,
    values)] holds exactly the given indices and coefficients. *)
Definition fromkeysvalues (keys values : list Z) : MultiVector :=
  {| mv_keys := keys; mv_values := values |}.

(** Modelled from the spec: [algebra.multivector(values=values,
    grades=(g,))] is scoped to the index set of grade [g], here
    [indices], with the given coefficients. *)
Definition multivector_of_grade (indices values : list Z) : MultiVector :=
  {| mv_keys := indices; mv_values := values |}.

(* ================================================================= *)
(** ** [Algebra] *)

Record Options : Type := {
  cse : bool;
  numba : bool;
  graded : bool;
  simplify : bool
}.

(** The defaults of the dataclass fields. *)
Definition default_options : Options :=
  {| cse := true; numba := false; graded := false; simplify := true |}.

(** The three results of [_prepare_signs_and_cayley]. *)
Record Tables : Type := {
  swaps_arr : list (list Z);
  signs_arr : list (list Z);
  cayley_dict : list ((string * string) * string)
}.

Module Algebra.

(** The fields an [Algebra] has when [BladeDict] first sees it.  The
    operator dictionaries and [_bin2canon_prettystr] are presentation
    and dispatch data that none of the functions below reads. *)
Record t : Type := {
  p : nat;
  q : nat;
  r : nat;
  d : nat;
  signature : list Z;
  start_index : Z;
  options : Options;
  bin2canon : list (Z * string);
  canon2bin : list (string * Z);
  swaps : list (list Z);
  signs : list (list Z);
  cayley : list ((string * string) * string)
}.

(** The first block of [__post_init__]: the counts and the signature. *)
Definition resolve_signature (p q r : nat) (signature : option (list Z))
  : result (nat * nat * nat * list Z) :=
  match signature with
  | Some sig =>
      let counts := Counter Z.eqb sig in
      let p := counter_get Z.eqb counts 1 in
      let q := counter_get Z.eqb counts (-1) in
      let r := counter_get Z.eqb counts 0 in
      if negb (p + q + r =? List.length sig)%nat
      then Raise (TypeError "Unsupported signature.")
      else Ok (p, q, r, sig)
  | None =>
      if (r =? 1)%nat
      then Ok (p, q, r, repeat 0 r ++ repeat 1 p ++ repeat (-1) q)
      else Ok (p, q, r, repeat 1 p ++ repeat (-1) q ++ repeat 0 r)
  end.

(** [self.start_index] after the second block. *)
Definition resolve_start_index (r : nat) (start_index : option Z) : Z :=
  match start_index with
  | Some s => s
  | None => if (r =? 1)%nat then 0 else 1
  end.

(** [len(self)] *)
Definition __len__ (d : nat) : Z := 2 ^ Z.of_nat d.

Definition make_bin2canon (start_index : Z) (d : nat) : list (Z * string) :=
  dict_of_items Z.eqb
    (map (fun eJ => (eJ, blade_name start_index d eJ)) (range (2 ^ Z.of_nat d))).

Definition make_canon2bin (bin2canon : list (Z * string)) : list (string * Z) :=
  dict_of_items String.eqb
    (sorted_by name_key_leb name_key
       (dict_of_items String.eqb (map (fun bc => (snd bc, fst bc)) bin2canon))).

Definition indices_for_grade (d : nat) : list (nat * list Z) :=
  let sorted_inds := sorted_by Nat.leb grade_key (range (__len__ d)) in
  dict_of_items Nat.eqb (groupby Nat.eqb grade_key sorted_inds).

(** The loop over [count.items()]: a digit that occurs twice or more
    multiplies the sign by the signature entry of its generator, and
    every count is reduced modulo two. *)
Definition collapse_step (signature : list Z) (start_index : Z)
    (st : Z * list (ascii * nat)) (kv : ascii * nat)
  : result (Z * list (ascii * nat)) :=
  let '(sign, count) := st in
  let '(key, value) := kv in
  sign' <- (if (value / 2 =? 0)%nat then Ok sign
            else (k <- int16 key ;;
                  v <- np_get signature (k - start_index) ;;
                  Ok (sign * v))) ;;
  Ok (sign', dict_set Ascii.eqb count key (value mod 2)%nat).

(** The string stored in [cayley[eI, eJ]]. *)
Definition cayley_string (sign : Z) (count : list (ascii * nat)) : string :=
  if sign =? 0 then "0"%string
  else
    let prod := String.concat "" (map (fun kv => str_repeat (fst kv) (snd kv)) count) in
    let sign := if sign =? -1 then "-"%string else ""%string in
    (sign ++ String "e" prod)%string.

(** The body of the loop of [_prepare_signs_and_cayley]. *)
Definition cayley_step (signature : list Z) (start_index : Z)
    (canon2bin : list (string * Z)) (st : Tables) (eIJ : string * string)
  : result Tables :=
  let '(eI, eJ) := eIJ in
  let prod := list_ascii_of_string (str_drop 1 eI ++ str_drop 1 eJ) in
  let '(prod, swaps) :=
    if (List.length prod =? 0)%nat then (prod, O) else _sort_product char_gtb prod in
  bI <- dict_getitem String.eqb canon2bin eI ;;
  bJ <- dict_getitem String.eqb canon2bin eJ ;;
  swaps_arr' <- np_set2 (swaps_arr st) bI bJ (Z.of_nat swaps) ;;
  let sign := if (swaps mod 2 =? 0)%nat then 1 else -1 in
  let count := Counter Ascii.eqb prod in
  '(sign, count) <- for_each (collapse_step signature start_index) count (sign, count) ;;
  signs_arr' <- np_set2 (signs_arr st) bI bJ sign ;;
  Ok {| swaps_arr := swaps_arr';
        signs_arr := signs_arr';
        cayley_dict := dict_set pair_eqb (cayley_dict st) (eI, eJ)
                         (cayley_string sign count) |}.

Definition _prepare_signs_and_cayley (d : nat) (signature : list Z)
    (start_index : Z) (canon2bin : list (string * Z)) : result Tables :=
  let n := Z.to_nat (__len__ d) in
  for_each (cayley_step signature start_index canon2bin)
    (list_prod (dict_keys canon2bin) (dict_keys canon2bin))
    {| swaps_arr := np_zeros2 n; signs_arr := np_zeros2 n; cayley_dict := [] |}.

(** The pairs [zip("0123456789abcde", ...)] of [pretty_blade]: the digits
    [0] to [9] and [a] to [e] with the code points of their superscripts.
    The digit [f] has no pair. *)
Definition superscripts : list (N * N) :=
  combine (code_points "0123456789abcde")
    [0x2070; 0xb9; 0xb2; 0xb3; 0x2074; 0x2075; 0x2076; 0x2077; 0x2078; 0x2079;
     0x1d43; 0x1d47; 0x1d9c; 0x1d48; 0x1d49]%N.

(** [pretty_blade], the function local to [__post_init__]: the name [e]
    becomes [1]; otherwise the first character is replaced by the bold e
    (code point [0x1d41e]) and the replacements are made one after the
    other. *)
Definition pretty_blade (blade : string) : list N :=
  if String.eqb blade "e" then code_points "1"
  else
    fold_left (fun blade on => str_replace1 (fst on) (snd on) blade) superscripts
      (0x1d41e%N :: code_points (str_drop 1 blade)).


(** [indices_for_grades]: every combination of grades, of every length
    from 1 to [len(self)], with the concatenation of the buckets of its
    grades; [self.indices_for_grade[grade]] raises on a missing grade. *)
Definition indices_for_grades (d : nat) : result (list (list nat * list Z)) :=
  let all_grade_combs :=
    flat_map (fun j => combinations (seq 0 (d + 1)) j) (seq 1 (Z.to_nat (__len__ d))) in
  for_each
    (fun acc comb =>
       inds <- for_each
                 (fun tup grade =>
                    t <- dict_getitem Nat.eqb (indices_for_grade d) grade ;;
                    Ok (tup ++ t))
                 comb [] ;;
       Ok (dict_set tuple_eqb acc comb inds))
    all_grade_combs [].

(** [_reverse_keys]: the buckets of the grades with [(grade // 2) % 2]
    non-zero, chained. *)
Definition _reverse_keys (d : nat) : list Z :=
  List.concat
    (map snd
       (filter (fun gk => negb ((fst gk / 2) mod 2 =? 0)%nat) (indices_for_grade d))).


Definition oddmv_grades (d : nat) : list nat :=
  filter (fun x => (x mod 2 =? 1)%nat) (seq 0 (d + 1)).

(** One entry of the table [graph] sends to ganja.js:
    [s if s[-1] != 'e' else f"{s[:-1]}1"]. *)
Definition graph_cayley_entry (s : string) : result string :=
  c <- str_last s ;;
  if negb (Ascii.eqb c "e") then Ok s else Ok (str_init s ++ "1")%string.

(** [cayley_table] in [graph], before it is serialised: the rows follow
    the first factor [eJ], the columns the second factor [eI]. *)
Definition graph_cayley_table (self : t) : result (list (list string)) :=
  for_each
    (fun rows eJ =>
       row <- for_each
                (fun row eI =>
                   s <- dict_getitem pair_eqb (cayley self) (eJ, eI) ;;
                   entry <- graph_cayley_entry s ;;
                   Ok (row ++ [entry]))
                (dict_keys (canon2bin self)) [] ;;
       Ok (rows ++ [row]))
    (dict_keys (canon2bin self)) [].

End Algebra.

(* ================================================================= *)
(** ** [BladeDict] *)

Module BladeDict.

Record t : Type := {
  lazy : bool;
  blades : list (string * MultiVector)
}.

(** [self[blade]]: the value and the dictionary after the call. *)
Definition __getitem__ (algebra : Algebra.t) (self : t) (blade : string)
  : result (MultiVector * t) :=
  match dict_get String.eqb (blades self) blade with
  | Some mv => Ok (mv, self)
  | None =>
      bin_blade <- dict_getitem String.eqb (Algebra.canon2bin algebra) blade ;;
      mv <- (if graded (Algebra.options algebra) then
               let g := str_count "1" (format_b bin_blade) in
               indices <- dict_getitem Nat.eqb
                            (Algebra.indices_for_grade (Algebra.d algebra)) g ;;
               Ok (multivector_of_grade indices
                     (map (fun i => if bin_blade =? i then 1 else 0) indices))
             else Ok (fromkeysvalues [bin_blade] [1])) ;;
      Ok (mv, {| lazy := lazy self;
                 blades := dict_set String.eqb (blades self) blade mv |})
  end.

(** [BladeDict(algebra=algebra, lazy=lazy)]: when not lazy, every blade
    is retrieved once. *)
Definition __post_init__ (algebra : Algebra.t) (lazy : bool) : result t :=
  let self := {| lazy := lazy; blades := [] |} in
  if negb lazy then
    for_each (fun self blade => '(_, self') <- __getitem__ algebra self blade ;; Ok self')
      (dict_keys (Algebra.canon2bin algebra)) self
  else Ok self.

(** [len(self)] and [iter(self)]: the blades stored so far. *)
Definition __len__ (self : t) : nat := List.length (blades self).

Definition __iter__ (self : t) : list string := dict_keys (blades self).

End BladeDict.

(** An [Algebra] after [__post_init__], with its blade dictionary and its
    pseudoscalar. *)
Record Built : Type := {
  algebra : Algebra.t;
  blades : BladeDict.t;
  pss : MultiVector
}.

(** [Algebra.__post_init__] on the constructor arguments. *)
Definition __post_init__ (p q r : nat) (signature : option (list Z))
    (start_index : option Z) (options : Options) : result Built :=
  '(p, q, r, signature) <- Algebra.resolve_signature p q r signature ;;
  let start_index := Algebra.resolve_start_index r start_index in
  let d := (p + q + r)%nat in
  let bin2canon := Algebra.make_bin2canon start_index d in
  let canon2bin := Algebra.make_canon2bin bin2canon in
  tables <- Algebra._prepare_signs_and_cayley d signature start_index canon2bin ;;
  let self :=
    {| Algebra.p := p; Algebra.q := q; Algebra.r := r; Algebra.d := d;
       Algebra.signature := signature; Algebra.start_index := start_index;
       Algebra.options := options;
       Algebra.bin2canon := bin2canon; Algebra.canon2bin := canon2bin;
       Algebra.swaps := swaps_arr tables; Algebra.signs := signs_arr tables;
       Algebra.cayley := cayley_dict tables |} in
  blades <- BladeDict.__post_init__ self (negb (d <=? 6)%nat) ;;
  top <- dict_getitem Z.eqb bin2canon (2 ^ Z.of_nat d - 1) ;;
  '(pss, blades) <- BladeDict.__getitem__ self blades top ;;
  Ok {| algebra := self; blades := blades; pss := pss |}.

(* ================================================================= *)
(** ** Reference notions for the tables *)

(** Code point of a character. *)
Definition char_rank (c : ascii) : Z := Z.of_N (N_of_ascii c).

(** What [Algebra.cayley_step] computes for one pair of names, without
    the stores: the swap count, the sign and the Cayley string. *)
Definition blade_product (signature : list Z) (start_index : Z) (eI eJ : string)
  : result (nat * Z * string) :=
  let prod := list_ascii_of_string (str_drop 1 eI ++ str_drop 1 eJ) in
  let '(prod, swaps) :=
    if (List.length prod =? 0)%nat then (prod, O) else _sort_product char_gtb prod in
  let sign := if (swaps mod 2 =? 0)%nat then 1 else -1 in
  let count := Counter Ascii.eqb prod in
  '(sign, count) <-
    for_each (Algebra.collapse_step signature start_index) count (sign, count) ;;
  Ok (swaps, sign, Algebra.cayley_string sign count).

(** The sign [sign0] times the signature entries of the generators that
    the blades [bI] and [bJ] share. *)
Definition collapsed_sign (signature : list Z) (d : nat) (bI bJ : Z) (sign0 : Z) : Z :=
  fold_left (fun acc ei => acc * nth (Z.to_nat ei) signature 0)
    (generators d (Z.land bI bJ)) sign0.

(** A two-dimensional array with [n] rows of [n] entries. *)
Definition square (n : nat) (a : list (list Z)) : Prop :=
  List.length a = n /\ Forall (fun row => List.length row = n) a.

(** The digit of generator [ei] and the number of times the generator
    occurs in the word of blade [bI] followed by blade [bJ]. *)
Definition digit (start_index : Z) (ei : Z) : ascii := hex_char (ei + start_index).

Definition occurrences (bI bJ ei : Z) : nat :=
  ((if Z.testbit bI ei then 1 else 0) + (if Z.testbit bJ ei then 1 else 0))%nat.

(** The character is a digit whose generator has a signature entry:
    [signature[int(c, base=16) - start_index]] does not raise. *)
Definition indexable (signature : list Z) (start_index : Z) (c : ascii) : bool :=
  match int16 c with
  | Ok k =>
      match np_get signature (k - start_index) with
      | Ok _ => true
      | Raise _ => false
      end
  | Raise _ => false
  end.


(** The binomial coefficient, by Pascal's rule. *)
Fixpoint binomial (n k : nat) : nat :=
  match n, k with
  | _, O => 1%nat
  | O, S _ => O
  | S n', S k' => (binomial n' k' + binomial n' k)%nat
  end.

(** The tables hold what [blade_product] gives for the pairs in [done]:
    the invariant of the loop of [_prepare_signs_and_cayley]. *)
Definition filled (signature : list Z) (start_index : Z) (canon2bin : list (string * Z))
    (n : nat) (done : list (string * string)) (st : Tables) : Prop :=
  square n (swaps_arr st) /\ square n (signs_arr st) /\
  forall eI eJ bI bJ,
    In (eI, eJ) done ->
    dict_get String.eqb canon2bin eI = Some bI ->
    dict_get String.eqb canon2bin eJ = Some bJ ->
    exists sw sg str,
      blade_product signature start_index eI eJ = Ok (sw, sg, str) /\
      dict_get pair_eqb (cayley_dict st) (eI, eJ) = Some str /\
      np_get2 (signs_arr st) bI bJ = Ok sg /\
      np_get2 (swaps_arr st) bI bJ = Ok (Z.of_nat sw).

(** The value [BladeDict.__getitem__] builds for a name it has not stored
    yet. *)
Definition blade_value (algebra : Algebra.t) (blade : string) : result MultiVector :=
  bin_blade <- dict_getitem String.eqb (Algebra.canon2bin algebra) blade ;;
  if graded (Algebra.options algebra) then
    let g := str_count "1" (format_b bin_blade) in
    indices <- dict_getitem Nat.eqb
                 (Algebra.indices_for_grade (Algebra.d algebra)) g ;;
    Ok (multivector_of_grade indices
          (map (fun i => if bin_blade =? i then 1 else 0) indices))
  else Ok (fromkeysvalues [bin_blade] [1]).

(** Every blade the dictionary has stored is the value [blade_value]
    gives for its name. *)
Definition memoized (algebra : Algebra.t) (self : BladeDict.t) : Prop :=
  forall name mv,
    dict_get String.eqb (BladeDict.blades self) name = Some mv ->
    blade_value algebra name = Ok mv.

(** The name tables of an algebra are those [__post_init__] builds for
    its start index and dimension. *)
Definition named (algebra : Algebra.t) : Prop :=
  Algebra.bin2canon algebra
    = Algebra.make_bin2canon (Algebra.start_index algebra) (Algebra.d algebra) /\
  Algebra.canon2bin algebra = Algebra.make_canon2bin (Algebra.bin2canon algebra).

(** A decision procedure: for every two blades of [a] whose index has bit
    [k] set, the Cayley entry is the literal zero and the sign is 0. *)
Definition products_vanish (k : Z) (a : Algebra.t) : bool :=
  forallb
    (fun x =>
       forallb
         (fun y =>
            implb (Z.testbit (snd x) k && Z.testbit (snd y) k)
              (match dict_get pair_eqb (Algebra.cayley a) (fst x, fst y) with
               | Some s => String.eqb s "0"
               | None => false
               end
               && match np_get2 (Algebra.signs a) (snd x) (snd y) with
                  | Ok v => v =? 0
                  | Raise _ => false
                  end))
         (Algebra.canon2bin a))
    (Algebra.canon2bin a).

(* ================================================================= *)
(** * Properties *)

(* ================================================================= *)
(** ** Lists updated in place *)

Lemma list_set_length {A : Type} (l : list A) (i : nat) (v : A) :
  List.length (list_set l i v) = List.length l.
Proof.
  revert i; induction l as [|a l IH]; intros [|i]; simpl; auto.
Qed.

Lemma nth_error_list_set_eq {A : Type} (l : list A) (i : nat) (v : A) :
  (i < List.length l)%nat -> nth_error (list_set l i v) i = Some v.
Proof.
  revert i; induction l as [|a l IH]; intros [|i] H; simpl in *; try lia; auto.
  apply IH; lia.
Qed.

Lemma nth_error_list_set_ne {A : Type} (l : list A) (i j : nat) (v : A) :
  i <> j -> nth_error (list_set l i v) j = nth_error l j.
Proof.
  revert i j; induction l as [|a l IH]; intros [|i] [|j] H; simpl; auto;
    try congruence.
Qed.

Lemma list_set_app_here {A : Type} (pre : list A) (x : A) (post : list A) (v : A) :
  list_set (pre ++ x :: post) (List.length pre) v = pre ++ v :: post.
Proof.
  induction pre as [|a pre IH]; simpl; [reflexivity | now rewrite IH].
Qed.

Lemma nth_error_app_here {A : Type} (pre : list A) (x : A) (post : list A) :
  nth_error (pre ++ x :: post) (List.length pre) = Some x.
Proof.
  induction pre as [|a pre IH]; simpl; auto.
Qed.

(** Two neighbours that exist split the list around them. *)
Lemma nth_error_neighbours {A : Type} (l : list A) (i : nat) (a b : A) :
  nth_error l i = Some a -> nth_error l (S i) = Some b ->
  exists pre post, l = pre ++ a :: b :: post /\ List.length pre = i.
Proof.
  revert i; induction l as [|c l IH]; intros [|i] Ha Hb; simpl in *; try discriminate.
  - destruct l as [|c' l]; simpl in *; [discriminate|].
    inversion Ha; inversion Hb; subst. now exists [], l.
  - destruct (IH i Ha Hb) as (pre & post & -> & <-).
    now exists (c :: pre), post.
Qed.

Lemma transpose_split {A : Type} (pre : list A) (a b : A) (post : list A) :
  transpose (pre ++ a :: b :: post) (List.length pre) = pre ++ b :: a :: post.
Proof.
  unfold transpose.
  rewrite nth_error_app_here.
  replace (pre ++ a :: b :: post) with ((pre ++ [a]) ++ b :: post) at 1
    by now rewrite <- app_assoc.
  replace (S (List.length pre)) with (List.length (pre ++ [a]))
    by (rewrite length_app; simpl; lia).
  rewrite nth_error_app_here.
  rewrite list_set_app_here.
  replace (pre ++ b :: b :: post) with ((pre ++ [b]) ++ b :: post)
    by now rewrite <- app_assoc.
  replace (List.length (pre ++ [a])) with (List.length (pre ++ [b]))
    by (rewrite !length_app; simpl; lia).
  rewrite list_set_app_here. now rewrite <- app_assoc.
Qed.

(* ================================================================= *)
(** ** [_sort_product] *)

Section SortProductFacts.
Context {A : Type}.
Variable gtb : A -> A -> bool.

(** A step of the pass either leaves the list alone or is the adjacent
    transposition at its position. *)
Lemma swap_step_cases (l : list A) (s i : nat) :
  swap_step gtb (l, s) i = (l, s) \/
  (swap_step gtb (l, s) i = (transpose l i, S s) /\
   exists a b, nth_error l i = Some a /\ nth_error l (S i) = Some b /\ gtb a b = true).
Proof.
  unfold swap_step, transpose.
  destruct (nth_error l i) as [a|] eqn:Ha; auto.
  destruct (nth_error l (S i)) as [b|] eqn:Hb; auto.
  destruct (gtb a b) eqn:Hab; auto.
  right; split; auto. exists a, b; auto.
Qed.

Lemma fold_swap_step_transposes (idxs : list nat) (l : list A) (s : nat) :
  exists ts,
    fold_left (swap_step gtb) idxs (l, s) = (transpose_all ts l, (s + List.length ts)%nat).
Proof.
  revert l s; induction idxs as [|i idxs IH]; intros l s; cbn [fold_left].
  - exists []; simpl. now rewrite Nat.add_0_r.
  - destruct (swap_step_cases l s i) as [-> | [-> _]].
    + apply IH.
    + destruct (IH (transpose l i) (S s)) as [ts Hts].
      exists (i :: ts). rewrite Hts; simpl. f_equal; lia.
Qed.

Lemma swap_step_split (pre : list A) (a b : A) (post : list A) (s : nat) :
  swap_step gtb (pre ++ a :: b :: post, s) (List.length pre)
  = if gtb a b then (pre ++ b :: a :: post, S s) else (pre ++ a :: b :: post, s).
Proof.
  pose proof (transpose_split pre a b post) as T.
  unfold swap_step, transpose in *.
  destruct (nth_error (pre ++ a :: b :: post) (List.length pre)) as [a'|] eqn:Ha.
  2: { rewrite nth_error_app_here in Ha; discriminate. }
  rewrite nth_error_app_here in Ha. inversion Ha; subst a'.
  destruct (nth_error (pre ++ a :: b :: post) (S (List.length pre))) as [b'|] eqn:Hb.
  - assert (b' = b).
    { replace (pre ++ a :: b :: post) with ((pre ++ [a]) ++ b :: post) in Hb
        by now rewrite <- app_assoc.
      replace (S (List.length pre)) with (List.length (pre ++ [a])) in Hb
        by (rewrite length_app; simpl; lia).
      rewrite nth_error_app_here in Hb. congruence. }
    subst b'. rewrite T. reflexivity.
  - exfalso. apply nth_error_None in Hb. rewrite length_app in Hb. simpl in Hb. lia.
Qed.

(** The pass of the source, position by position, is the pass that
    carries the current element along. *)
Lemma fold_swap_step_bubble_from (rest pre : list A) (x : A) (s : nat) :
  fold_left (swap_step gtb) (seq (List.length pre) (List.length rest)) (pre ++ x :: rest, s)
  = (pre ++ fst (bubble_from gtb x rest), (s + snd (bubble_from gtb x rest))%nat).
Proof.
  revert pre x s; induction rest as [|y rest IH]; intros pre x s.
  - simpl. now rewrite Nat.add_0_r.
  - cbn [List.length seq fold_left bubble_from].
    rewrite swap_step_split.
    destruct (gtb x y) eqn:Hxy.
    + replace (pre ++ y :: x :: rest) with ((pre ++ [y]) ++ x :: rest)
        by now rewrite <- app_assoc.
      replace (S (List.length pre)) with (List.length (pre ++ [y]))
        by (rewrite length_app; simpl; lia).
      rewrite IH.
      destruct (bubble_from gtb x rest) as [l n]; simpl.
      rewrite <- app_assoc; simpl. f_equal; lia.
    + replace (pre ++ x :: y :: rest) with ((pre ++ [x]) ++ y :: rest)
        by now rewrite <- app_assoc.
      replace (S (List.length pre)) with (List.length (pre ++ [x]))
        by (rewrite length_app; simpl; lia).
      rewrite IH.
      destruct (bubble_from gtb y rest) as [l n]; simpl.
      rewrite <- app_assoc; simpl. reflexivity.
Qed.

Lemma bubble_pass_cons (x : A) (rest : list A) (s : nat) :
  bubble_pass gtb (x :: rest, s)
  = (fst (bubble_from gtb x rest), (s + snd (bubble_from gtb x rest))%nat).
Proof.
  unfold bubble_pass. cbn [fst List.length].
  replace (S (List.length rest) - 1)%nat with (List.length rest) by lia.
  apply (fold_swap_step_bubble_from rest [] x s).
Qed.

Lemma bubble_pass_transposes (l : list A) (s : nat) :
  exists ts, bubble_pass gtb (l, s) = (transpose_all ts l, (s + List.length ts)%nat).
Proof. apply fold_swap_step_transposes. Qed.

Lemma bubble_from_perm (rest : list A) (x : A) :
  Permutation (x :: rest) (fst (bubble_from gtb x rest)).
Proof.
  revert x; induction rest as [|y rest IH]; intros x; simpl; auto.
  destruct (gtb x y).
  - specialize (IH x). destruct (bubble_from gtb x rest) as [l n]; simpl in *.
    rewrite perm_swap. now constructor.
  - specialize (IH y). destruct (bubble_from gtb y rest) as [l n]; simpl in *.
    now constructor.
Qed.

Lemma count_gt_perm (x : A) (l l' : list A) :
  Permutation l l' -> count_gt gtb x l = count_gt gtb x l'.
Proof.
  induction 1; simpl; try lia.
Qed.

Lemma count_gt_le_length (x : A) (l : list A) :
  (count_gt gtb x l <= List.length l)%nat.
Proof.
  induction l as [|y l IH]; simpl; auto. destruct (gtb x y); lia.
Qed.

Lemma inversions_bound (l : list A) :
  (inversions gtb l <= List.length l * List.length l)%nat.
Proof.
  induction l as [|x l IH]; simpl; auto.
  pose proof (count_gt_le_length x l). nia.
Qed.

Lemma inversions_app_swap (pre : list A) (a b : A) (post : list A) :
  (inversions gtb (pre ++ a :: b :: post) + (if gtb b a then 1 else 0)
   = inversions gtb (pre ++ b :: a :: post) + (if gtb a b then 1 else 0))%nat.
Proof.
  induction pre as [|c pre IH]; simpl.
  - destruct (gtb a b), (gtb b a); lia.
  - rewrite (count_gt_perm c (pre ++ a :: b :: post) (pre ++ b :: a :: post)).
    + lia.
    + apply Permutation_app_head. constructor.
Qed.

(** An adjacent transposition removes at most one inversion. *)
Lemma inversions_transpose (l : list A) (i : nat) :
  (inversions gtb l <= S (inversions gtb (transpose l i)))%nat.
Proof.
  unfold transpose.
  destruct (nth_error l i) as [a|] eqn:Ha; auto.
  destruct (nth_error l (S i)) as [b|] eqn:Hb; auto.
  destruct (nth_error_neighbours l i a b Ha Hb) as (pre & post & -> & <-).
  pose proof (transpose_split pre a b post) as T.
  unfold transpose in T. rewrite Ha, Hb in T. rewrite T.
  pose proof (inversions_app_swap pre a b post).
  destruct (gtb a b), (gtb b a); lia.
Qed.

Lemma inversions_transpose_all (ts : list nat) (l : list A) :
  (inversions gtb l <= List.length ts + inversions gtb (transpose_all ts l))%nat.
Proof.
  unfold transpose_all.
  revert l; induction ts as [|i ts IH]; intros l; cbn [fold_left List.length]; [lia|].
  pose proof (inversions_transpose l i).
  specialize (IH (transpose l i)). lia.
Qed.

Hypothesis gtb_asym : forall a b, gtb a b = true -> gtb b a = false.
Hypothesis leb_trans :
  forall a b c, gtb a b = false -> gtb b c = false -> gtb a c = false.

Lemma count_gt_zero_iff (x : A) (l : list A) :
  count_gt gtb x l = O <-> Forall (fun y => gtb x y = false) l.
Proof.
  induction l as [|y l IH]; simpl.
  - split; auto.
  - destruct (gtb x y) eqn:E; split; intro H.
    + discriminate.
    + inversion H; congruence.
    + constructor; auto. apply IH; lia.
    + inversion H; subst. apply IH; auto.
Qed.

Lemma inversions_zero_iff (l : list A) :
  inversions gtb l = O <-> sorted_list gtb l.
Proof.
  unfold sorted_list.
  induction l as [|x l IH]; simpl.
  - split; auto. constructor.
  - split; intro H.
    + constructor.
      * apply IH; lia.
      * apply count_gt_zero_iff; lia.
    + inversion H; subst.
      apply IH in H2. apply count_gt_zero_iff in H3. lia.
Qed.

(** Each pass removes as many inversions as it counts swaps. *)
Lemma bubble_from_inversions (rest : list A) (x : A) :
  inversions gtb (x :: rest)
  = (snd (bubble_from gtb x rest) + inversions gtb (fst (bubble_from gtb x rest)))%nat.
Proof.
  revert x; induction rest as [|y rest IH]; intros x; [reflexivity|].
  cbn [bubble_from].
  destruct (gtb x y) eqn:Hxy.
  - pose proof (IH x) as IHx. pose proof (bubble_from_perm rest x) as P.
    destruct (bubble_from gtb x rest) as [l n]; cbn [fst snd] in *.
    cbn [inversions count_gt] in *. rewrite Hxy.
    rewrite <- (count_gt_perm y _ _ P). cbn [count_gt].
    rewrite (gtb_asym _ _ Hxy). lia.
  - pose proof (IH y) as IHy. pose proof (bubble_from_perm rest y) as P.
    destruct (bubble_from gtb y rest) as [l n]; cbn [fst snd] in *.
    cbn [inversions count_gt] in *. rewrite Hxy.
    rewrite <- (count_gt_perm x _ _ P). cbn [count_gt]. rewrite Hxy.
    lia.
Qed.

Lemma bubble_from_no_swap (rest : list A) (x : A) :
  snd (bubble_from gtb x rest) = O -> fst (bubble_from gtb x rest) = x :: rest.
Proof.
  revert x; induction rest as [|y rest IH]; intros x; [reflexivity|].
  cbn [bubble_from].
  destruct (gtb x y) eqn:Hxy.
  - destruct (bubble_from gtb x rest) as [l n]; cbn [fst snd]. discriminate.
  - specialize (IH y). destruct (bubble_from gtb y rest) as [l n]; cbn [fst snd] in *.
    intros ->. now rewrite IH.
Qed.

Lemma bubble_from_no_swap_sorted (rest : list A) (x : A) :
  snd (bubble_from gtb x rest) = O -> sorted_list gtb (x :: rest).
Proof.
  unfold sorted_list.
  revert x; induction rest as [|y rest IH]; intros x.
  - intros _. repeat constructor.
  - cbn [bubble_from].
    destruct (gtb x y) eqn:Hxy.
    + destruct (bubble_from gtb x rest) as [l n]; cbn [fst snd]. discriminate.
    + specialize (IH y).
      destruct (bubble_from gtb y rest) as [l n]; cbn [fst snd] in *.
      intros ->. specialize (IH eq_refl).
      constructor; auto. constructor; auto.
      inversion IH; subst.
      eapply Forall_impl; [|eassumption].
      intros z Hz. simpl in Hz. eapply leb_trans; eauto.
Qed.

Lemma bubble_pass_spec (l : list A) (s : nat) :
  exists l' n,
    bubble_pass gtb (l, s) = (l', (s + n)%nat) /\
    Permutation l l' /\
    inversions gtb l = (n + inversions gtb l')%nat /\
    (n = O -> l' = l /\ sorted_list gtb l).
Proof.
  destruct l as [|x rest].
  - exists [], O. unfold bubble_pass; simpl. rewrite Nat.add_0_r.
    repeat split; auto. constructor.
  - exists (fst (bubble_from gtb x rest)), (snd (bubble_from gtb x rest)).
    rewrite bubble_pass_cons. split; [reflexivity|]. split; [|split].
    + apply bubble_from_perm.
    + apply bubble_from_inversions.
    + intros H; split.
      * now apply bubble_from_no_swap.
      * now apply bubble_from_no_swap_sorted.
Qed.

(** The loop breaks within [inversions prod + 1] passes, on a sorted
    rearrangement of [prod], having counted one swap per inversion. *)
Lemma sort_loop_spec (fuel : nat) (prod : list A) (swaps : nat) :
  (inversions gtb prod < fuel)%nat ->
  exists prod',
    sort_loop gtb fuel prod swaps swaps = Some (prod', (swaps + inversions gtb prod)%nat) /\
    Permutation prod prod' /\ sorted_list gtb prod'.
Proof.
  revert prod swaps; induction fuel as [|fuel IH]; intros prod swaps Hlt; [lia|].
  cbn [sort_loop].
  destruct (bubble_pass_spec prod swaps) as (l' & n & -> & P & Hinv & Hz).
  destruct (Nat.eqb_spec swaps (swaps + n)) as [E|E].
  - assert (n = O) by lia. subst n.
    destruct (Hz eq_refl) as [-> Hs].
    exists prod. split; [|split]; auto.
    apply inversions_zero_iff in Hs. now rewrite Hs.
  - destruct (IH l' (swaps + n)%nat) as (prod' & Hloop & P' & S'); [lia|].
    exists prod'. rewrite Hloop. split; [|split]; auto.
    + do 2 f_equal. lia.
    + eapply Permutation_trans; eauto.
Qed.

Lemma sort_product_fuel_spec (fuel : nat) (prod : list A) :
  (inversions gtb prod < fuel)%nat ->
  exists prod',
    sort_product_fuel gtb fuel prod = Some (prod', inversions gtb prod) /\
    Permutation prod prod' /\ sorted_list gtb prod'.
Proof.
  intros Hlt. unfold sort_product_fuel.
  destruct (Nat.ltb_spec 1 (List.length prod)) as [Hlen|Hlen].
  - apply (sort_loop_spec fuel prod O Hlt).
  - exists prod. split; [|split]; auto.
    + destruct prod as [|x [|y rest]]; simpl in *; try reflexivity; lia.
    + destruct prod as [|x [|y rest]]; simpl in *; try lia; repeat constructor.
Qed.

(** The bound on the number of passes used by [_sort_product] is never
    reached. *)
Lemma sort_product_fuel_enough (prod : list A) :
  sort_product_fuel gtb (S (List.length prod * List.length prod)) prod
  = Some (_sort_product gtb prod).
Proof.
  unfold _sort_product.
  destruct (sort_product_fuel_spec (S (List.length prod * List.length prod)) prod)
    as (prod' & -> & _); auto.
  pose proof (inversions_bound prod). lia.
Qed.

Lemma sort_product_spec (prod : list A) :
  snd (_sort_product gtb prod) = inversions gtb prod /\
  Permutation prod (fst (_sort_product gtb prod)) /\
  sorted_list gtb (fst (_sort_product gtb prod)).
Proof.
  unfold _sort_product.
  destruct (sort_product_fuel_spec (S (List.length prod * List.length prod)) prod)
    as (prod' & -> & P & S').
  - pose proof (inversions_bound prod). lia.
  - simpl. auto.
Qed.

Lemma sort_loop_transposes (fuel : nat) (prod : list A) (swaps prev : nat) r :
  sort_loop gtb fuel prod swaps prev = Some r ->
  exists ts, fst r = transpose_all ts prod /\ snd r = (swaps + List.length ts)%nat.
Proof.
  revert prod swaps prev; induction fuel as [|fuel IH]; intros prod swaps prev; [discriminate|].
  cbn [sort_loop].
  destruct (bubble_pass_transposes prod swaps) as [ts ->].
  destruct (Nat.eqb prev (swaps + List.length ts)).
  - intros [= <-]. exists ts; auto.
  - intros H. destruct (IH _ _ _ H) as (ts' & E1 & E2).
    exists (ts ++ ts'). unfold transpose_all in *. rewrite fold_left_app, length_app.
    split; auto. lia.
Qed.

Lemma sort_loop_fuel_mono (fuel fuel' : nat) (prod : list A) (swaps prev : nat) r :
  (fuel <= fuel')%nat ->
  sort_loop gtb fuel prod swaps prev = Some r ->
  sort_loop gtb fuel' prod swaps prev = Some r.
Proof.
  revert fuel' prod swaps prev; induction fuel as [|fuel IH];
    intros fuel' prod swaps prev Hle; [discriminate|].
  destruct fuel' as [|fuel']; [lia|].
  cbn [sort_loop].
  destruct (bubble_pass gtb (prod, swaps)) as [l n].
  destruct (Nat.eqb prev n); auto.
  apply IH; lia.
Qed.

Lemma sort_product_fuel_mono (fuel : nat) (prod : list A) :
  (List.length prod * List.length prod < fuel)%nat ->
  sort_product_fuel gtb fuel prod = Some (_sort_product gtb prod).
Proof.
  intros Hlt. pose proof (sort_product_fuel_enough prod) as H.
  unfold sort_product_fuel in *.
  destruct (1 <? List.length prod)%nat; auto.
  eapply sort_loop_fuel_mono; [|exact H]. lia.
Qed.

Lemma sort_product_transposes (prod : list A) :
  exists ts,
    fst (_sort_product gtb prod) = transpose_all ts prod /\
    snd (_sort_product gtb prod) = List.length ts.
Proof.
  pose proof (sort_product_fuel_enough prod) as H.
  unfold sort_product_fuel in H.
  destruct (1 <? List.length prod)%nat.
  - apply sort_loop_transposes in H. exact H.
  - inversion H as [H']. exists []; auto.
Qed.
End SortProductFacts.

(** C6: for every list over a type whose "greater than" test is asymmetric
    and whose "not greater than" is transitive, the passes of
    [_sort_product] stop (every bound on the number of passes above
    [len(prod) ** 2] gives the same result), the list is left in
    non-decreasing order and is a rearrangement of the original, the value
    returned is the number of inversions of the original list, which is the
    least number of adjacent transpositions that sort it (the swaps made are
    such a sequence, and no shorter sequence sorts the list), and the count
    is 0 on a list of at most one element. *)
Theorem sort_product_counts_inversions {A : Type} (gtb : A -> A -> bool)
    (gtb_asym : forall a b, gtb a b = true -> gtb b a = false)
    (leb_trans : forall a b c, gtb a b = false -> gtb b c = false -> gtb a c = false)
    (prod : list A) :
  (forall fuel, (List.length prod * List.length prod < fuel)%nat ->
     sort_product_fuel gtb fuel prod = Some (_sort_product gtb prod)) /\
  sorted_list gtb (fst (_sort_product gtb prod)) /\
  Permutation prod (fst (_sort_product gtb prod)) /\
  snd (_sort_product gtb prod) = inversions gtb prod /\
  (exists ts, List.length ts = snd (_sort_product gtb prod) /\
              transpose_all ts prod = fst (_sort_product gtb prod)) /\
  (forall ts, sorted_list gtb (transpose_all ts prod) ->
              (snd (_sort_product gtb prod) <= List.length ts)%nat) /\
  ((List.length prod <= 1)%nat -> snd (_sort_product gtb prod) = O).
Proof.
  destruct (sort_product_spec gtb gtb_asym leb_trans prod) as (Hinv & P & S').
  split; [|split; [|split; [|split; [|split; [|split]]]]]; auto.
  - intros fuel Hf. now apply sort_product_fuel_mono.
  - destruct (sort_product_transposes gtb gtb_asym leb_trans prod) as (ts & E1 & E2).
    exists ts; split; congruence.
  - intros ts Hs. rewrite Hinv.
    pose proof (inversions_transpose_all gtb ts prod) as H.
    apply (inversions_zero_iff gtb) in Hs. lia.
  - intros Hlen. rewrite Hinv.
    destruct prod as [|x [|y rest]]; simpl in *; auto; lia.
Qed.

Lemma char_gtb_asym (a b : ascii) : char_gtb a b = true -> char_gtb b a = false.
Proof.
  unfold char_gtb. intros H. apply N.ltb_lt in H. apply N.ltb_ge. lia.
Qed.

Lemma char_leb_trans (a b c : ascii) :
  char_gtb a b = false -> char_gtb b c = false -> char_gtb a c = false.
Proof.
  unfold char_gtb. intros H1 H2. apply N.ltb_ge in H1, H2. apply N.ltb_ge. lia.
Qed.

Lemma sort_product_counts_inversions_witness :
  (forall a b, char_gtb a b = true -> char_gtb b a = false) /\
  (forall a b c, char_gtb a b = false -> char_gtb b c = false -> char_gtb a c = false) /\
  _sort_product char_gtb (list_ascii_of_string "12312")
  = (list_ascii_of_string "11223", 3%nat) /\
  snd (_sort_product char_gtb (list_ascii_of_string "12312"))
  = inversions char_gtb (list_ascii_of_string "12312").
Proof.
  split; [exact char_gtb_asym|]. split; [exact char_leb_trans|].
  split; [reflexivity|].
  apply (sort_product_counts_inversions char_gtb char_gtb_asym char_leb_trans
           (list_ascii_of_string "12312")).
Defined.

(* ================================================================= *)
(** ** Dictionaries *)

Lemma fold_left_snoc {S X : Type} (f : S -> X -> S) (l : list X) (x : X) (a : S) :
  fold_left f (l ++ [x]) a = f (fold_left f l a) x.
Proof. now rewrite fold_left_app. Qed.

Section DictFacts.
Context {K V : Type}.
Variable eqb : K -> K -> bool.
Hypothesis eqb_spec : forall a b, reflect (a = b) (eqb a b).

Lemma eqb_same (k : K) : eqb k k = true.
Proof. destruct (eqb_spec k k); congruence. Qed.

Lemma eqb_diff (k k' : K) : k <> k' -> eqb k k' = false.
Proof. destruct (eqb_spec k k'); congruence. Qed.

Lemma dict_get_set_eq (d : list (K * V)) (k : K) (v : V) :
  dict_get eqb (dict_set eqb d k v) k = Some v.
Proof.
  induction d as [|[k' v'] d IH]; simpl.
  - now rewrite eqb_same.
  - destruct (eqb_spec k' k) as [->|N]; simpl.
    + now rewrite eqb_same.
    + now rewrite eqb_diff.
Qed.

Lemma dict_get_set_ne (d : list (K * V)) (k k' : K) (v : V) :
  k <> k' -> dict_get eqb (dict_set eqb d k v) k' = dict_get eqb d k'.
Proof.
  intros N. induction d as [|[k0 v0] d IH]; simpl.
  - now rewrite eqb_diff.
  - destruct (eqb_spec k0 k) as [->|N0]; simpl.
    + now rewrite eqb_diff.
    + now rewrite IH.
Qed.

Lemma dict_get_In (d : list (K * V)) (k : K) (v : V) :
  dict_get eqb d k = Some v -> In (k, v) d.
Proof.
  induction d as [|[k' v'] d IH]; simpl; [discriminate|].
  destruct (eqb_spec k' k) as [->|N].
  - intros [= ->]. now left.
  - intros H. right. auto.
Qed.

Lemma dict_get_None (d : list (K * V)) (k : K) :
  dict_get eqb d k = None <-> ~ In k (dict_keys d).
Proof.
  induction d as [|[k' v'] d IH]; simpl.
  - tauto.
  - destruct (eqb_spec k' k) as [->|N].
    + split; [discriminate | tauto].
    + rewrite IH. tauto.
Qed.

Lemma dict_get_Some_key (d : list (K * V)) (k : K) :
  In k (dict_keys d) -> exists v, dict_get eqb d k = Some v.
Proof.
  intros H. destruct (dict_get eqb d k) as [v|] eqn:E; eauto.
  apply dict_get_None in E. contradiction.
Qed.

Lemma In_dict_get (d : list (K * V)) (k : K) (v : V) :
  NoDup (dict_keys d) -> In (k, v) d -> dict_get eqb d k = Some v.
Proof.
  induction d as [|[k' v'] d IH]; simpl; [tauto|].
  intros ND [E|H].
  - inversion E; subst. now rewrite eqb_same.
  - inversion ND; subst.
    destruct (eqb_spec k' k) as [->|N].
    + exfalso. apply H2. apply (in_map fst) in H. exact H.
    + auto.
Qed.

Lemma dict_set_absent (d : list (K * V)) (k : K) (v : V) :
  ~ In k (dict_keys d) -> dict_set eqb d k v = d ++ [(k, v)].
Proof.
  induction d as [|[k' v'] d IH]; simpl; auto.
  intros N. destruct (eqb_spec k' k) as [->|N'].
  - tauto.
  - rewrite IH; tauto.
Qed.

Lemma dict_keys_set_present (d : list (K * V)) (k : K) (v : V) :
  In k (dict_keys d) -> dict_keys (dict_set eqb d k v) = dict_keys d.
Proof.
  induction d as [|[k' v'] d IH]; simpl; [tauto|].
  intros H. destruct (eqb_spec k' k) as [->|N]; simpl; auto.
  rewrite IH; auto. destruct H; congruence.
Qed.

Lemma dict_keys_set (d : list (K * V)) (k : K) (v : V) :
  forall k', In k' (dict_keys (dict_set eqb d k v)) <-> In k' (dict_keys d) \/ k' = k.
Proof.
  intros k'. induction d as [|[k0 v0] d IH]; simpl.
  - intuition.
  - destruct (eqb_spec k0 k) as [->|N]; simpl.
    + intuition.
    + rewrite IH. tauto.
Qed.

Lemma dict_set_In (d : list (K * V)) (k : K) (v : V) (k' : K) (v' : V) :
  In (k', v') (dict_set eqb d k v) -> In (k', v') d \/ (k', v') = (k, v).
Proof.
  induction d as [|[k0 v0] d IH]; simpl.
  - intuition.
  - destruct (eqb_spec k0 k) as [->|N]; simpl.
    + intuition.
    + intros [H|H]; auto. apply IH in H. tauto.
Qed.

Lemma dict_set_NoDup (d : list (K * V)) (k : K) (v : V) :
  NoDup (dict_keys d) -> NoDup (dict_keys (dict_set eqb d k v)).
Proof.
  induction d as [|[k0 v0] d IH]; simpl.
  - intros _. repeat constructor. simpl; tauto.
  - intros ND. inversion ND; subst.
    destruct (eqb_spec k0 k) as [->|N]; simpl.
    + now constructor.
    + constructor; auto.
      intros H. apply dict_keys_set in H. destruct H; auto.
Qed.

Lemma dict_of_items_snoc (l : list (K * V)) (k : K) (v : V) :
  dict_of_items eqb (l ++ [(k, v)]) = dict_set eqb (dict_of_items eqb l) k v.
Proof. unfold dict_of_items. now rewrite fold_left_snoc. Qed.

Lemma dict_of_items_NoDup (l : list (K * V)) :
  NoDup (dict_keys (dict_of_items eqb l)).
Proof.
  induction l as [|[k v] l IH] using rev_ind.
  - constructor.
  - rewrite dict_of_items_snoc. now apply dict_set_NoDup.
Qed.

Lemma dict_of_items_keys (l : list (K * V)) (k : K) :
  In k (dict_keys (dict_of_items eqb l)) <-> In k (map fst l).
Proof.
  induction l as [|[k0 v0] l IH] using rev_ind.
  - simpl; tauto.
  - rewrite dict_of_items_snoc, dict_keys_set, map_app, in_app_iff, IH. simpl.
    intuition.
Qed.

Lemma dict_of_items_In (l : list (K * V)) (k : K) (v : V) :
  In (k, v) (dict_of_items eqb l) -> In (k, v) l.
Proof.
  induction l as [|[k0 v0] l IH] using rev_ind.
  - simpl; tauto.
  - rewrite dict_of_items_snoc. intros H. apply dict_set_In in H.
    apply in_app_iff. destruct H as [H|H]; [left; auto | right; left; auto].
Qed.

(** Items with pairwise different keys are stored as they come. *)
Lemma dict_of_items_distinct (l : list (K * V)) :
  NoDup (map fst l) -> dict_of_items eqb l = l.
Proof.
  induction l as [|[k v] l IH] using rev_ind; [reflexivity|].
  rewrite map_app. simpl. intros ND.
  rewrite dict_of_items_snoc.
  apply NoDup_remove in ND. rewrite app_nil_r in ND. destruct ND as [ND N].
  rewrite IH by exact ND.
  now apply dict_set_absent.
Qed.

Lemma dict_getitem_Ok (d : list (K * V)) (k : K) (v : V) :
  dict_getitem eqb d k = Ok v <-> dict_get eqb d k = Some v.
Proof.
  unfold dict_getitem. destruct (dict_get eqb d k); split; congruence.
Qed.

End DictFacts.

Lemma pair_eqb_spec (a b : string * string) : reflect (a = b) (pair_eqb a b).
Proof.
  unfold pair_eqb. destruct a as [a1 a2], b as [b1 b2]; simpl.
  destruct (String.eqb_spec a1 b1), (String.eqb_spec a2 b2); simpl;
    constructor; congruence.
Qed.

Lemma Z_eqb_spec (a b : Z) : reflect (a = b) (Z.eqb a b).
Proof. apply Z.eqb_spec. Qed.

(** [Counter] counts. *)
Lemma Counter_get {K : Type} (eqb : K -> K -> bool)
    (eqb_spec : forall a b, reflect (a = b) (eqb a b))
    (eq_dec : forall a b : K, {a = b} + {a <> b}) (xs : list K) (k : K) :
  dict_get eqb (Counter eqb xs) k
  = if (count_occ eq_dec xs k =? 0)%nat then None else Some (count_occ eq_dec xs k).
Proof.
  induction xs as [|x xs IH] using rev_ind; [reflexivity|].
  unfold Counter in *. rewrite fold_left_snoc.
  rewrite count_occ_app. simpl.
  destruct (eq_dec x k) as [->|N].
  - rewrite dict_get_set_eq by exact eqb_spec. rewrite IH.
    destruct (Nat.eqb_spec (count_occ eq_dec xs k) 0) as [E|E].
    + rewrite E. reflexivity.
    + destruct (Nat.eqb_spec (count_occ eq_dec xs k + 1) 0); [lia|].
      f_equal. lia.
  - rewrite dict_get_set_ne by (exact eqb_spec || exact N). rewrite IH.
    now rewrite Nat.add_0_r.
Qed.

Lemma counter_get_Counter {K : Type} (eqb : K -> K -> bool)
    (eqb_spec : forall a b, reflect (a = b) (eqb a b))
    (eq_dec : forall a b : K, {a = b} + {a <> b}) (xs : list K) (k : K) :
  counter_get eqb (Counter eqb xs) k = count_occ eq_dec xs k.
Proof.
  unfold counter_get. rewrite (Counter_get eqb eqb_spec eq_dec).
  destruct (Nat.eqb_spec (count_occ eq_dec xs k) 0); auto.
Qed.

(* ================================================================= *)
(** ** The signature given to the constructor *)

Lemma tally_le_length (sig : list Z) :
  (count_occ Z.eq_dec sig 1%Z + count_occ Z.eq_dec sig (-1)%Z + count_occ Z.eq_dec sig 0%Z
   <= List.length sig)%nat.
Proof.
  induction sig as [|x sig IH]; simpl; auto.
  destruct (Z.eq_dec x 1), (Z.eq_dec x (-1)), (Z.eq_dec x 0); lia.
Qed.

Lemma tally_eq_length_iff (sig : list Z) :
  (count_occ Z.eq_dec sig 1%Z + count_occ Z.eq_dec sig (-1)%Z + count_occ Z.eq_dec sig 0%Z
   = List.length sig)%nat
  <-> Forall (fun x => x = 1 \/ x = -1 \/ x = 0) sig.
Proof.
  induction sig as [|x sig IH]; simpl.
  - split; auto.
  - pose proof (tally_le_length sig) as Hle. split.
    + intros H. constructor.
      * destruct (Z.eq_dec x 1), (Z.eq_dec x (-1)), (Z.eq_dec x 0); auto; lia.
      * apply IH.
        destruct (Z.eq_dec x 1), (Z.eq_dec x (-1)), (Z.eq_dec x 0); lia.
    + intros H. inversion H as [|? ? Hx Hs]; subst. apply IH in Hs.
      destruct (Z.eq_dec x 1), (Z.eq_dec x (-1)), (Z.eq_dec x 0); lia.
Qed.

Lemma tally_ne_length_iff (sig : list Z) :
  (count_occ Z.eq_dec sig 1%Z + count_occ Z.eq_dec sig (-1)%Z + count_occ Z.eq_dec sig 0%Z
   <> List.length sig)%nat
  <-> exists x, In x sig /\ x <> 1 /\ x <> -1 /\ x <> 0.
Proof.
  rewrite tally_eq_length_iff. split.
  - induction sig as [|x sig IH]; intros H.
    + exfalso. apply H. constructor.
    + destruct (Z.eq_dec x 1) as [E1|N1]; [|destruct (Z.eq_dec x (-1)) as [E2|N2];
        [|destruct (Z.eq_dec x 0) as [E3|N3]]].
      4: { exists x. simpl. auto. }
      all: destruct IH as (y & Hy & Hy');
        [intros F; apply H; constructor; auto | exists y; simpl; auto].
  - intros (x & Hx & N1 & N2 & N3) F.
    rewrite Forall_forall in F. specialize (F x Hx). lia.
Qed.

Lemma resolve_signature_explicit (p0 q0 r0 : nat) (sig : list Z) :
  Algebra.resolve_signature p0 q0 r0 (Some sig)
  = if (count_occ Z.eq_dec sig 1%Z + count_occ Z.eq_dec sig (-1)%Z + count_occ Z.eq_dec sig 0%Z
        =? List.length sig)%nat
    then Ok (count_occ Z.eq_dec sig 1, count_occ Z.eq_dec sig (-1),
             count_occ Z.eq_dec sig 0, sig)
    else Raise (TypeError "Unsupported signature.").
Proof.
  unfold Algebra.resolve_signature.
  rewrite !(counter_get_Counter Z.eqb Z_eqb_spec Z.eq_dec).
  destruct (_ =? _)%nat; reflexivity.
Qed.

(** What [__post_init__] stores, read off a successful construction. *)
Lemma post_init_fields (p0 q0 r0 : nat) (sig0 : option (list Z)) (si : option Z)
    (opts : Options) (b : Built) :
  __post_init__ p0 q0 r0 sig0 si opts = Ok b ->
  exists p q r sig tables,
    Algebra.resolve_signature p0 q0 r0 sig0 = Ok (p, q, r, sig) /\
    let s := Algebra.resolve_start_index r si in
    let d := (p + q + r)%nat in
    Algebra._prepare_signs_and_cayley d sig s
      (Algebra.make_canon2bin (Algebra.make_bin2canon s d)) = Ok tables /\
    algebra b =
      {| Algebra.p := p; Algebra.q := q; Algebra.r := r; Algebra.d := d;
         Algebra.signature := sig; Algebra.start_index := s;
         Algebra.options := opts;
         Algebra.bin2canon := Algebra.make_bin2canon s d;
         Algebra.canon2bin := Algebra.make_canon2bin (Algebra.make_bin2canon s d);
         Algebra.swaps := swaps_arr tables; Algebra.signs := signs_arr tables;
         Algebra.cayley := cayley_dict tables |} /\
    exists blades0 top,
      BladeDict.__post_init__ (algebra b) (negb (d <=? 6)%nat) = Ok blades0 /\
      dict_getitem Z.eqb (Algebra.make_bin2canon s d) (2 ^ Z.of_nat d - 1) = Ok top /\
      BladeDict.__getitem__ (algebra b) blades0 top = Ok (pss b, blades b).
Proof.
  unfold __post_init__. intros H.
  destruct (Algebra.resolve_signature p0 q0 r0 sig0) as [[[[p q] r] sig]|e] eqn:E1;
    [|discriminate].
  cbn [bind] in H.
  destruct (Algebra._prepare_signs_and_cayley _ _ _ _) as [tables|e] eqn:E2;
    [|discriminate].
  cbn [bind] in H.
  destruct (BladeDict.__post_init__ _ _) as [blades0|e] eqn:E3; [|discriminate].
  cbn [bind] in H.
  destruct (dict_getitem Z.eqb _ _) as [top|e] eqn:E4; [|discriminate].
  cbn [bind] in H.
  destruct (BladeDict.__getitem__ _ blades0 top) as [[pss1 blades1]|e] eqn:E5;
    [|discriminate].
  cbn [bind] in H. inversion H; subst b; clear H. cbn [algebra blades pss].
  exists p, q, r, sig, tables. split; [reflexivity|].
  cbv zeta. split; [exact E2|]. split; [reflexivity|].
  exists blades0, top. auto.
Qed.

(** C7: with an explicit signature the counts are the tallies of its 1,
    -1 and 0 entries, whatever counts were passed along; when the tallies
    do not add up to the length of the sequence, which is exactly when it
    holds a value other than 1, -1 and 0, construction raises
    TypeError('Unsupported signature.') and nothing is built; otherwise
    the resolution step succeeds with the tallies, and every algebra that
    is built carries them. *)
Theorem explicit_signature_tally (p0 q0 r0 : nat) (sig : list Z) (si : option Z)
    (opts : Options) :
  let p := count_occ Z.eq_dec sig 1 in
  let q := count_occ Z.eq_dec sig (-1) in
  let r := count_occ Z.eq_dec sig 0 in
  ((p + q + r)%nat <> List.length sig <->
     exists x, In x sig /\ x <> 1 /\ x <> -1 /\ x <> 0) /\
  ((p + q + r)%nat <> List.length sig ->
     Algebra.resolve_signature p0 q0 r0 (Some sig)
       = Raise (TypeError "Unsupported signature.") /\
     __post_init__ p0 q0 r0 (Some sig) si opts
       = Raise (TypeError "Unsupported signature.")) /\
  ((p + q + r)%nat = List.length sig ->
     Algebra.resolve_signature p0 q0 r0 (Some sig) = Ok (p, q, r, sig)) /\
  (forall b, __post_init__ p0 q0 r0 (Some sig) si opts = Ok b ->
     Algebra.p (algebra b) = p /\ Algebra.q (algebra b) = q /\
     Algebra.r (algebra b) = r /\ Algebra.signature (algebra b) = sig /\
     Algebra.d (algebra b) = List.length sig).
Proof.
  intros p q r.
  assert (Hres := resolve_signature_explicit p0 q0 r0 sig). fold p q r in Hres.
  split; [|split; [|split]].
  - apply tally_ne_length_iff.
  - intros N. destruct (Nat.eqb_spec (p + q + r) (List.length sig)) as [E|_]; [tauto|].
    split; auto. unfold __post_init__. now rewrite Hres.
  - intros E. destruct (Nat.eqb_spec (p + q + r) (List.length sig)) as [_|N]; [auto|tauto].
  - intros b Hb. apply post_init_fields in Hb.
    destruct Hb as (p' & q' & r' & sig' & tables & E1 & _ & Ealg & _).
    rewrite Hres in E1.
    destruct (Nat.eqb_spec (p + q + r) (List.length sig)) as [E|N]; [|discriminate].
    inversion E1; subst. rewrite Ealg; cbn. auto.
Qed.

(* ================================================================= *)
(** ** The algebra with three positive and one null generator *)

Lemma products_vanish_sound (k : Z) (a : Algebra.t) :
  products_vanish k a = true ->
  forall eI eJ bI bJ,
    In (eI, bI) (Algebra.canon2bin a) -> In (eJ, bJ) (Algebra.canon2bin a) ->
    Z.testbit bI k = true -> Z.testbit bJ k = true ->
    dict_get pair_eqb (Algebra.cayley a) (eI, eJ) = Some "0"%string /\
    np_get2 (Algebra.signs a) bI bJ = Ok 0.
Proof.
  unfold products_vanish. intros H eI eJ bI bJ HI HJ TI TJ.
  rewrite forallb_forall in H. specialize (H _ HI).
  rewrite forallb_forall in H. specialize (H _ HJ).
  cbn [fst snd] in H. rewrite TI, TJ in H. cbn [andb implb] in H.
  apply andb_true_iff in H. destruct H as [H1 H2].
  destruct (dict_get pair_eqb (Algebra.cayley a) (eI, eJ)) as [s|]; [|discriminate].
  apply String.eqb_eq in H1. subst s.
  destruct (np_get2 (Algebra.signs a) bI bJ) as [v|]; [|discriminate].
  apply Z.eqb_eq in H2. subst v. auto.
Qed.

(** C8: [Algebra(3, 0, 1)] is built; its dimension is 4, its start index
    0 and its signature [0, 1, 1, 1], with the null generator first; the
    pseudoscalar is the blade of index [2**4 - 1], named e0123, of grade
    4; the null generator e0 squares to the literal zero; and the product
    of any two blades that both contain the null generator is the literal
    zero, with sign 0. *)
Theorem pga_3_0_1 :
  exists b,
    __post_init__ 3 0 1 None None default_options = Ok b /\
    Algebra.d (algebra b) = 4%nat /\
    Algebra.start_index (algebra b) = 0 /\
    Algebra.signature (algebra b) = [0; 1; 1; 1] /\
    dict_get Z.eqb (Algebra.bin2canon (algebra b)) (2 ^ 4 - 1) = Some "e0123"%string /\
    pss b = fromkeysvalues [2 ^ 4 - 1] [1] /\
    BladeDict.__getitem__ (algebra b) (blades b) "e0123" = Ok (pss b, blades b) /\
    grade_key (2 ^ 4 - 1) = 4%nat /\
    popcount (2 ^ 4 - 1) = 4%nat /\
    dict_get Z.eqb (Algebra.bin2canon (algebra b)) (2 ^ 0) = Some "e0"%string /\
    dict_get pair_eqb (Algebra.cayley (algebra b)) ("e0", "e0")%string = Some "0"%string /\
    np_get2 (Algebra.signs (algebra b)) (2 ^ 0) (2 ^ 0) = Ok 0 /\
    (forall eI eJ bI bJ,
        dict_get String.eqb (Algebra.canon2bin (algebra b)) eI = Some bI ->
        dict_get String.eqb (Algebra.canon2bin (algebra b)) eJ = Some bJ ->
        Z.testbit bI 0 = true -> Z.testbit bJ 0 = true ->
        dict_get pair_eqb (Algebra.cayley (algebra b)) (eI, eJ) = Some "0"%string /\
        np_get2 (Algebra.signs (algebra b)) bI bJ = Ok 0).
Proof.
  destruct (__post_init__ 3 0 1 None None default_options) as [b|e] eqn:E;
    [|vm_compute in E; discriminate].
  exists b. split; [reflexivity|].
  vm_compute in E. inversion E; subst b; clear E.
  repeat (split; [vm_compute; reflexivity|]).
  intros eI eJ bI bJ HI HJ.
  apply (dict_get_In String.eqb String.eqb_spec) in HI, HJ.
  revert eI eJ bI bJ HI HJ.
  apply (products_vanish_sound 0). vm_compute. reflexivity.
Qed.

(* ================================================================= *)
(** ** Ranges, sorting by a key, grouping *)

Lemma range_In (n i : Z) : In i (range n) <-> 0 <= i < n.
Proof.
  unfold range. rewrite in_map_iff. split.
  - intros (k & <- & Hk). apply in_seq in Hk. lia.
  - intros H. exists (Z.to_nat i). split; [lia|]. apply in_seq. lia.
Qed.

Lemma range_NoDup (n : Z) : NoDup (range n).
Proof.
  unfold range. apply NoDup_map_NoDup_ForallPairs.
  - intros a b _ _ H. lia.
  - apply seq_NoDup.
Qed.

Lemma range_length (n : Z) : List.length (range n) = Z.to_nat n.
Proof. unfold range. now rewrite length_map, length_seq. Qed.

Section SortedByFacts.
Context {A K : Type}.
Variable leb : K -> K -> bool.
Variable key : A -> K.

Lemma insert_by_perm (x : A) (l : list A) :
  Permutation (insert_by leb key x l) (x :: l).
Proof.
  induction l as [|y l IH]; simpl; auto.
  destruct (leb (key x) (key y)); auto.
  rewrite perm_swap. now constructor.
Qed.

Lemma sorted_by_perm (l : list A) : Permutation (sorted_by leb key l) l.
Proof.
  induction l as [|x l IH]; simpl; auto.
  rewrite insert_by_perm. now constructor.
Qed.

Hypothesis leb_total : forall a b, leb a b = false -> leb b a = true.

Lemma insert_by_sorted (x : A) (l : list A) :
  Sorted (fun a b => leb (key a) (key b) = true) l ->
  Sorted (fun a b => leb (key a) (key b) = true) (insert_by leb key x l).
Proof.
  induction l as [|y l IH]; simpl; intros S.
  - repeat constructor.
  - destruct (leb (key x) (key y)) eqn:E.
    + constructor; auto.
    + inversion S as [|? ? S' H]; subst. constructor; auto.
      destruct l as [|z l]; simpl.
      * constructor. now apply leb_total.
      * destruct (leb (key x) (key z)).
        -- constructor. now apply leb_total.
        -- inversion H; subst. now constructor.
Qed.

Lemma sorted_by_sorted (l : list A) :
  Sorted (fun a b => leb (key a) (key b) = true) (sorted_by leb key l).
Proof.
  induction l as [|x l IH]; simpl.
  - constructor.
  - now apply insert_by_sorted.
Qed.
End SortedByFacts.

Section GroupbyFacts.
Context {A : Type}.
Variable key : A -> nat.

Lemma groupby_concat (l : list A) :
  List.concat (map snd (groupby Nat.eqb key l)) = l.
Proof.
  induction l as [|x l IH]; simpl; auto.
  destruct (groupby Nat.eqb key l) as [|[k g] groups]; simpl in *.
  - now rewrite <- IH.
  - destruct (Nat.eqb (key x) k); simpl; now rewrite <- IH.
Qed.

Lemma groupby_key (l : list A) :
  Forall (fun kg => Forall (fun x => key x = fst kg) (snd kg)) (groupby Nat.eqb key l).
Proof.
  induction l as [|x l IH]; simpl; [constructor|].
  destruct (groupby Nat.eqb key l) as [|[k g] groups]; simpl in *.
  - repeat constructor.
  - inversion IH; subst; simpl in *.
    destruct (Nat.eqb_spec (key x) k); constructor; simpl; auto.
Qed.

Lemma groupby_head (x : A) (l : list A) :
  exists g groups, groupby Nat.eqb key (x :: l) = (key x, g) :: groups.
Proof.
  simpl. destruct (groupby Nat.eqb key l) as [|[k g] groups]; eauto.
  destruct (Nat.eqb_spec (key x) k) as [->|N]; eauto.
Qed.

Lemma groupby_cons (x : A) (l : list A) :
  groupby Nat.eqb key (x :: l)
  = match groupby Nat.eqb key l with
    | (k, g) :: groups =>
        if Nat.eqb (key x) k then (k, x :: g) :: groups
        else (key x, [x]) :: (k, g) :: groups
    | [] => [(key x, [x])]
    end.
Proof. reflexivity. Qed.

(** Over a list in key order every key opens one group only. *)
Lemma groupby_sorted_keys (l : list A) :
  Sorted (fun a b => Nat.leb (key a) (key b) = true) l ->
  Sorted lt (map fst (groupby Nat.eqb key l)).
Proof.
  induction l as [|x l IH]; intros S; [constructor|].
  inversion S as [|? ? S' H]; subst. specialize (IH S').
  destruct l as [|y l].
  - simpl. repeat constructor.
  - destruct (groupby_head y l) as (g & groups & E).
    rewrite groupby_cons, E. rewrite E in IH.
    inversion H as [|? ? Hxy]; subst. apply Nat.leb_le in Hxy.
    destruct (Nat.eqb_spec (key x) (key y)) as [Exy|N]; simpl in *.
    + exact IH.
    + constructor; auto. constructor. lia.
Qed.

Lemma sorted_lt_NoDup (l : list nat) : Sorted lt l -> NoDup l.
Proof.
  intros S. apply Sorted_StronglySorted in S.
  - induction S as [|a l S IH F]; constructor; auto.
    intros H. rewrite Forall_forall in F. specialize (F a H). lia.
  - intros a b c. apply Nat.lt_trans.
Qed.
End GroupbyFacts.

(** [bin(i).count('1')] and [format(i, 'b').count('1')] are the number of
    set bits. *)
Lemma str_count_bits (p : positive) (rest : string) :
  str_count "1" (BinaryString.Raw.of_pos p rest)
  = (pos_popcount p + str_count "1" rest)%nat.
Proof.
  revert rest; induction p as [p IH|p IH|]; intros rest; simpl.
  - rewrite IH. simpl. lia.
  - rewrite IH. simpl. lia.
  - reflexivity.
Qed.

Lemma grade_key_popcount (i : Z) : grade_key i = popcount i.
Proof.
  unfold grade_key, bin, BinaryString.of_Z, BinaryString.of_pos.
  destruct i as [|p|p]; simpl; auto; rewrite str_count_bits; simpl; lia.
Qed.

Lemma format_b_popcount (i : Z) : str_count "1" (format_b i) = popcount i.
Proof.
  destruct i as [|p|p]; simpl; auto; rewrite str_count_bits; simpl; lia.
Qed.

(* ================================================================= *)
(** ** [indices_for_grade] *)

Lemma indices_for_grade_groups (d : nat) :
  Algebra.indices_for_grade d
  = groupby Nat.eqb grade_key (sorted_by Nat.leb grade_key (range (2 ^ Z.of_nat d))).
Proof.
  unfold Algebra.indices_for_grade, Algebra.__len__. cbv zeta.
  apply (dict_of_items_distinct Nat.eqb Nat.eqb_spec).
  apply sorted_lt_NoDup. apply groupby_sorted_keys.
  apply sorted_by_sorted.
  intros a b H. apply Nat.leb_gt in H. apply Nat.leb_le. lia.
Qed.

Lemma indices_for_grade_concat (d : nat) :
  Permutation (List.concat (map snd (Algebra.indices_for_grade d))) (range (2 ^ Z.of_nat d)).
Proof.
  rewrite indices_for_grade_groups, groupby_concat. apply sorted_by_perm.
Qed.

Lemma indices_for_grade_keys_NoDup (d : nat) :
  NoDup (dict_keys (Algebra.indices_for_grade d)).
Proof.
  rewrite indices_for_grade_groups.
  apply sorted_lt_NoDup. apply groupby_sorted_keys.
  apply sorted_by_sorted.
  intros a b H. apply Nat.leb_gt in H. apply Nat.leb_le. lia.
Qed.

Lemma indices_for_grade_member (d : nat) (g : nat) (inds : list Z) (i : Z) :
  In (g, inds) (Algebra.indices_for_grade d) -> In i inds ->
  0 <= i < 2 ^ Z.of_nat d /\ grade_key i = g.
Proof.
  intros Hb Hi. split.
  - apply range_In. eapply Permutation_in; [apply indices_for_grade_concat|].
    apply in_concat. exists inds. split; auto.
    apply in_map_iff. exists (g, inds). auto.
  - rewrite indices_for_grade_groups in Hb.
    pose proof (groupby_key grade_key
                  (sorted_by Nat.leb grade_key (range (2 ^ Z.of_nat d)))) as F.
    rewrite Forall_forall in F. specialize (F _ Hb). simpl in F.
    rewrite Forall_forall in F. auto.
Qed.

Lemma NoDup_concat_count {X : Type} (eq_dec : forall a b : X, {a = b} + {a <> b})
    (ls : list (list X)) (l : list X) (x : X) :
  NoDup (List.concat ls) -> In l ls -> In x l -> count_occ eq_dec l x = 1%nat.
Proof.
  induction ls as [|l0 ls IH]; simpl; [tauto|].
  intros ND [->|H] Hx.
  - apply NoDup_app_remove_r in ND. now apply NoDup_count_occ'.
  - apply NoDup_app_remove_l in ND. auto.
Qed.

(** Every index of the range lies, once, in the bucket of its population
    count. *)
Lemma indices_for_grade_bucket (d : nat) (i : Z) :
  0 <= i < 2 ^ Z.of_nat d ->
  exists inds,
    dict_get Nat.eqb (Algebra.indices_for_grade d) (popcount i) = Some inds /\
    count_occ Z.eq_dec inds i = 1%nat.
Proof.
  intros Hi.
  pose proof (indices_for_grade_keys_NoDup d) as NDk.
  pose proof (indices_for_grade_concat d) as P.
  assert (NDc : NoDup (List.concat (map snd (Algebra.indices_for_grade d)))).
  { eapply Permutation_NoDup; [apply Permutation_sym; exact P|]. apply range_NoDup. }
  assert (Hin : In i (List.concat (map snd (Algebra.indices_for_grade d)))).
  { eapply Permutation_in; [apply Permutation_sym; exact P|]. now apply range_In. }
  apply in_concat in Hin. destruct Hin as (inds & Hl & Hx).
  apply in_map_iff in Hl. destruct Hl as ([g inds'] & E & Hb). simpl in E. subst inds'.
  exists inds. split.
  - destruct (indices_for_grade_member d g inds i Hb Hx) as [_ Hg].
    rewrite <- grade_key_popcount, Hg.
    now apply (In_dict_get Nat.eqb Nat.eqb_spec).
  - apply (NoDup_concat_count Z.eq_dec (map snd (Algebra.indices_for_grade d))); auto.
    apply in_map_iff. exists (g, inds). auto.
Qed.

(** C5: the grade buckets partition the index range: the grades are keys
    of one bucket each; every index of [range(2**d)] lies, once, in the
    bucket of its population count (the number of ones of its binary
    form); a bucket holds only indices of the range with that population
    count, so no index lies in a second bucket; and the buckets together
    hold [2**d] indices, none of them twice. *)
Theorem indices_for_grade_partition (d : nat) :
  let buckets := Algebra.indices_for_grade d in
  NoDup (dict_keys buckets) /\
  (forall i, 0 <= i < 2 ^ Z.of_nat d ->
     grade_key i = popcount i /\
     exists inds,
       dict_get Nat.eqb buckets (popcount i) = Some inds /\
       count_occ Z.eq_dec inds i = 1%nat) /\
  (forall g inds i,
     dict_get Nat.eqb buckets g = Some inds -> In i inds ->
     0 <= i < 2 ^ Z.of_nat d /\ popcount i = g) /\
  Z.of_nat (List.length (List.concat (map snd buckets))) = 2 ^ Z.of_nat d /\
  NoDup (List.concat (map snd buckets)).
Proof.
  intros buckets.
  pose proof (indices_for_grade_keys_NoDup d) as NDk.
  pose proof (indices_for_grade_concat d) as P. fold buckets in NDk, P.
  assert (NDc : NoDup (List.concat (map snd buckets))).
  { eapply Permutation_NoDup; [apply Permutation_sym; exact P|]. apply range_NoDup. }
  split; [exact NDk|]. split; [|split; [|split]].
  - intros i Hi. split; [apply grade_key_popcount|].
    now apply indices_for_grade_bucket.
  - intros g inds i Hg Hi.
    apply (dict_get_In Nat.eqb Nat.eqb_spec) in Hg.
    rewrite <- grade_key_popcount.
    now apply (indices_for_grade_member d g inds i).
  - rewrite (Permutation_length P), range_length.
    rewrite Z2Nat.id; [reflexivity|]. apply Z.pow_nonneg. lia.
  - exact NDc.
Qed.

(* ================================================================= *)
(** ** Hexadecimal digits *)

Lemma digit_cases (v : Z) :
  0 <= v < 16 ->
  v = 0 \/ v = 1 \/ v = 2 \/ v = 3 \/ v = 4 \/ v = 5 \/ v = 6 \/ v = 7 \/
  v = 8 \/ v = 9 \/ v = 10 \/ v = 11 \/ v = 12 \/ v = 13 \/ v = 14 \/ v = 15.
Proof. lia. Qed.

Ltac by_digit_cases H :=
  apply digit_cases in H;
  repeat (destruct H as [H|H]; [subst; vm_compute; try reflexivity|]);
  subst; vm_compute; try reflexivity.

Lemma hex_one_char (v : Z) :
  0 <= v < 16 -> str_drop 2 (hex v) = String (hex_char v) EmptyString.
Proof. intros H. by_digit_cases H. Qed.

Lemma int16_hex_char (v : Z) : 0 <= v < 16 -> int16 (hex_char v) = Ok v.
Proof. intros H. by_digit_cases H. Qed.

Lemma hex_char_code (v : Z) :
  0 <= v < 16 ->
  Z.of_N (N_of_ascii (hex_char v)) = if v <? 10 then 48 + v else 87 + v.
Proof. intros H. by_digit_cases H. Qed.

Lemma hex_char_inj (v w : Z) :
  0 <= v < 16 -> 0 <= w < 16 -> hex_char v = hex_char w -> v = w.
Proof.
  intros Hv Hw E.
  pose proof (hex_char_code v Hv) as Cv. pose proof (hex_char_code w Hw) as Cw.
  rewrite E in Cv. rewrite Cv in Cw.
  destruct (v <? 10) eqn:E1, (w <? 10) eqn:E2; lia.
Qed.

Lemma hex_char_gtb (v w : Z) :
  0 <= v < 16 -> 0 <= w < 16 ->
  char_gtb (hex_char v) (hex_char w) = (w <? v).
Proof.
  intros Hv Hw. unfold char_gtb.
  pose proof (hex_char_code v Hv) as Cv. pose proof (hex_char_code w Hw) as Cw.
  destruct (Z.ltb_spec w v) as [L|L].
  - apply N.ltb_lt. destruct (v <? 10) eqn:E1, (w <? 10) eqn:E2; lia.
  - apply N.ltb_ge. destruct (v <? 10) eqn:E1, (w <? 10) eqn:E2; lia.
Qed.

(* ================================================================= *)
(** ** Blade names *)

Lemma land_pow2 (eJ ei : Z) :
  0 <= ei -> Z.land eJ (2 ^ ei) = if Z.testbit eJ ei then 2 ^ ei else 0.
Proof.
  intros H. apply Z.bits_inj'. intros n Hn.
  rewrite Z.land_spec, Z.pow2_bits_eqb by assumption.
  destruct (Z.eqb_spec ei n) as [->|N].
  - destruct (Z.testbit eJ n); simpl.
    + now rewrite Z.pow2_bits_eqb, Z.eqb_refl.
    + now rewrite Z.bits_0.
  - rewrite andb_false_r. destruct (Z.testbit eJ ei).
    + rewrite Z.pow2_bits_eqb by assumption. symmetry. now apply Z.eqb_neq.
    + now rewrite Z.bits_0.
Qed.

Lemma bit_length_land_pow2 (eJ ei : Z) :
  0 <= ei ->
  bit_length (Z.land eJ (2 ^ ei)) = if Z.testbit eJ ei then ei + 1 else 0.
Proof.
  intros H. rewrite land_pow2 by assumption. unfold bit_length.
  destruct (Z.testbit eJ ei); [|reflexivity].
  assert (0 < 2 ^ ei) by (apply Z.pow_pos_nonneg; lia).
  destruct (Z.eqb_spec (2 ^ ei) 0); [lia|].
  rewrite Z.abs_eq by lia. now rewrite Z.log2_pow2.
Qed.

(** The digit strings of a blade are those of its generators. *)
Lemma blade_digits_generators (s : Z) (d : nat) (eJ : Z) :
  blade_digits s d eJ = map (fun ei => str_drop 2 (hex (ei + s))) (generators d eJ).
Proof.
  unfold blade_digits, generators.
  assert (F : Forall (fun ei => 0 <= ei) (range (Z.of_nat d))).
  { apply Forall_forall. intros ei Hi. apply range_In in Hi. lia. }
  induction F as [|ei l Hei F IH]; [reflexivity|].
  cbn [flat_map filter]. rewrite IH, bit_length_land_pow2 by assumption.
  destruct (Z.testbit eJ ei); cbn [app map].
  - destruct (Z.eqb_spec (ei + 1) 0); [lia|].
    replace (ei + 1 + s - 1) with (ei + s) by lia. reflexivity.
  - reflexivity.
Qed.

Lemma generators_In (d : nat) (eJ ei : Z) :
  In ei (generators d eJ) <-> 0 <= ei < Z.of_nat d /\ Z.testbit eJ ei = true.
Proof. unfold generators. now rewrite filter_In, range_In. Qed.

Lemma concat_one_char (cs : list ascii) :
  String.concat "" (map (fun c => String c EmptyString) cs) = string_of_list_ascii cs.
Proof.
  induction cs as [|c cs IH]; [reflexivity|].
  cbn [map String.concat]. destruct cs as [|c' cs]; [reflexivity|].
  cbn [map] in *. rewrite IH. reflexivity.
Qed.

(** With one-character digits a blade name is ['e'] and one character for
    each generator. *)
Lemma blade_name_chars (s : Z) (d : nat) (eJ : Z) :
  0 <= s -> s + Z.of_nat d <= 16 ->
  blade_name s d eJ = String "e" (string_of_list_ascii (digit_chars s d eJ)).
Proof.
  intros Hs Hd. unfold blade_name, digit_chars. f_equal.
  rewrite blade_digits_generators, <- concat_one_char, map_map.
  f_equal. apply map_ext_in. intros ei Hi. apply generators_In in Hi.
  apply hex_one_char. lia.
Qed.

Lemma string_of_list_ascii_inj (l l' : list ascii) :
  string_of_list_ascii l = string_of_list_ascii l' -> l = l'.
Proof.
  intros H. apply (f_equal list_ascii_of_string) in H.
  now rewrite !list_ascii_of_string_of_list_ascii in H.
Qed.

Lemma map_inj_in {X Y : Type} (f : X -> Y) (l l' : list X) :
  (forall x y, In x l -> In y l' -> f x = f y -> x = y) ->
  map f l = map f l' -> l = l'.
Proof.
  revert l'; induction l as [|x l IH]; intros [|y l'] Hinj E; simpl in *;
    try discriminate; auto.
  inversion E. f_equal; auto.
Qed.

(** An index below [2**d] is determined by its generators. *)
Lemma generators_inj (d : nat) (a b : Z) :
  0 <= a < 2 ^ Z.of_nat d -> 0 <= b < 2 ^ Z.of_nat d ->
  generators d a = generators d b -> a = b.
Proof.
  intros Ha Hb E. apply Z.bits_inj'. intros n Hn.
  destruct (Z.lt_ge_cases n (Z.of_nat d)) as [L|G].
  - pose proof (generators_In d a n) as Ia. pose proof (generators_In d b n) as Ib.
    rewrite E in Ia.
    destruct (Z.testbit a n) eqn:Ta, (Z.testbit b n) eqn:Tb; auto.
    + assert (In n (generators d b)) by (apply Ia; auto; lia).
      apply Ib in H. destruct H; congruence.
    + assert (In n (generators d b)) by (apply Ib; auto; lia).
      apply Ia in H. destruct H; congruence.
  - assert (Hhigh : forall x, 0 <= x < 2 ^ Z.of_nat d -> Z.testbit x n = false).
    { intros x Hx. destruct (Z.eq_dec x 0) as [->|N]; [apply Z.bits_0|].
      apply Z.bits_above_log2; [lia|].
      apply Z.log2_lt_pow2; [lia|].
      eapply Z.lt_le_trans; [apply Hx|]. apply Z.pow_le_mono_r; lia. }
    now rewrite (Hhigh a Ha), (Hhigh b Hb).
Qed.

Lemma blade_name_inj (s : Z) (d : nat) (a b : Z) :
  0 <= s -> s + Z.of_nat d <= 16 ->
  0 <= a < 2 ^ Z.of_nat d -> 0 <= b < 2 ^ Z.of_nat d ->
  blade_name s d a = blade_name s d b -> a = b.
Proof.
  intros Hs Hd Ha Hb E.
  rewrite !blade_name_chars in E by assumption.
  inversion E as [E']. apply string_of_list_ascii_inj in E'.
  apply (generators_inj d); auto.
  unfold digit_chars in E'. eapply map_inj_in; [|exact E'].
  intros x y Hx Hy Exy. apply generators_In in Hx, Hy.
  apply hex_char_inj in Exy; lia.
Qed.

(* ================================================================= *)
(** ** [bin2canon] and [canon2bin] *)

Lemma make_bin2canon_items (s : Z) (d : nat) :
  Algebra.make_bin2canon s d
  = map (fun eJ => (eJ, blade_name s d eJ)) (range (2 ^ Z.of_nat d)).
Proof.
  unfold Algebra.make_bin2canon.
  apply (dict_of_items_distinct Z.eqb Z_eqb_spec).
  rewrite map_map. cbn [fst]. rewrite map_id. apply range_NoDup.
Qed.

Lemma bin2canon_In (s : Z) (d : nat) (i : Z) (name : string) :
  In (i, name) (Algebra.make_bin2canon s d)
  <-> 0 <= i < 2 ^ Z.of_nat d /\ name = blade_name s d i.
Proof.
  rewrite make_bin2canon_items, in_map_iff. split.
  - intros (eJ & E & H). inversion E; subst. apply range_In in H. auto.
  - intros [H ->]. exists i. split; auto. now apply range_In.
Qed.

Lemma bin2canon_NoDup (s : Z) (d : nat) :
  NoDup (dict_keys (Algebra.make_bin2canon s d)).
Proof. apply (dict_of_items_NoDup Z.eqb Z_eqb_spec). Qed.

(** Every index of the range has its name in [bin2canon]. *)
Lemma bin2canon_get (s : Z) (d : nat) (i : Z) :
  0 <= i < 2 ^ Z.of_nat d ->
  dict_get Z.eqb (Algebra.make_bin2canon s d) i = Some (blade_name s d i).
Proof.
  intros H. apply (In_dict_get Z.eqb Z_eqb_spec).
  - apply bin2canon_NoDup.
  - apply bin2canon_In. auto.
Qed.

Lemma bin2canon_get_inv (s : Z) (d : nat) (i : Z) (name : string) :
  dict_get Z.eqb (Algebra.make_bin2canon s d) i = Some name ->
  0 <= i < 2 ^ Z.of_nat d /\ name = blade_name s d i.
Proof.
  intros H. apply (dict_get_In Z.eqb Z_eqb_spec) in H. now apply bin2canon_In.
Qed.

(** [canon2bin] is the comprehension [{c: b for b, c in ...}] with its
    items rearranged. *)
Lemma make_canon2bin_perm (b2c : list (Z * string)) :
  Permutation (Algebra.make_canon2bin b2c)
    (dict_of_items String.eqb (map (fun bc => (snd bc, fst bc)) b2c)).
Proof.
  unfold Algebra.make_canon2bin.
  set (inv := dict_of_items String.eqb (map (fun bc => (snd bc, fst bc)) b2c)).
  rewrite (dict_of_items_distinct String.eqb String.eqb_spec).
  - apply sorted_by_perm.
  - eapply Permutation_NoDup.
    + apply Permutation_map. apply Permutation_sym. apply sorted_by_perm.
    + apply (dict_of_items_NoDup String.eqb String.eqb_spec).
Qed.

Lemma canon2bin_NoDup (b2c : list (Z * string)) :
  NoDup (dict_keys (Algebra.make_canon2bin b2c)).
Proof. apply (dict_of_items_NoDup String.eqb String.eqb_spec). Qed.

Lemma canon2bin_In (s : Z) (d : nat) (c : string) (b : Z) :
  In (c, b) (Algebra.make_canon2bin (Algebra.make_bin2canon s d)) ->
  0 <= b < 2 ^ Z.of_nat d /\ blade_name s d b = c.
Proof.
  intros H.
  eapply Permutation_in in H; [|apply make_canon2bin_perm].
  apply (dict_of_items_In String.eqb String.eqb_spec) in H.
  apply in_map_iff in H. destruct H as ([b' c'] & E & H). simpl in E.
  inversion E; subst. apply bin2canon_In in H. destruct H; auto.
Qed.

Lemma canon2bin_keys (s : Z) (d : nat) (c : string) :
  In c (dict_keys (Algebra.make_canon2bin (Algebra.make_bin2canon s d)))
  <-> exists b, 0 <= b < 2 ^ Z.of_nat d /\ blade_name s d b = c.
Proof.
  split.
  - intros H. apply in_map_iff in H. destruct H as ([c' b] & E & H).
    simpl in E; subst c'. exists b. now apply canon2bin_In.
  - intros (b & Hb & <-).
    eapply Permutation_in.
    + apply Permutation_map. apply Permutation_sym. apply make_canon2bin_perm.
    + apply (dict_of_items_keys String.eqb String.eqb_spec).
      rewrite map_map. cbn [fst].
      apply in_map_iff. exists (b, blade_name s d b). split; auto.
      now apply bin2canon_In.
Qed.

Lemma canon2bin_get_inv (s : Z) (d : nat) (c : string) (b : Z) :
  dict_get String.eqb (Algebra.make_canon2bin (Algebra.make_bin2canon s d)) c = Some b ->
  0 <= b < 2 ^ Z.of_nat d /\ blade_name s d b = c.
Proof.
  intros H. apply (dict_get_In String.eqb String.eqb_spec) in H.
  now apply canon2bin_In.
Qed.

(** The name of an index is a key of [canon2bin], and maps to an index
    with the same name. *)
Lemma canon2bin_get_name (s : Z) (d : nat) (i : Z) :
  0 <= i < 2 ^ Z.of_nat d ->
  exists b,
    dict_get String.eqb (Algebra.make_canon2bin (Algebra.make_bin2canon s d))
      (blade_name s d i) = Some b /\
    0 <= b < 2 ^ Z.of_nat d /\ blade_name s d b = blade_name s d i.
Proof.
  intros H.
  destruct (dict_get_Some_key String.eqb String.eqb_spec
              (Algebra.make_canon2bin (Algebra.make_bin2canon s d)) (blade_name s d i))
    as [b Hb].
  - apply canon2bin_keys. eauto.
  - exists b. split; auto. now apply canon2bin_get_inv.
Qed.

(** Different keys of [canon2bin] map to different indices. *)
Lemma canon2bin_get_inj (s : Z) (d : nat) (c c' : string) (b : Z) :
  dict_get String.eqb (Algebra.make_canon2bin (Algebra.make_bin2canon s d)) c = Some b ->
  dict_get String.eqb (Algebra.make_canon2bin (Algebra.make_bin2canon s d)) c' = Some b ->
  c = c'.
Proof.
  intros H H'. apply canon2bin_get_inv in H, H'. destruct H, H'. congruence.
Qed.

(** Where names tell the indices apart, [canon2bin] takes the name of an
    index back to the index. *)
Lemma canon2bin_get_blade_name (s : Z) (d : nat) (i : Z) :
  (forall a b, 0 <= a < 2 ^ Z.of_nat d -> 0 <= b < 2 ^ Z.of_nat d ->
     blade_name s d a = blade_name s d b -> a = b) ->
  0 <= i < 2 ^ Z.of_nat d ->
  dict_get String.eqb (Algebra.make_canon2bin (Algebra.make_bin2canon s d))
    (blade_name s d i) = Some i.
Proof.
  intros Hinj Hi.
  destruct (canon2bin_get_name s d i Hi) as (b & Hb & Hr & E).
  apply Hinj in E; auto. now subst b.
Qed.

(* ================================================================= *)
(** ** Integer arrays *)

Lemma np_index_nonneg (n : nat) (i : Z) :
  0 <= i < Z.of_nat n -> np_index n i = Ok (Z.to_nat i).
Proof.
  intros H. unfold np_index.
  destruct (Z.leb_spec 0 i); [|lia]. destruct (Z.ltb_spec i (Z.of_nat n)); [|lia].
  reflexivity.
Qed.

Lemma np_zeros2_square (n : nat) : square n (np_zeros2 n).
Proof.
  unfold square, np_zeros2. split.
  - apply repeat_length.
  - apply Forall_forall. intros row H. apply repeat_spec in H. subst.
    apply repeat_length.
Qed.

Lemma square_row (n : nat) (a : list (list Z)) (k : nat) :
  square n a -> (k < n)%nat ->
  exists row, nth_error a k = Some row /\ List.length row = n.
Proof.
  intros [Hl F] Hk.
  destruct (nth_error a k) as [row|] eqn:E.
  - exists row. split; auto. rewrite Forall_forall in F. apply F.
    eapply nth_error_In; eauto.
  - apply nth_error_None in E. lia.
Qed.

Lemma list_set_Forall {X : Type} (P : X -> Prop) (l : list X) (i : nat) (v : X) :
  Forall P l -> P v -> Forall P (list_set l i v).
Proof.
  intros F Hv. revert i; induction F as [|a l Ha F IH]; intros [|i]; simpl;
    constructor; auto.
Qed.

(** A store into a square array, at indices inside it, succeeds, keeps the
    shape, is read back, and leaves every other position as it was. *)
Lemma np_set2_spec (n : nat) (a : list (list Z)) (i j v : Z) :
  square n a -> 0 <= i < Z.of_nat n -> 0 <= j < Z.of_nat n ->
  exists a',
    np_set2 a i j v = Ok a' /\ square n a' /\
    np_get2 a' i j = Ok v /\
    (forall i' j', 0 <= i' < Z.of_nat n -> 0 <= j' < Z.of_nat n ->
       (i', j') <> (i, j) -> np_get2 a' i' j' = np_get2 a i' j').
Proof.
  intros Sq Hi Hj.
  destruct (square_row n a (Z.to_nat i) Sq) as (row & Erow & Lrow); [lia|].
  destruct Sq as [La Fa].
  unfold np_set2. rewrite La, np_index_nonneg by assumption. cbn [bind].
  rewrite Erow, Lrow, np_index_nonneg by assumption. cbn [bind].
  eexists. split; [reflexivity|].
  assert (Sq' : square n (list_set a (Z.to_nat i) (list_set row (Z.to_nat j) v))).
  { split.
    - now rewrite list_set_length.
    - apply list_set_Forall; auto. now rewrite list_set_length. }
  split; [exact Sq'|]. split.
  - unfold np_get2, np_get. rewrite list_set_length, La, np_index_nonneg by assumption.
    cbn [bind]. rewrite nth_error_list_set_eq by lia.
    rewrite list_set_length, Lrow, np_index_nonneg by assumption. cbn [bind].
    rewrite nth_error_list_set_eq by lia. reflexivity.
  - intros i' j' Hi' Hj' N.
    unfold np_get2, np_get. rewrite list_set_length, La, np_index_nonneg by assumption.
    cbn [bind].
    destruct (Z.eq_dec i' i) as [->|Ni].
    + rewrite nth_error_list_set_eq by lia. rewrite Erow.
      rewrite list_set_length, Lrow, np_index_nonneg by assumption. cbn [bind].
      rewrite nth_error_list_set_ne; [reflexivity|].
      intros E. apply N. f_equal. lia.
    + rewrite nth_error_list_set_ne by lia. reflexivity.
Qed.

(* ================================================================= *)
(** ** The loop of [_prepare_signs_and_cayley] *)

Lemma cayley_step_ok (sig : list Z) (s : Z) (c2b : list (string * Z))
    (st : Tables) (eI eJ : string) (bI bJ : Z) (sw : nat) (sg : Z) (str : string)
    (sw' sg' : list (list Z)) :
  dict_get String.eqb c2b eI = Some bI ->
  dict_get String.eqb c2b eJ = Some bJ ->
  blade_product sig s eI eJ = Ok (sw, sg, str) ->
  np_set2 (swaps_arr st) bI bJ (Z.of_nat sw) = Ok sw' ->
  np_set2 (signs_arr st) bI bJ sg = Ok sg' ->
  Algebra.cayley_step sig s c2b st (eI, eJ)
  = Ok {| swaps_arr := sw'; signs_arr := sg';
          cayley_dict := dict_set pair_eqb (cayley_dict st) (eI, eJ) str |}.
Proof.
  unfold Algebra.cayley_step, blade_product, dict_getitem.
  intros -> ->.
  destruct (if (List.length _ =? 0)%nat then _ else _) as [prod swaps].
  cbn [bind].
  destruct (for_each _ _ _) as [[sign count]|]; [|discriminate].
  cbn [bind]. intros [= <- <- <-] -> E. cbn [bind]. rewrite E. reflexivity.
Qed.

Section PrepareFacts.
Variable sig : list Z.
Variable s : Z.
Variable c2b : list (string * Z).
Variable n : nat.
Hypothesis c2b_range :
  forall e b, dict_get String.eqb c2b e = Some b -> 0 <= b < Z.of_nat n.
Hypothesis c2b_inj :
  forall e e' b,
    dict_get String.eqb c2b e = Some b -> dict_get String.eqb c2b e' = Some b -> e = e'.

Lemma filled_nil :
  filled sig s c2b n []
    {| swaps_arr := np_zeros2 n; signs_arr := np_zeros2 n; cayley_dict := [] |}.
Proof.
  split; [apply np_zeros2_square|]. split; [apply np_zeros2_square|].
  intros eI eJ bI bJ [].
Qed.

(** One more pair: the step succeeds exactly when [blade_product] does,
    and the tables then hold the new pair as well. *)
Lemma filled_step (done : list (string * string)) (st : Tables) (eI eJ : string) :
  filled sig s c2b n done st ->
  ~ In (eI, eJ) done ->
  In eI (dict_keys c2b) -> In eJ (dict_keys c2b) ->
  match blade_product sig s eI eJ with
  | Ok _ =>
      exists st', Algebra.cayley_step sig s c2b st (eI, eJ) = Ok st' /\
                  filled sig s c2b n (done ++ [(eI, eJ)]) st'
  | Raise e => Algebra.cayley_step sig s c2b st (eI, eJ) = Raise e
  end.
Proof.
  intros (SqW & SqG & F) Nin KI KJ.
  destruct (dict_get_Some_key String.eqb String.eqb_spec c2b eI KI) as [bI HI].
  destruct (dict_get_Some_key String.eqb String.eqb_spec c2b eJ KJ) as [bJ HJ].
  pose proof (c2b_range _ _ HI) as RI. pose proof (c2b_range _ _ HJ) as RJ.
  destruct (blade_product sig s eI eJ) as [[[sw sg] str]|e] eqn:E.
  - destruct (np_set2_spec n (swaps_arr st) bI bJ (Z.of_nat sw) SqW RI RJ)
      as (sw' & Esw & SqW' & Gsw & Osw).
    destruct (np_set2_spec n (signs_arr st) bI bJ sg SqG RI RJ)
      as (sg' & Esg & SqG' & Gsg & Osg).
    eexists. split.
    + eapply cayley_step_ok; eauto.
    + split; [exact SqW'|]. split; [exact SqG'|]. cbn [swaps_arr signs_arr cayley_dict].
      intros eI' eJ' bI' bJ' Hin HI' HJ'.
      apply in_app_iff in Hin. destruct Hin as [Hin|[Hin|[]]].
      * destruct (F _ _ _ _ Hin HI' HJ') as (sw0 & sg0 & str0 & P0 & C0 & G0 & W0).
        exists sw0, sg0, str0. split; [exact P0|].
        assert (Npair : (eI, eJ) <> (eI', eJ')) by congruence.
        assert (Nidx : (bI', bJ') <> (bI, bJ)).
        { intros [= -> ->]. apply Npair. f_equal; eapply c2b_inj; eauto. }
        pose proof (c2b_range _ _ HI'). pose proof (c2b_range _ _ HJ').
        split; [|split].
        -- rewrite (dict_get_set_ne pair_eqb pair_eqb_spec); auto.
        -- rewrite Osg; auto.
        -- rewrite Osw; auto.
      * inversion Hin; subst eI' eJ'.
        rewrite HI in HI'. rewrite HJ in HJ'. inversion HI'; inversion HJ'; subst.
        exists sw, sg, str. split; [exact E|]. split; [|split]; auto.
        apply (dict_get_set_eq pair_eqb pair_eqb_spec).
  - unfold Algebra.cayley_step, blade_product, dict_getitem in *.
    rewrite HI, HJ. cbn [bind].
    destruct (if (List.length _ =? 0)%nat then _ else _) as [prod swaps].
    destruct (np_set2_spec n (swaps_arr st) bI bJ (Z.of_nat swaps) SqW RI RJ)
      as (sw' & -> & _). cbn [bind].
    destruct (for_each _ _ _) as [[sign count]|e']; [discriminate|].
    cbn [bind] in *. congruence.
Qed.

(** The whole loop over pairwise different pairs of keys. *)
Lemma filled_loop (rest done : list (string * string)) (st : Tables) :
  filled sig s c2b n done st ->
  NoDup (done ++ rest) ->
  (forall eI eJ, In (eI, eJ) rest -> In eI (dict_keys c2b) /\ In eJ (dict_keys c2b)) ->
  (forall st', for_each (Algebra.cayley_step sig s c2b) rest st = Ok st' ->
               filled sig s c2b n (done ++ rest) st') /\
  ((forall eI eJ, In (eI, eJ) rest -> exists r, blade_product sig s eI eJ = Ok r) ->
   exists st', for_each (Algebra.cayley_step sig s c2b) rest st = Ok st').
Proof.
  revert done st; induction rest as [|[eI eJ] rest IH]; intros done st F ND K.
  - rewrite app_nil_r. split.
    + intros st' [= <-]. exact F.
    + intros _. exists st. reflexivity.
  - assert (Nin : ~ In (eI, eJ) done).
    { apply NoDup_remove_2 in ND. intros H. apply ND. apply in_app_iff. auto. }
    destruct (K eI eJ (or_introl eq_refl)) as [KI KJ].
    pose proof (filled_step done st eI eJ F Nin KI KJ) as Hstep.
    assert (ND' : NoDup ((done ++ [(eI, eJ)]) ++ rest)).
    { rewrite <- app_assoc. exact ND. }
    assert (K' : forall eI0 eJ0, In (eI0, eJ0) rest ->
                   In eI0 (dict_keys c2b) /\ In eJ0 (dict_keys c2b)).
    { intros. apply K. now right. }
    cbn [for_each].
    destruct (blade_product sig s eI eJ) as [r|e] eqn:E.
    + destruct Hstep as (st1 & -> & F1). cbn [bind].
      destruct (IH _ _ F1 ND' K') as [IH1 IH2].
      rewrite <- app_assoc in IH1. split; [exact IH1|].
      intros Hall. apply IH2. intros. apply Hall. now right.
    + rewrite Hstep. cbn [bind]. split; [discriminate|].
      intros Hall. destruct (Hall eI eJ (or_introl eq_refl)) as [r Hr]. congruence.
Qed.
End PrepareFacts.

Lemma list_prod_NoDup {X Y : Type} (l : list X) (l' : list Y) :
  NoDup l -> NoDup l' -> NoDup (list_prod l l').
Proof.
  intros ND ND'. induction ND as [|x l Hx ND IH]; simpl; [constructor|].
  apply NoDup_app; auto.
  - apply NoDup_map_NoDup_ForallPairs; auto.
    intros a b _ _ E. now inversion E.
  - intros [a b] H1 H2. apply in_map_iff in H1. destruct H1 as (y & E & _).
    inversion E; subst. apply in_prod_iff in H2. tauto.
Qed.

(** What [_prepare_signs_and_cayley] returns for the name tables of
    [__post_init__]: for every two names of [canon2bin] the three tables
    hold the results of [blade_product]; and the call succeeds as soon as
    [blade_product] does on every pair of names. *)
Lemma prepare_spec (d : nat) (sig : list Z) (s : Z) :
  let c2b := Algebra.make_canon2bin (Algebra.make_bin2canon s d) in
  (forall T, Algebra._prepare_signs_and_cayley d sig s c2b = Ok T ->
     forall eI eJ bI bJ,
       dict_get String.eqb c2b eI = Some bI -> dict_get String.eqb c2b eJ = Some bJ ->
       exists sw sg str,
         blade_product sig s eI eJ = Ok (sw, sg, str) /\
         dict_get pair_eqb (cayley_dict T) (eI, eJ) = Some str /\
         np_get2 (signs_arr T) bI bJ = Ok sg /\
         np_get2 (swaps_arr T) bI bJ = Ok (Z.of_nat sw)) /\
  ((forall eI eJ, In eI (dict_keys c2b) -> In eJ (dict_keys c2b) ->
      exists r, blade_product sig s eI eJ = Ok r) ->
   exists T, Algebra._prepare_signs_and_cayley d sig s c2b = Ok T).
Proof.
  intros c2b. unfold Algebra._prepare_signs_and_cayley, Algebra.__len__. cbv zeta.
  set (n := Z.to_nat (2 ^ Z.of_nat d)).
  assert (Hn : Z.of_nat n = 2 ^ Z.of_nat d).
  { unfold n. rewrite Z2Nat.id; [reflexivity|]. apply Z.pow_nonneg. lia. }
  assert (Hrange : forall e b, dict_get String.eqb c2b e = Some b -> 0 <= b < Z.of_nat n).
  { intros e b H. rewrite Hn. now apply canon2bin_get_inv in H. }
  assert (Hinj : forall e e' b, dict_get String.eqb c2b e = Some b ->
                   dict_get String.eqb c2b e' = Some b -> e = e').
  { intros e e' b. apply canon2bin_get_inj. }
  destruct (filled_loop sig s c2b n Hrange Hinj
              (list_prod (dict_keys c2b) (dict_keys c2b)) [] _ (filled_nil sig s c2b n))
    as [L1 L2].
  - simpl. apply list_prod_NoDup; apply canon2bin_NoDup.
  - intros eI eJ H. apply in_prod_iff in H. exact H.
  - split.
    + intros T HT eI eJ bI bJ HI HJ.
      destruct (L1 T HT) as (_ & _ & F). simpl in F. apply F; auto.
      apply in_prod_iff. split.
      * apply (dict_get_In String.eqb String.eqb_spec) in HI.
        apply (in_map fst) in HI. exact HI.
      * apply (dict_get_In String.eqb String.eqb_spec) in HJ.
        apply (in_map fst) in HJ. exact HJ.
    + intros Hall. apply L2. intros eI eJ H. apply in_prod_iff in H.
      apply Hall; tauto.
Qed.

(* ================================================================= *)
(** ** [BladeDict] *)

Lemma for_each_invariant {S X : Type} (body : S -> X -> result S) (I : S -> Prop)
    (xs : list X) (st : S) :
  (forall st x, I st -> In x xs -> exists st', body st x = Ok st' /\ I st') ->
  I st -> exists st', for_each body xs st = Ok st' /\ I st'.
Proof.
  revert st; induction xs as [|x xs IH]; intros st Hbody Hst; simpl.
  - eauto.
  - destruct (Hbody st x Hst (or_introl eq_refl)) as (st1 & -> & H1). cbn [bind].
    apply IH; auto. intros st0 x0 H0 Hin. apply Hbody; auto. now right.
Qed.

Lemma getitem_unfold (a : Algebra.t) (self : BladeDict.t) (name : string) :
  BladeDict.__getitem__ a self name
  = match dict_get String.eqb (BladeDict.blades self) name with
    | Some mv => Ok (mv, self)
    | None =>
        bind (blade_value a name)
          (fun mv =>
             Ok (mv, {| BladeDict.lazy := BladeDict.lazy self;
                        BladeDict.blades :=
                          dict_set String.eqb (BladeDict.blades self) name mv |}))
    end.
Proof.
  unfold BladeDict.__getitem__, blade_value.
  destruct (dict_get String.eqb (BladeDict.blades self) name); [reflexivity|].
  destruct (dict_getitem String.eqb (Algebra.canon2bin a) name); reflexivity.
Qed.

(** A stored name is answered from the store, which is left as it is. *)
Lemma getitem_stored (a : Algebra.t) (self : BladeDict.t) (name : string) (mv : MultiVector) :
  dict_get String.eqb (BladeDict.blades self) name = Some mv ->
  BladeDict.__getitem__ a self name = Ok (mv, self).
Proof. intros H. now rewrite getitem_unfold, H. Qed.

(** Whatever is stored already, a lookup returns [blade_value] and stores
    it. *)
Lemma getitem_spec (a : Algebra.t) (self : BladeDict.t) (name : string) (mv : MultiVector) :
  memoized a self -> blade_value a name = Ok mv ->
  exists self',
    BladeDict.__getitem__ a self name = Ok (mv, self') /\
    memoized a self' /\
    dict_get String.eqb (BladeDict.blades self') name = Some mv.
Proof.
  intros M V. rewrite getitem_unfold.
  destruct (dict_get String.eqb (BladeDict.blades self) name) as [mv'|] eqn:E.
  - pose proof (M _ _ E) as V'. rewrite V in V'. inversion V'; subst mv'.
    exists self. auto.
  - rewrite V. cbn [bind]. eexists. split; [reflexivity|]. cbn [BladeDict.blades].
    split.
    + intros name' mv' H. cbn [BladeDict.blades] in H.
      destruct (String.eqb_spec name name') as [<-|N].
      * rewrite (dict_get_set_eq String.eqb String.eqb_spec) in H. congruence.
      * rewrite (dict_get_set_ne String.eqb String.eqb_spec) in H by exact N. auto.
    + apply (dict_get_set_eq String.eqb String.eqb_spec).
Qed.

(** Every grade of an index of the range has its bucket. *)
Lemma indices_for_grade_get (d : nat) (i : Z) :
  0 <= i < 2 ^ Z.of_nat d ->
  exists inds, dict_get Nat.eqb (Algebra.indices_for_grade d) (popcount i) = Some inds.
Proof.
  intros H. destruct (indices_for_grade_bucket d i H) as (inds & E & _). eauto.
Qed.

(** [blade_value] succeeds on the names of the algebra. *)
Lemma blade_value_ok (a : Algebra.t) (name : string) (bin_blade : Z) :
  named a ->
  dict_get String.eqb (Algebra.canon2bin a) name = Some bin_blade ->
  exists mv,
    blade_value a name = Ok mv /\
    if graded (Algebra.options a) then
      exists indices,
        dict_get Nat.eqb (Algebra.indices_for_grade (Algebra.d a)) (popcount bin_blade)
          = Some indices /\
        mv = multivector_of_grade indices
               (map (fun i => if bin_blade =? i then 1 else 0) indices)
    else mv = fromkeysvalues [bin_blade] [1].
Proof.
  intros [N1 N2] H. unfold blade_value, dict_getitem. rewrite H. cbn [bind].
  destruct (graded (Algebra.options a)).
  - rewrite format_b_popcount.
    rewrite N2, N1 in H. apply canon2bin_get_inv in H. destruct H as [Hr _].
    destruct (indices_for_grade_get (Algebra.d a) bin_blade Hr) as [inds E].
    rewrite E. cbn [bind]. eauto.
  - eauto.
Qed.

Lemma memoized_empty (a : Algebra.t) (lazy : bool) :
  memoized a {| BladeDict.lazy := lazy; BladeDict.blades := [] |}.
Proof. intros name mv H. discriminate. Qed.

(** Both policies build a dictionary, and what it stores is right. *)
Lemma blade_dict_init (a : Algebra.t) (lazy : bool) :
  named a ->
  exists self, BladeDict.__post_init__ a lazy = Ok self /\ memoized a self.
Proof.
  intros N. unfold BladeDict.__post_init__.
  destruct lazy; cbn [negb].
  - eexists. split; [reflexivity|]. apply memoized_empty.
  - apply for_each_invariant; [|apply memoized_empty].
    intros st name M Hin.
    destruct (dict_get_Some_key String.eqb String.eqb_spec _ _ Hin) as [b Hb].
    destruct (blade_value_ok a name b N Hb) as (mv & V & _).
    destruct (getitem_spec a st name mv M V) as (st' & -> & M' & _).
    cbn [bind]. eauto.
Qed.

(* ================================================================= *)
(** ** What a built algebra satisfies *)

Lemma post_init_named (p0 q0 r0 : nat) (sig0 : option (list Z)) (si : option Z)
    (opts : Options) (b : Built) :
  __post_init__ p0 q0 r0 sig0 si opts = Ok b ->
  named (algebra b) /\ memoized (algebra b) (blades b) /\
  exists top,
    dict_get Z.eqb (Algebra.bin2canon (algebra b)) (2 ^ Z.of_nat (Algebra.d (algebra b)) - 1)
      = Some top /\
    blade_value (algebra b) top = Ok (pss b).
Proof.
  intros H. apply post_init_fields in H.
  destruct H as (p & q & r & sig & T & _ & _ & Ealg & blades0 & top & E1 & E2 & E3).
  assert (N : named (algebra b)).
  { rewrite Ealg. split; reflexivity. }
  split; [exact N|].
  destruct (blade_dict_init (algebra b) (negb (p + q + r <=? 6)%nat) N)
    as (self & E1' & M).
  rewrite E1 in E1'. inversion E1'; subst self.
  assert (Etop : dict_get Z.eqb (Algebra.bin2canon (algebra b))
                   (2 ^ Z.of_nat (Algebra.d (algebra b)) - 1) = Some top).
  { rewrite Ealg. cbn [Algebra.bin2canon Algebra.d].
    now apply (dict_getitem_Ok Z.eqb). }
  assert (Hkey : exists bt, dict_get String.eqb (Algebra.canon2bin (algebra b)) top = Some bt).
  { destruct N as [N1 N2]. rewrite N2, N1. rewrite N1 in Etop.
    apply bin2canon_get_inv in Etop. destruct Etop as [Hr ->].
    destruct (canon2bin_get_name (Algebra.start_index (algebra b))
                (Algebra.d (algebra b)) _ Hr) as (bt & Hbt & _). eauto. }
  destruct Hkey as [bt Hbt].
  destruct (blade_value_ok (algebra b) top bt N Hbt) as (mv & V & _).
  destruct (getitem_spec (algebra b) blades0 top mv M V) as (self' & G & M' & _).
  rewrite E3 in G. inversion G; subst.
  split; [exact M'|]. exists top. auto.
Qed.

(** Construction goes through as soon as the signature is accepted and
    the tables are built. *)
Lemma post_init_ok (p0 q0 r0 : nat) (sig0 : option (list Z)) (si : option Z)
    (opts : Options) (p q r : nat) (sig : list Z) (T : Tables) :
  Algebra.resolve_signature p0 q0 r0 sig0 = Ok (p, q, r, sig) ->
  Algebra._prepare_signs_and_cayley (p + q + r) sig (Algebra.resolve_start_index r si)
    (Algebra.make_canon2bin
       (Algebra.make_bin2canon (Algebra.resolve_start_index r si) (p + q + r))) = Ok T ->
  exists b,
    __post_init__ p0 q0 r0 sig0 si opts = Ok b /\
    Algebra.signature (algebra b) = sig /\
    Algebra.start_index (algebra b) = Algebra.resolve_start_index r si /\
    Algebra.d (algebra b) = (p + q + r)%nat /\
    Algebra.cayley (algebra b) = cayley_dict T /\
    Algebra.signs (algebra b) = signs_arr T /\
    Algebra.swaps (algebra b) = swaps_arr T.
Proof.
  intros E1 E2. unfold __post_init__. rewrite E1. cbn [bind]. rewrite E2. cbn [bind].
  set (s := Algebra.resolve_start_index r si). set (d := (p + q + r)%nat).
  set (a := Algebra.Build_t _ _ _ _ _ _ _ _ _ _ _ _).
  assert (N : named a) by (split; reflexivity).
  destruct (blade_dict_init a (negb (d <=? 6)%nat) N) as (blades0 & -> & M).
  cbn [bind].
  assert (Hr : 0 <= 2 ^ Z.of_nat d - 1 < 2 ^ Z.of_nat d).
  { assert (0 < 2 ^ Z.of_nat d) by (apply Z.pow_pos_nonneg; lia). lia. }
  unfold dict_getitem at 1. rewrite (bin2canon_get s d _ Hr). cbn [bind].
  destruct (canon2bin_get_name s d _ Hr) as (bt & Hbt & _).
  destruct (blade_value_ok a _ bt N Hbt) as (mv & V & _).
  destruct (getitem_spec a blades0 _ mv M V) as (self' & -> & _).
  cbn [bind]. eexists. split; [reflexivity|]. cbn. auto 10.
Qed.

(** A name that is not stored yet is built by [blade_value] and stored
    behind the blades that are there. *)
Lemma getitem_fresh (a : Algebra.t) (self : BladeDict.t) (name : string) (mv : MultiVector) :
  dict_get String.eqb (BladeDict.blades self) name = None ->
  blade_value a name = Ok mv ->
  BladeDict.__getitem__ a self name
  = Ok (mv, {| BladeDict.lazy := BladeDict.lazy self;
               BladeDict.blades := BladeDict.blades self ++ [(name, mv)] |}).
Proof.
  intros E V. rewrite getitem_unfold, E, V. cbn [bind].
  rewrite (dict_set_absent String.eqb String.eqb_spec); [reflexivity|].
  now apply (dict_get_None String.eqb String.eqb_spec).
Qed.

(** The loop of [BladeDict.__post_init__]: every name of [keys] that is
    not stored yet is stored, in the order of [keys]. *)
Lemma eager_fill (a : Algebra.t) (keys : list string) (st : BladeDict.t) :
  named a ->
  NoDup (dict_keys (BladeDict.blades st) ++ keys) ->
  (forall n, In n keys -> In n (dict_keys (Algebra.canon2bin a))) ->
  memoized a st ->
  exists st',
    for_each
      (fun self blade => '(_, self') <- BladeDict.__getitem__ a self blade ;; Ok self')
      keys st = Ok st' /\
    dict_keys (BladeDict.blades st') = dict_keys (BladeDict.blades st) ++ keys /\
    memoized a st'.
Proof.
  intros N. revert st. induction keys as [|k keys IH]; intros st ND Hk M.
  - exists st. rewrite app_nil_r. auto.
  - cbn [for_each].
    assert (Hfresh : dict_get String.eqb (BladeDict.blades st) k = None).
    { apply (dict_get_None String.eqb String.eqb_spec). intros Hin.
      apply NoDup_remove_2 in ND. apply ND. apply in_app_iff. now left. }
    destruct (dict_get_Some_key String.eqb String.eqb_spec _ _ (Hk k (or_introl eq_refl)))
      as [bin_blade Hbin].
    destruct (blade_value_ok a k bin_blade N Hbin) as (mv & V & _).
    destruct (getitem_spec a st k mv M V) as (st1 & G & M1 & _).
    rewrite G. cbn [bind].
    rewrite (getitem_fresh a st k mv Hfresh V) in G. injection G as <-.
    destruct (IH {| BladeDict.lazy := BladeDict.lazy st;
                    BladeDict.blades := BladeDict.blades st ++ [(k, mv)] |})
      as (st' & E & K & M').
    + cbn [BladeDict.blades]. unfold dict_keys in *. rewrite map_app. cbn [map fst].
      now rewrite <- app_assoc.
    + intros n Hn. apply Hk. now right.
    + exact M1.
    + exists st'. split; [exact E|]. split; [|exact M'].
      rewrite K. cbn [BladeDict.blades]. unfold dict_keys. rewrite map_app. cbn [map fst].
      now rewrite <- app_assoc.
Qed.

(** A lazy dictionary starts empty; an eager one starts with every name
    of [canon2bin], in the order of [canon2bin]. *)
Lemma blade_dict_init_keys (a : Algebra.t) (lazy : bool) (self : BladeDict.t) :
  named a ->
  BladeDict.__post_init__ a lazy = Ok self ->
  dict_keys (BladeDict.blades self)
  = if lazy then [] else dict_keys (Algebra.canon2bin a).
Proof.
  intros N. unfold BladeDict.__post_init__. destruct lazy; cbn [negb].
  - intros H. injection H as <-. reflexivity.
  - intros H.
    destruct (eager_fill a (dict_keys (Algebra.canon2bin a))
                {| BladeDict.lazy := false; BladeDict.blades := [] |} N)
      as (st' & E & K & _).
    + cbn [BladeDict.blades dict_keys map app]. destruct N as [_ N2]. rewrite N2.
      apply canon2bin_NoDup.
    + auto.
    + apply memoized_empty.
    + rewrite E in H. injection H as <-. exact K.
Qed.



(* ================================================================= *)
(** ** Sorted words and their counters *)

Lemma StronglySorted_snoc {X : Type} (R : X -> X -> Prop) (l : list X) (x : X) :
  StronglySorted R (l ++ [x]) <-> StronglySorted R l /\ Forall (fun a => R a x) l.
Proof.
  induction l as [|a l IH]; simpl.
  - split; [intros _; split; constructor | intros _; repeat constructor].
  - split.
    + intros H. inversion H as [|? ? S F]; subst. apply IH in S. destruct S as [S Fx].
      apply Forall_app in F. destruct F as [F1 F2]. inversion F2; subst.
      split; constructor; auto.
    + intros [H Fx]. inversion H as [|? ? S F]; subst. inversion Fx; subst.
      constructor.
      * apply IH. auto.
      * apply Forall_app. split; auto.
  Qed.

Section StrictlySorted.
Context {X : Type}.
Variable rank : X -> Z.
Hypothesis rank_inj : forall a b, rank a = rank b -> a = b.

(** Two strictly increasing lists with the same elements are equal. *)
Lemma strictly_sorted_ext (l l' : list X) :
  StronglySorted (fun a b => rank a < rank b) l ->
  StronglySorted (fun a b => rank a < rank b) l' ->
  (forall x, In x l <-> In x l') -> l = l'.
Proof.
  intros S; revert l'; induction S as [|a l S IH F]; intros l' S' E.
  - destruct l' as [|a' l']; auto. destruct (proj2 (E a') (or_introl eq_refl)).
  - destruct l' as [|a' l']; [destruct (proj1 (E a) (or_introl eq_refl))|].
    inversion S' as [|? ? S2 F']; subst.
    rewrite Forall_forall in F, F'.
    assert (a = a').
    { destruct (proj1 (E a) (or_introl eq_refl)) as [->|H]; auto.
      destruct (proj2 (E a') (or_introl eq_refl)) as [->|H']; auto.
      specialize (F _ H'). specialize (F' _ H). lia. }
    subst a'. f_equal. apply IH; auto.
    intros x. split; intros H.
    + destruct (proj1 (E x) (or_intror H)) as [->|]; auto.
      specialize (F _ H). lia.
    + destruct (proj2 (E x) (or_intror H)) as [->|]; auto.
      specialize (F' _ H). lia.
Qed.

Lemma strictly_sorted_NoDup (l : list X) :
  StronglySorted (fun a b => rank a < rank b) l -> NoDup l.
Proof.
  induction 1 as [|a l S IH F]; constructor; auto.
  intros H. rewrite Forall_forall in F. specialize (F _ H). lia.
Qed.
End StrictlySorted.

Section CounterFacts.
Context {K : Type}.
Variable eqb : K -> K -> bool.
Hypothesis eqb_spec : forall a b, reflect (a = b) (eqb a b).
Variable eq_dec : forall a b : K, {a = b} + {a <> b}.

Lemma Counter_snoc (l : list K) (x : K) :
  Counter eqb (l ++ [x])
  = dict_set eqb (Counter eqb l) x (S (counter_get eqb (Counter eqb l) x)).
Proof. unfold Counter. now rewrite fold_left_snoc. Qed.

Lemma Counter_NoDup (l : list K) : NoDup (dict_keys (Counter eqb l)).
Proof.
  induction l as [|x l IH] using rev_ind; [constructor|].
  rewrite Counter_snoc. now apply (dict_set_NoDup eqb eqb_spec).
Qed.

Lemma Counter_keys_In (l : list K) (k : K) :
  In k (dict_keys (Counter eqb l)) <-> In k l.
Proof.
  induction l as [|x l IH] using rev_ind; [simpl; tauto|].
  rewrite Counter_snoc, (dict_keys_set eqb eqb_spec), in_app_iff, IH. simpl.
  intuition.
Qed.

(** The keys are the elements in order of first occurrence. *)
Lemma Counter_keys_snoc (l : list K) (x : K) :
  dict_keys (Counter eqb (l ++ [x]))
  = if in_dec eq_dec x l then dict_keys (Counter eqb l)
    else dict_keys (Counter eqb l) ++ [x].
Proof.
  rewrite Counter_snoc. destruct (in_dec eq_dec x l) as [H|H].
  - apply (dict_keys_set_present eqb eqb_spec). now apply Counter_keys_In.
  - rewrite (dict_set_absent eqb eqb_spec).
    + unfold dict_keys. now rewrite map_app.
    + now rewrite Counter_keys_In.
Qed.

(** A counter is its keys, each with its number of occurrences. *)
Lemma Counter_items (l : list K) :
  Counter eqb l = map (fun k => (k, count_occ eq_dec l k)) (dict_keys (Counter eqb l)).
Proof.
  pose proof (Counter_NoDup l) as ND.
  assert (G : forall k v, In (k, v) (Counter eqb l) -> v = count_occ eq_dec l k).
  { intros k v H. apply (In_dict_get eqb eqb_spec) in H; auto.
    rewrite (Counter_get eqb eqb_spec eq_dec) in H.
    destruct (count_occ eq_dec l k =? 0)%nat; congruence. }
  clear ND. induction (Counter eqb l) as [|[k v] c IH]; [reflexivity|].
  simpl. rewrite <- IH by (intros; apply G; now right).
  now rewrite <- (G k v (or_introl eq_refl)).
Qed.
End CounterFacts.

Lemma ascii_eq_dec (a b : ascii) : {a = b} + {a <> b}.
Proof. destruct (Ascii.eqb_spec a b); auto. Qed.

Lemma char_rank_inj (a b : ascii) : char_rank a = char_rank b -> a = b.
Proof.
  unfold char_rank. intros H. apply N2Z.inj in H.
  rewrite <- (ascii_N_embedding a), <- (ascii_N_embedding b). now rewrite H.
Qed.

Lemma char_gtb_rank (a b : ascii) : char_gtb a b = (char_rank b <? char_rank a).
Proof.
  unfold char_gtb, char_rank.
  destruct (N.ltb_spec (N_of_ascii b) (N_of_ascii a)), (Z.ltb_spec (Z.of_N (N_of_ascii b)) (Z.of_N (N_of_ascii a))); auto; lia.
Qed.

(** The counter of a sorted word has its keys in strictly increasing
    order. *)
Lemma Counter_keys_sorted (l : list ascii) :
  sorted_list char_gtb l ->
  StronglySorted (fun a b => char_rank a < char_rank b) (dict_keys (Counter Ascii.eqb l)).
Proof.
  unfold sorted_list.
  induction l as [|x l IH] using rev_ind; intros S; [constructor|].
  apply StronglySorted_snoc in S. destruct S as [S F].
  rewrite (Counter_keys_snoc Ascii.eqb Ascii.eqb_spec ascii_eq_dec).
  destruct (in_dec ascii_eq_dec x l) as [Hin|Hin]; [auto|].
  apply StronglySorted_snoc. split; [auto|].
  apply Forall_forall. intros a Ha.
  apply (proj1 (Counter_keys_In Ascii.eqb Ascii.eqb_spec l a)) in Ha.
  rewrite Forall_forall in F. specialize (F a Ha). simpl in F.
  rewrite char_gtb_rank in F. apply Z.ltb_ge in F.
  assert (char_rank a <> char_rank x).
  { intros E. apply char_rank_inj in E. subst. contradiction. }
  lia.
Qed.

(* ================================================================= *)
(** ** The word of a product of two blades *)

Lemma StronglySorted_filter {X : Type} (R : X -> X -> Prop) (f : X -> bool) (l : list X) :
  StronglySorted R l -> StronglySorted R (filter f l).
Proof.
  induction 1 as [|a l S IH F]; simpl; [constructor|].
  destruct (f a); auto. constructor; auto.
  apply Forall_forall. intros x Hx. apply filter_In in Hx.
  rewrite Forall_forall in F. apply F. tauto.
Qed.

Lemma StronglySorted_map_in {X Y : Type} (R : X -> X -> Prop) (R' : Y -> Y -> Prop)
    (f : X -> Y) (l : list X) :
  (forall x y, In x l -> In y l -> R x y -> R' (f x) (f y)) ->
  StronglySorted R l -> StronglySorted R' (map f l).
Proof.
  intros H S. induction S as [|a l S IH F]; simpl; [constructor|].
  constructor.
  - apply IH. intros x y Hx Hy. apply H; now right.
  - apply Forall_forall. intros y Hy. apply in_map_iff in Hy.
    destruct Hy as (x & <- & Hx). rewrite Forall_forall in F.
    apply H; [now left | now right | auto].
Qed.

Lemma range_sorted (n : Z) : StronglySorted Z.lt (range n).
Proof.
  unfold range. generalize (Z.to_nat n) as k. intros k.
  generalize O as a. induction k as [|k IH]; intros a; simpl; constructor.
  - apply IH.
  - apply Forall_forall. intros x Hx. apply in_map_iff in Hx.
    destruct Hx as (y & <- & Hy). apply in_seq in Hy. lia.
Qed.

Lemma generators_sorted (d : nat) (b : Z) : StronglySorted Z.lt (generators d b).
Proof. apply StronglySorted_filter, range_sorted. Qed.

Lemma generators_lor (d : nat) (a b : Z) :
  generators d (Z.lor a b)
  = filter (fun ei => Z.testbit a ei || Z.testbit b ei) (range (Z.of_nat d)).
Proof. apply filter_ext. intros ei. apply Z.lor_spec. Qed.

Lemma generators_land (d : nat) (a b : Z) :
  generators d (Z.land a b)
  = filter (fun ei => Z.testbit a ei && Z.testbit b ei) (range (Z.of_nat d)).
Proof. apply filter_ext. intros ei. apply Z.land_spec. Qed.

Lemma generators_lxor (d : nat) (a b : Z) :
  generators d (Z.lxor a b)
  = filter (fun ei => xorb (Z.testbit a ei) (Z.testbit b ei)) (range (Z.of_nat d)).
Proof. apply filter_ext. intros ei. apply Z.lxor_spec. Qed.

Lemma list_ascii_of_string_app (a b : string) :
  list_ascii_of_string (a ++ b) = list_ascii_of_string a ++ list_ascii_of_string b.
Proof. induction a as [|c a IH]; simpl; [reflexivity | now rewrite IH]. Qed.

Section ValidDigits.
Variable s : Z.
Variable d : nat.
Hypothesis Hs : 0 <= s.
Hypothesis Hd : s + Z.of_nat d <= 16.

Lemma digit_rank (ei : Z) :
  0 <= ei < Z.of_nat d ->
  char_rank (digit s ei) = if ei + s <? 10 then 48 + (ei + s) else 87 + (ei + s).
Proof. intros H. apply hex_char_code. lia. Qed.

Lemma digit_mono (ei ej : Z) :
  0 <= ei < Z.of_nat d -> 0 <= ej < Z.of_nat d -> ei < ej ->
  char_rank (digit s ei) < char_rank (digit s ej).
Proof.
  intros Hi Hj L. rewrite !digit_rank by assumption.
  destruct (ei + s <? 10) eqn:E1, (ej + s <? 10) eqn:E2; lia.
Qed.

Lemma digit_inj (ei ej : Z) :
  0 <= ei < Z.of_nat d -> 0 <= ej < Z.of_nat d ->
  digit s ei = digit s ej -> ei = ej.
Proof.
  intros Hi Hj E. apply hex_char_inj in E; lia.
Qed.

Lemma digit_chars_map (b : Z) : digit_chars s d b = map (digit s) (generators d b).
Proof. reflexivity. Qed.

Lemma digits_sorted (gens : list Z) :
  Forall (fun ei => 0 <= ei < Z.of_nat d) gens ->
  StronglySorted Z.lt gens ->
  StronglySorted (fun a b => char_rank a < char_rank b) (map (digit s) gens).
Proof.
  intros F. apply StronglySorted_map_in.
  rewrite Forall_forall in F. intros x y Hx Hy. apply digit_mono; auto.
Qed.

Lemma generators_range (b : Z) :
  Forall (fun ei => 0 <= ei < Z.of_nat d) (generators d b).
Proof. apply Forall_forall. intros ei H. apply generators_In in H. tauto. Qed.

Lemma digit_chars_sorted (b : Z) :
  StronglySorted (fun a b => char_rank a < char_rank b) (digit_chars s d b).
Proof. apply digits_sorted; [apply generators_range | apply generators_sorted]. Qed.

Lemma digit_chars_In (b ei : Z) :
  0 <= ei < Z.of_nat d ->
  In (digit s ei) (digit_chars s d b) <-> Z.testbit b ei = true.
Proof.
  intros Hi. rewrite digit_chars_map, in_map_iff. split.
  - intros (ej & E & Hj). apply generators_In in Hj. destruct Hj as [Hj T].
    apply digit_inj in E; auto. now subst.
  - intros T. exists ei. split; auto. apply generators_In. auto.
Qed.

Lemma digit_chars_count (b ei : Z) :
  0 <= ei < Z.of_nat d ->
  count_occ ascii_eq_dec (digit_chars s d b) (digit s ei)
  = if Z.testbit b ei then 1%nat else 0%nat.
Proof.
  intros Hi. pose proof (digit_chars_In b ei Hi) as I.
  destruct (Z.testbit b ei).
  - apply NoDup_count_occ'.
    + apply (strictly_sorted_NoDup char_rank), digit_chars_sorted.
    + now apply I.
  - apply count_occ_not_In. intros H. apply I in H. discriminate.
Qed.
(** The word sorted by [_sort_product] is the digits of [bI] followed
    by the digits of [bJ]. *)
Lemma product_word (bI bJ : Z) :
  list_ascii_of_string (str_drop 1 (blade_name s d bI) ++ str_drop 1 (blade_name s d bJ))
  = digit_chars s d bI ++ digit_chars s d bJ.
Proof.
  rewrite !blade_name_chars by assumption. cbn [str_drop].
  rewrite list_ascii_of_string_app.
  now rewrite !list_ascii_of_string_of_list_ascii.
Qed.

(** The counter of the sorted word: the generators of either blade,
    lowest first, each with its number of occurrences. *)
Lemma product_counter (bI bJ : Z) :
  Counter Ascii.eqb
    (fst (_sort_product char_gtb (digit_chars s d bI ++ digit_chars s d bJ)))
  = map (fun ei => (digit s ei, occurrences bI bJ ei)) (generators d (Z.lor bI bJ)).
Proof.
  set (w := digit_chars s d bI ++ digit_chars s d bJ).
  destruct (sort_product_spec char_gtb char_gtb_asym char_leb_trans w) as (_ & P & S).
  set (sw := fst (_sort_product char_gtb w)) in *.
  rewrite (Counter_items Ascii.eqb Ascii.eqb_spec ascii_eq_dec).
  assert (K : dict_keys (Counter Ascii.eqb sw) = map (digit s) (generators d (Z.lor bI bJ))).
  { apply (strictly_sorted_ext char_rank char_rank_inj).
    - now apply Counter_keys_sorted.
    - apply digits_sorted; [apply generators_range | apply generators_sorted].
    - intros c. rewrite (Counter_keys_In Ascii.eqb Ascii.eqb_spec).
      split.
      + intros H. apply (Permutation_in _ (Permutation_sym P)) in H.
        unfold w in H. apply in_app_iff in H.
        apply in_map_iff.
        destruct H as [H|H]; rewrite digit_chars_map in H; apply in_map_iff in H;
          destruct H as (ei & <- & Hei); exists ei; split; auto;
          apply generators_In in Hei; apply generators_In;
          rewrite Z.lor_spec; destruct Hei as [? ->]; auto using orb_true_r.
      + intros H. apply in_map_iff in H. destruct H as (ei & <- & Hei).
        apply generators_In in Hei. destruct Hei as [Hr T].
        rewrite Z.lor_spec in T. apply (Permutation_in _ P).
        unfold w. apply in_app_iff. apply orb_true_iff in T.
        destruct T as [T|T]; [left | right]; now apply digit_chars_In. }
  rewrite K, map_map. apply map_ext_in. intros ei Hei.
  apply generators_In in Hei. destruct Hei as [Hr _].
  f_equal. rewrite <- (proj1 (Permutation_count_occ ascii_eq_dec w sw) P).
  unfold w. rewrite count_occ_app, !digit_chars_count by assumption.
  reflexivity.
Qed.

Variable sig : list Z.
Hypothesis Hsig : List.length sig = d.

Lemma dict_set_middle (pre rest : list (ascii * nat)) (k : ascii) (v v' : nat) :
  ~ In k (dict_keys pre) ->
  dict_set Ascii.eqb (pre ++ (k, v) :: rest) k v' = pre ++ (k, v') :: rest.
Proof.
  induction pre as [|[k0 v0] pre IH]; simpl; intros N.
  - now rewrite Ascii.eqb_refl.
  - destruct (Ascii.eqb_spec k0 k) as [->|N0]; [tauto|].
    rewrite IH; tauto.
Qed.

Lemma signature_entry (ei : Z) :
  0 <= ei < Z.of_nat d ->
  bind (int16 (digit s ei)) (fun k => np_get sig (k - s))
  = Ok (nth (Z.to_nat ei) sig 0).
Proof.
  intros Hi. unfold digit. rewrite int16_hex_char by lia. cbn [bind].
  unfold np_get. replace (ei + s - s) with ei by lia.
  rewrite Hsig, np_index_nonneg by assumption. cbn [bind].
  destruct (nth_error sig (Z.to_nat ei)) as [v|] eqn:E.
  - now rewrite (nth_error_nth _ _ _ E).
  - apply nth_error_None in E. lia.
Qed.

(** The loop over the items of the counter. *)
Lemma collapse_loop (cnt : Z -> nat) (gens : list Z) (pre : list (ascii * nat)) (sign : Z) :
  Forall (fun ei => 0 <= ei < Z.of_nat d) gens ->
  NoDup (dict_keys (pre ++ map (fun ei => (digit s ei, cnt ei)) gens)) ->
  for_each (Algebra.collapse_step sig s)
    (map (fun ei => (digit s ei, cnt ei)) gens)
    (sign, pre ++ map (fun ei => (digit s ei, cnt ei)) gens)
  = Ok (fold_left
          (fun acc ei =>
             if (cnt ei / 2 =? 0)%nat then acc else acc * nth (Z.to_nat ei) sig 0)
          gens sign,
        pre ++ map (fun ei => (digit s ei, (cnt ei mod 2)%nat)) gens).
Proof.
  intros F. revert pre sign.
  induction F as [|ei gens Hei F IH]; intros pre sign ND; [reflexivity|].
  cbn [map for_each fold_left]. unfold Algebra.collapse_step at 1.
  assert (Nk : ~ In (digit s ei) (dict_keys pre)).
  { unfold dict_keys in ND. rewrite map_app in ND. cbn [map fst] in ND.
    apply NoDup_remove_2 in ND. intros H. apply ND. apply in_app_iff. auto. }
  rewrite dict_set_middle by exact Nk.
  assert (Estep :
    (if (cnt ei / 2 =? 0)%nat then Ok sign
     else bind (int16 (digit s ei))
            (fun k => bind (np_get sig (k - s)) (fun v => Ok (sign * v))))
    = Ok (if (cnt ei / 2 =? 0)%nat then sign else sign * nth (Z.to_nat ei) sig 0)).
  { destruct (cnt ei / 2 =? 0)%nat; [reflexivity|].
    pose proof (signature_entry ei Hei) as E.
    destruct (int16 (digit s ei)) as [k|]; [|discriminate]. cbn [bind] in *.
    now rewrite E. }
  rewrite Estep. cbn [bind].
  replace (pre ++ (digit s ei, (cnt ei mod 2)%nat)
               :: map (fun ei0 => (digit s ei0, cnt ei0)) gens)
    with ((pre ++ [(digit s ei, (cnt ei mod 2)%nat)])
            ++ map (fun ei0 => (digit s ei0, cnt ei0)) gens)
    by now rewrite <- app_assoc.
  rewrite IH.
  - rewrite <- app_assoc. reflexivity.
  - unfold dict_keys in *. rewrite <- app_assoc. cbn [app].
    rewrite map_app in *. cbn [map fst] in *. exact ND.
Qed.
End ValidDigits.

Lemma fold_left_filter_cond {X S : Type} (g : S -> X -> S) (p c q : X -> bool)
    (l : list X) (a : S) :
  (forall x, q x = p x && negb (c x)) ->
  fold_left (fun acc x => if c x then acc else g acc x) (filter p l) a
  = fold_left g (filter q l) a.
Proof.
  intros H. revert a; induction l as [|x l IH]; intros a; [reflexivity|].
  cbn [filter]. rewrite H.
  destruct (p x) eqn:Ep, (c x) eqn:Ec; cbn [andb negb fold_left]; rewrite ?Ec; apply IH.
Qed.

Lemma string_append_nil_r (x : string) : (x ++ "")%string = x.
Proof. induction x as [|c x IH]; simpl; [reflexivity | now rewrite IH]. Qed.

Lemma concat_empty_cons (x : string) (xs : list string) :
  String.concat "" (x :: xs) = (x ++ String.concat "" xs)%string.
Proof.
  destruct xs as [|y xs]; simpl.
  - now rewrite string_append_nil_r.
  - reflexivity.
Qed.

(** The digits that survive are those of the generators in exactly one
    of the two blades. *)
Lemma surviving_digits (s : Z) (bI bJ : Z) (l : list Z) :
  String.concat ""
    (map (fun kv : ascii * nat => str_repeat (fst kv) (snd kv))
       (map (fun ei => (digit s ei, (occurrences bI bJ ei mod 2)%nat))
          (filter (fun ei => Z.testbit bI ei || Z.testbit bJ ei) l)))
  = string_of_list_ascii
      (map (digit s) (filter (fun ei => xorb (Z.testbit bI ei) (Z.testbit bJ ei)) l)).
Proof.
  induction l as [|ei l IH]; [reflexivity|].
  cbn [filter].
  destruct (Z.testbit bI ei) eqn:TI, (Z.testbit bJ ei) eqn:TJ; cbn [orb xorb map fst snd];
    rewrite ?concat_empty_cons, ?IH; auto;
    unfold occurrences at 1; rewrite TI, TJ; reflexivity.
Qed.

Lemma sort_product_guard (w : list ascii) :
  (if (List.length w =? 0)%nat then (w, O) else _sort_product char_gtb w)
  = _sort_product char_gtb w.
Proof. destruct w; reflexivity. Qed.

(** The product of two blades of an algebra with one-character digits:
    the swaps are the inversions of the word, the sign is their parity
    times the signature entries of the shared generators, and the blade,
    unless the sign is zero, is the one of the generators in exactly one
    of the two. *)
Lemma blade_product_valid (s : Z) (d : nat) (sig : list Z) (bI bJ : Z) :
  0 <= s -> s + Z.of_nat d <= 16 -> List.length sig = d ->
  blade_product sig s (blade_name s d bI) (blade_name s d bJ)
  = let sw := inversions char_gtb (digit_chars s d bI ++ digit_chars s d bJ) in
    let sg := collapsed_sign sig d bI bJ (if (sw mod 2 =? 0)%nat then 1 else -1) in
    Ok (sw, sg,
        if (sg =? 0)%Z then "0"%string
        else ((if (sg =? -1)%Z then "-" else "") ++ blade_name s d (Z.lxor bI bJ))%string).
Proof.
  intros Hs Hd Hsig. unfold blade_product.
  rewrite (product_word s d Hs Hd), sort_product_guard.
  set (w := digit_chars s d bI ++ digit_chars s d bJ).
  destruct (sort_product_spec char_gtb char_gtb_asym char_leb_trans w) as (Hinv & _ & _).
  pose proof (product_counter s d Hs Hd bI bJ) as HC. fold w in HC.
  destruct (_sort_product char_gtb w) as [sorted sw]. cbn [fst snd] in *. subst sw.
  rewrite HC.
  pose proof (collapse_loop s d Hs Hd sig Hsig (occurrences bI bJ)
                (generators d (Z.lor bI bJ)) []
                (if (inversions char_gtb w mod 2 =? 0)%nat then 1 else -1)
                (generators_range d _)) as HL.
  cbn [app] in HL. rewrite HL.
  2: { rewrite <- HC. apply (Counter_NoDup Ascii.eqb Ascii.eqb_spec). }
  cbn [bind]. cbv zeta.
  assert (Hsign :
    fold_left
      (fun acc ei =>
         if (occurrences bI bJ ei / 2 =? 0)%nat then acc
         else acc * nth (Z.to_nat ei) sig 0)
      (generators d (Z.lor bI bJ))
      (if (inversions char_gtb w mod 2 =? 0)%nat then 1 else -1)
    = collapsed_sign sig d bI bJ
        (if (inversions char_gtb w mod 2 =? 0)%nat then 1 else -1)).
  { unfold collapsed_sign. rewrite generators_lor, generators_land.
    apply (fold_left_filter_cond (fun acc ei => acc * nth (Z.to_nat ei) sig 0)).
    intros ei. unfold occurrences.
    destruct (Z.testbit bI ei), (Z.testbit bJ ei); reflexivity. }
  rewrite Hsign. do 2 f_equal.
  unfold Algebra.cayley_string.
  destruct (_ =? 0); [reflexivity|].
  cbv zeta. rewrite generators_lor, surviving_digits, <- generators_lxor.
  rewrite (blade_name_chars s d _ Hs Hd). reflexivity.
Qed.

(* ================================================================= *)
(** ** The tables of a built algebra *)

Lemma resolve_signature_shape (p0 q0 r0 : nat) (sig0 : option (list Z))
    (p q r : nat) (sig : list Z) :
  Algebra.resolve_signature p0 q0 r0 sig0 = Ok (p, q, r, sig) ->
  List.length sig = (p + q + r)%nat /\
  Forall (fun x => x = 1 \/ x = -1 \/ x = 0) sig.
Proof.
  destruct sig0 as [sig'|].
  - rewrite resolve_signature_explicit.
    destruct (Nat.eqb_spec
                (count_occ Z.eq_dec sig' 1%Z + count_occ Z.eq_dec sig' (-1)%Z
                 + count_occ Z.eq_dec sig' 0%Z) (List.length sig')) as [E|N];
      [|discriminate].
    intros [= <- <- <- <-]. split; [now rewrite E|]. now apply tally_eq_length_iff.
  - unfold Algebra.resolve_signature.
    destruct (r0 =? 1)%nat; intros [= <- <- <- <-]; split;
      rewrite ?length_app, ?repeat_length; try lia;
      rewrite ?Forall_app; repeat split; apply Forall_forall; intros x Hx;
      apply repeat_spec in Hx; lia.
Qed.

(** The tables of a built algebra hold, for every two names of
    [canon2bin], what [blade_product] computes for them. *)
Lemma built_entry (p0 q0 r0 : nat) (sig0 : option (list Z)) (si : option Z)
    (opts : Options) (b : Built) (eI eJ : string) (bI bJ : Z) :
  __post_init__ p0 q0 r0 sig0 si opts = Ok b ->
  dict_get String.eqb (Algebra.canon2bin (algebra b)) eI = Some bI ->
  dict_get String.eqb (Algebra.canon2bin (algebra b)) eJ = Some bJ ->
  exists sw sg str,
    blade_product (Algebra.signature (algebra b)) (Algebra.start_index (algebra b)) eI eJ
      = Ok (sw, sg, str) /\
    dict_get pair_eqb (Algebra.cayley (algebra b)) (eI, eJ) = Some str /\
    np_get2 (Algebra.signs (algebra b)) bI bJ = Ok sg /\
    np_get2 (Algebra.swaps (algebra b)) bI bJ = Ok (Z.of_nat sw).
Proof.
  intros Hb. apply post_init_fields in Hb.
  destruct Hb as (p & q & r & sig & T & _ & HT & Ealg & _).
  rewrite Ealg. cbn [Algebra.canon2bin Algebra.signature Algebra.start_index
                     Algebra.cayley Algebra.signs Algebra.swaps].
  destruct (prepare_spec (p + q + r) sig (Algebra.resolve_start_index r si)) as [P _].
  apply (P T HT).
Qed.

(** The shape of a built algebra: its signature has one entry of 1, -1 or
    0 for each of its [d] generators, and its name tables are those of
    its start index and dimension. *)
Lemma built_shape (p0 q0 r0 : nat) (sig0 : option (list Z)) (si : option Z)
    (opts : Options) (b : Built) :
  __post_init__ p0 q0 r0 sig0 si opts = Ok b ->
  List.length (Algebra.signature (algebra b)) = Algebra.d (algebra b) /\
  Forall (fun x => x = 1 \/ x = -1 \/ x = 0) (Algebra.signature (algebra b)) /\
  named (algebra b).
Proof.
  intros Hb. pose proof (post_init_named _ _ _ _ _ _ _ Hb) as (N & _).
  apply post_init_fields in Hb.
  destruct Hb as (p & q & r & sig & T & E & _ & Ealg & _).
  apply resolve_signature_shape in E. destruct E as [L F].
  rewrite Ealg in *. cbn [Algebra.signature Algebra.d]. auto.
Qed.

(* ================================================================= *)
(** ** When the tables can be built *)

Lemma collapse_loop_ok (sig : list Z) (s : Z) (items : list (ascii * nat))
    (st : Z * list (ascii * nat)) :
  Forall (fun kv => indexable sig s (fst kv) = true) items ->
  exists st', for_each (Algebra.collapse_step sig s) items st = Ok st'.
Proof.
  intros F. revert st; induction F as [|[k v] items Hk F IH]; intros [sign count].
  - simpl. eauto.
  - cbn [for_each]. unfold Algebra.collapse_step at 1. cbn [fst] in Hk.
    unfold indexable in Hk.
    destruct (v / 2 =? 0)%nat.
    + cbn [bind]. apply IH.
    + destruct (int16 k) as [n|]; [|discriminate]. cbn [bind].
      destruct (np_get sig (n - s)) as [x|]; [|discriminate]. cbn [bind].
      apply IH.
Qed.

(** [blade_product] succeeds on names all of whose digits are
    indexable. *)
Lemma blade_product_ok (sig : list Z) (s : Z) (eI eJ : string) :
  Forall (fun c => indexable sig s c = true) (list_ascii_of_string (str_drop 1 eI)) ->
  Forall (fun c => indexable sig s c = true) (list_ascii_of_string (str_drop 1 eJ)) ->
  exists r, blade_product sig s eI eJ = Ok r.
Proof.
  intros FI FJ. unfold blade_product.
  rewrite list_ascii_of_string_app, sort_product_guard.
  set (w := list_ascii_of_string (str_drop 1 eI) ++ list_ascii_of_string (str_drop 1 eJ)).
  assert (Fw : Forall (fun c => indexable sig s c = true) w)
    by (apply Forall_app; auto).
  destruct (sort_product_spec char_gtb char_gtb_asym char_leb_trans w) as (_ & P & _).
  destruct (_sort_product char_gtb w) as [sorted sw]. cbn [fst] in P.
  destruct (collapse_loop_ok sig s (Counter Ascii.eqb sorted)
              (if (sw mod 2 =? 0)%nat then 1 else -1, Counter Ascii.eqb sorted))
    as [[sign count] E].
  - apply Forall_forall. intros [k v] H. cbn [fst].
    apply (in_map fst) in H. cbn [fst] in H.
    apply (proj1 (Counter_keys_In Ascii.eqb Ascii.eqb_spec sorted k)) in H.
    rewrite Forall_forall in Fw. apply Fw.
    eapply Permutation_in; [apply Permutation_sym; exact P | exact H].
  - rewrite E. cbn [bind]. eauto.
Qed.

Lemma concat_chars (P : ascii -> Prop) (ls : list string) :
  Forall (fun l => Forall P (list_ascii_of_string l)) ls ->
  Forall P (list_ascii_of_string (String.concat "" ls)).
Proof.
  induction 1 as [|l ls Hl F IH]; [constructor|].
  rewrite concat_empty_cons, list_ascii_of_string_app. apply Forall_app. auto.
Qed.

(** The characters after the ['e'] of a blade name are those of the digit
    strings of the generators. *)
Lemma blade_name_digits (P : ascii -> Prop) (s : Z) (d : nat) (b : Z) :
  (forall ei, 0 <= ei < Z.of_nat d ->
     Forall P (list_ascii_of_string (str_drop 2 (hex (ei + s))))) ->
  Forall P (list_ascii_of_string (str_drop 1 (blade_name s d b))).
Proof.
  intros H. unfold blade_name. cbn [str_drop].
  rewrite blade_digits_generators. apply concat_chars.
  apply Forall_forall. intros l Hl. apply in_map_iff in Hl.
  destruct Hl as (ei & <- & Hei). apply generators_In in Hei. apply H. tauto.
Qed.

(** Construction succeeds as soon as the signature is accepted and every
    digit string of a generator is made of indexable characters. *)
Lemma post_init_indexable (p0 q0 r0 : nat) (sig0 : option (list Z)) (si : option Z)
    (opts : Options) (p q r : nat) (sig : list Z) :
  Algebra.resolve_signature p0 q0 r0 sig0 = Ok (p, q, r, sig) ->
  (forall ei, 0 <= ei < Z.of_nat (p + q + r) ->
     Forall (fun c => indexable sig (Algebra.resolve_start_index r si) c = true)
       (list_ascii_of_string
          (str_drop 2 (hex (ei + Algebra.resolve_start_index r si))))) ->
  exists b,
    __post_init__ p0 q0 r0 sig0 si opts = Ok b /\
    Algebra.signature (algebra b) = sig /\
    Algebra.start_index (algebra b) = Algebra.resolve_start_index r si /\
    Algebra.d (algebra b) = (p + q + r)%nat.
Proof.
  intros E H.
  set (s := Algebra.resolve_start_index r si) in *. set (d := (p + q + r)%nat) in *.
  destruct (prepare_spec d sig s) as [_ P].
  destruct P as [T HT].
  - intros eI eJ KI KJ.
    apply canon2bin_keys in KI, KJ.
    destruct KI as (bI & _ & <-), KJ as (bJ & _ & <-).
    apply blade_product_ok; apply blade_name_digits; exact H.
  - destruct (post_init_ok p0 q0 r0 sig0 si opts p q r sig T E HT)
      as (b & Hb & H1 & H2 & H3 & _).
    exists b. auto.
Qed.

(** With one-character digits and one signature entry for each generator
    every digit is indexable. *)
Lemma valid_digits_indexable (s : Z) (d : nat) (sig : list Z) (ei : Z) :
  0 <= s -> s + Z.of_nat d <= 16 -> List.length sig = d ->
  0 <= ei < Z.of_nat d ->
  Forall (fun c => indexable sig s c = true)
    (list_ascii_of_string (str_drop 2 (hex (ei + s)))).
Proof.
  intros Hs Hd Hsig Hei. rewrite hex_one_char by lia. cbn [list_ascii_of_string].
  constructor; [|constructor].
  pose proof (signature_entry s d Hs Hd sig Hsig ei Hei) as E.
  unfold indexable, digit in *.
  destruct (int16 (hex_char (ei + s))) as [k|]; [|discriminate]. cbn [bind] in E.
  now rewrite E.
Qed.

(** An algebra whose generators all have one-character digits is
    built. *)
Lemma post_init_valid (p0 q0 r0 : nat) (sig0 : option (list Z)) (si : option Z)
    (opts : Options) (p q r : nat) (sig : list Z) :
  Algebra.resolve_signature p0 q0 r0 sig0 = Ok (p, q, r, sig) ->
  0 <= Algebra.resolve_start_index r si ->
  Algebra.resolve_start_index r si + Z.of_nat (p + q + r) <= 16 ->
  exists b,
    __post_init__ p0 q0 r0 sig0 si opts = Ok b /\
    Algebra.signature (algebra b) = sig /\
    Algebra.start_index (algebra b) = Algebra.resolve_start_index r si /\
    Algebra.d (algebra b) = (p + q + r)%nat.
Proof.
  intros E Hs Hd. apply post_init_indexable; auto.
  intros ei Hei. apply (valid_digits_indexable _ (p + q + r)%nat); auto.
  apply resolve_signature_shape in E. tauto.
Qed.

(* ================================================================= *)
(** ** Products in an algebra with one-character digits *)

Lemma generators_0 (d : nat) : generators d 0 = [].
Proof.
  unfold generators. induction (range (Z.of_nat d)) as [|ei l IH]; [reflexivity|].
  cbn [filter]. now rewrite Z.bits_0.
Qed.

Lemma generators_pow2 (d : nat) (i : Z) :
  0 <= i < Z.of_nat d -> generators d (2 ^ i) = [i].
Proof.
  intros Hi. apply (strictly_sorted_ext (fun x => x)); auto.
  - apply generators_sorted.
  - repeat constructor.
  - intros ei. rewrite generators_In, Z.pow2_bits_eqb by lia. simpl.
    rewrite Z.eqb_eq. split; [intros [_ ->]; auto | intros [<-|[]]; auto].
Qed.

Lemma pow2_range (d : nat) (i : Z) :
  0 <= i < Z.of_nat d -> 0 <= 2 ^ i < 2 ^ Z.of_nat d.
Proof.
  intros Hi. split.
  - apply Z.pow_nonneg. lia.
  - apply Z.pow_lt_mono_r; lia.
Qed.

Lemma lxor_range (d : nat) (a b : Z) :
  0 <= a < 2 ^ Z.of_nat d -> 0 <= b < 2 ^ Z.of_nat d ->
  0 <= Z.lxor a b < 2 ^ Z.of_nat d.
Proof.
  intros Ha Hb.
  assert (N : 0 <= Z.lxor a b) by (apply Z.lxor_nonneg; lia).
  split; [exact N|].
  destruct (Z.eq_dec (Z.lxor a b) 0) as [->|Nz].
  - apply Z.pow_pos_nonneg; lia.
  - assert (Hpos : 0 < Z.of_nat d).
    { destruct d as [|d]; [|lia]. exfalso. apply Nz.
      change (2 ^ Z.of_nat 0) with 1 in *.
      assert (a = 0) by lia. assert (b = 0) by lia. subst. reflexivity. }
    apply Z.log2_lt_pow2; [lia|].
    eapply Z.le_lt_trans; [apply Z.log2_lxor; lia|].
    apply Z.max_lub_lt.
    + destruct (Z.eq_dec a 0) as [->|Na]; [simpl; lia|]. apply Z.log2_lt_pow2; lia.
    + destruct (Z.eq_dec b 0) as [->|Nb]; [simpl; lia|]. apply Z.log2_lt_pow2; lia.
Qed.

Lemma StronglySorted_weaken {X : Type} (R R' : X -> X -> Prop) (l : list X) :
  (forall a b, R a b -> R' a b) -> StronglySorted R l -> StronglySorted R' l.
Proof.
  intros H. induction 1 as [|a l S IH F]; constructor; auto.
  eapply Forall_impl; [|exact F]. auto.
Qed.

Lemma strictly_sorted_word (l : list ascii) :
  StronglySorted (fun a b => char_rank a < char_rank b) l -> sorted_list char_gtb l.
Proof.
  apply StronglySorted_weaken. intros a b H.
  rewrite char_gtb_rank. apply Z.ltb_ge. lia.
Qed.

Lemma collapsed_sign_none (sig : list Z) (d : nat) (bI bJ sign0 : Z) :
  Z.land bI bJ = 0 -> collapsed_sign sig d bI bJ sign0 = sign0.
Proof. intros E. unfold collapsed_sign. now rewrite E, generators_0. Qed.

Lemma collapsed_sign_unit (sig : list Z) (d : nat) (bI bJ sign0 : Z) :
  Forall (fun x => x = 1 \/ x = -1 \/ x = 0) sig ->
  sign0 = 1 \/ sign0 = -1 \/ sign0 = 0 ->
  let sg := collapsed_sign sig d bI bJ sign0 in sg = 1 \/ sg = -1 \/ sg = 0.
Proof.
  intros F. unfold collapsed_sign.
  generalize (generators d (Z.land bI bJ)) as gens. intros gens. revert sign0.
  induction gens as [|ei gens IH]; intros sign0 H0; [exact H0|].
  cbn [fold_left]. apply IH.
  assert (Hn : let x := nth (Z.to_nat ei) sig 0 in x = 1 \/ x = -1 \/ x = 0).
  { destruct (nth_in_or_default (Z.to_nat ei) sig 0) as [Hin| ->]; [|simpl; auto].
    rewrite Forall_forall in F. apply F. exact Hin. }
  simpl in Hn. lia.
Qed.

(** The three tables of a built algebra with one-character digits, at the
    blades of indices [bI] and [bJ]. *)
Lemma built_valid_entry (p0 q0 r0 : nat) (sig0 : option (list Z)) (si : option Z)
    (opts : Options) (b : Built) (bI bJ : Z) :
  __post_init__ p0 q0 r0 sig0 si opts = Ok b ->
  let a := algebra b in
  let s := Algebra.start_index a in
  let d := Algebra.d a in
  0 <= s -> s + Z.of_nat d <= 16 ->
  0 <= bI < 2 ^ Z.of_nat d -> 0 <= bJ < 2 ^ Z.of_nat d ->
  let sw := inversions char_gtb (digit_chars s d bI ++ digit_chars s d bJ) in
  let sg := collapsed_sign (Algebra.signature a) d bI bJ
              (if (sw mod 2 =? 0)%nat then 1 else -1) in
  dict_get Z.eqb (Algebra.bin2canon a) bI = Some (blade_name s d bI) /\
  dict_get Z.eqb (Algebra.bin2canon a) bJ = Some (blade_name s d bJ) /\
  dict_get Z.eqb (Algebra.bin2canon a) (Z.lxor bI bJ)
    = Some (blade_name s d (Z.lxor bI bJ)) /\
  dict_get String.eqb (Algebra.canon2bin a) (blade_name s d bI) = Some bI /\
  dict_get String.eqb (Algebra.canon2bin a) (blade_name s d bJ) = Some bJ /\
  (sg = 1 \/ sg = -1 \/ sg = 0) /\
  dict_get pair_eqb (Algebra.cayley a) (blade_name s d bI, blade_name s d bJ)
    = Some (if (sg =? 0)%Z then "0"%string
            else ((if (sg =? -1)%Z then "-" else "")
                    ++ blade_name s d (Z.lxor bI bJ))%string) /\
  np_get2 (Algebra.signs a) bI bJ = Ok sg /\
  np_get2 (Algebra.swaps a) bI bJ = Ok (Z.of_nat sw).
Proof.
  intros Hb a s d Hs Hd HI HJ sw sg.
  destruct (built_shape _ _ _ _ _ _ _ Hb) as (Hlen & Hsig & [N1 N2]).
  fold a in Hlen, Hsig, N1, N2. fold s d in N1.
  assert (Hinj : forall x y, 0 <= x < 2 ^ Z.of_nat d -> 0 <= y < 2 ^ Z.of_nat d ->
                   blade_name s d x = blade_name s d y -> x = y).
  { intros x y Hx Hy. now apply blade_name_inj. }
  assert (GI : dict_get String.eqb (Algebra.canon2bin a) (blade_name s d bI) = Some bI).
  { rewrite N2, N1. now apply canon2bin_get_blade_name. }
  assert (GJ : dict_get String.eqb (Algebra.canon2bin a) (blade_name s d bJ) = Some bJ).
  { rewrite N2, N1. now apply canon2bin_get_blade_name. }
  destruct (built_entry _ _ _ _ _ _ _ _ _ _ _ Hb GI GJ) as (sw' & sg' & str & P & C & G & W).
  fold a s in P, C, G, W.
  rewrite (blade_product_valid s d _ bI bJ Hs Hd Hlen) in P. cbv zeta in P.
  fold sw in P. fold sg in P. inversion P; subst sw' sg' str.
  rewrite N1.
  repeat split; auto using bin2canon_get, lxor_range.
  apply collapsed_sign_unit; auto.
  destruct (sw mod 2 =? 0)%nat; auto.
Qed.

Lemma blade_name_0 (s : Z) (d : nat) : blade_name s d 0 = "e"%string.
Proof.
  unfold blade_name. now rewrite blade_digits_generators, generators_0.
Qed.

Lemma digit_chars_0 (s : Z) (d : nat) : digit_chars s d 0 = [].
Proof. unfold digit_chars. now rewrite generators_0. Qed.

Lemma digit_chars_inversions (s : Z) (d : nat) (b : Z) :
  0 <= s -> s + Z.of_nat d <= 16 -> inversions char_gtb (digit_chars s d b) = O.
Proof.
  intros Hs Hd. apply (inversions_zero_iff char_gtb).
  apply strictly_sorted_word. now apply digit_chars_sorted.
Qed.

(** The amended C10: in every built algebra whose generators all have a
    one-character digit ([0 <= start_index], [start_index + d <= 16]), the
    scalar blade e, of index 0, is a two-sided identity of the tables: for
    every name [blade] of [canon2bin] the Cayley entries of [(e, blade)]
    and [(blade, e)] are [blade] itself, without a minus sign, the signs
    are 1 and the swap counts are 0. *)
Theorem scalar_blade_identity (p0 q0 r0 : nat) (sig0 : option (list Z)) (si : option Z)
    (opts : Options) (b : Built) (blade : string)
    (Hb : __post_init__ p0 q0 r0 sig0 si opts = Ok b)
    (Hs : 0 <= Algebra.start_index (algebra b))
    (Hd : Algebra.start_index (algebra b) + Z.of_nat (Algebra.d (algebra b)) <= 16)
    (Hblade : In blade (dict_keys (Algebra.canon2bin (algebra b)))) :
  let a := algebra b in
  exists index,
    dict_get String.eqb (Algebra.canon2bin a) blade = Some index /\
    dict_get Z.eqb (Algebra.bin2canon a) 0 = Some "e"%string /\
    dict_get String.eqb (Algebra.canon2bin a) "e"%string = Some 0 /\
    dict_get pair_eqb (Algebra.cayley a) ("e"%string, blade) = Some blade /\
    dict_get pair_eqb (Algebra.cayley a) (blade, "e"%string) = Some blade /\
    np_get2 (Algebra.signs a) 0 index = Ok 1 /\
    np_get2 (Algebra.signs a) index 0 = Ok 1 /\
    np_get2 (Algebra.swaps a) 0 index = Ok 0 /\
    np_get2 (Algebra.swaps a) index 0 = Ok 0.
Proof.
  intros a.
  destruct (built_shape _ _ _ _ _ _ _ Hb) as (_ & _ & [N1 N2]).
  fold a in N1, N2, Hs, Hd, Hblade.
  set (s := Algebra.start_index a) in *. set (d := Algebra.d a) in *.
  rewrite N2, N1 in Hblade. apply canon2bin_keys in Hblade.
  destruct Hblade as (index & Hr & <-).
  assert (H0 : 0 <= 0 < 2 ^ Z.of_nat d).
  { split; [lia|]. apply Z.pow_pos_nonneg; lia. }
  pose proof (built_valid_entry _ _ _ _ _ _ _ 0 index Hb Hs Hd H0 Hr) as L.
  pose proof (built_valid_entry _ _ _ _ _ _ _ index 0 Hb Hs Hd Hr H0) as R.
  cbv zeta in L, R. fold a s d in L, R.
  rewrite digit_chars_0 in L, R. rewrite app_nil_r in R. cbn [app] in L.
  rewrite (digit_chars_inversions s d index Hs Hd) in L, R.
  rewrite collapsed_sign_none in L by apply Z.land_0_l.
  rewrite collapsed_sign_none in R by apply Z.land_0_r.
  rewrite Z.lxor_0_l in L. rewrite Z.lxor_0_r in R.
  rewrite blade_name_0 in L, R. cbn in L, R.
  destruct L as (L1 & _ & _ & L4 & L5 & _ & L7 & L8 & L9).
  destruct R as (_ & _ & _ & _ & _ & _ & R7 & R8 & R9).
  exists index. repeat split; assumption.
Qed.

Lemma scalar_blade_identity_witness :
  exists b,
    __post_init__ 2 0 0 None None default_options = Ok b /\
    0 <= Algebra.start_index (algebra b) /\
    Algebra.start_index (algebra b) + Z.of_nat (Algebra.d (algebra b)) <= 16 /\
    In "e12"%string (dict_keys (Algebra.canon2bin (algebra b))) /\
    dict_get pair_eqb (Algebra.cayley (algebra b)) ("e", "e12")%string = Some "e12"%string /\
    dict_get pair_eqb (Algebra.cayley (algebra b)) ("e12", "e")%string = Some "e12"%string.
Proof.
  destruct (__post_init__ 2 0 0 None None default_options) as [b|e] eqn:E;
    [|vm_compute in E; discriminate].
  exists b. split; [reflexivity|].
  assert (Hs : 0 <= Algebra.start_index (algebra b)).
  { vm_compute in E. injection E as Eb. subst b. vm_compute. discriminate. }
  assert (Hd : Algebra.start_index (algebra b) + Z.of_nat (Algebra.d (algebra b)) <= 16).
  { vm_compute in E. injection E as Eb. subst b. vm_compute. discriminate. }
  assert (Hin : In "e12"%string (dict_keys (Algebra.canon2bin (algebra b)))).
  { vm_compute in E. injection E as Eb. subst b. vm_compute. auto. }
  split; [exact Hs|]. split; [exact Hd|]. split; [exact Hin|].
  destruct (scalar_blade_identity 2 0 0 None None default_options b "e12" E Hs Hd Hin)
    as (index & _ & _ & _ & L & R & _).
  split; assumption.
Defined.

Lemma char_gtb_irrefl (c : ascii) : char_gtb c c = false.
Proof. unfold char_gtb. apply N.ltb_irrefl. Qed.

Lemma digit_chars_pow2 (s : Z) (d : nat) (i : Z) :
  0 <= i < Z.of_nat d -> digit_chars s d (2 ^ i) = [digit s i].
Proof. intros Hi. unfold digit_chars. now rewrite generators_pow2. Qed.

Lemma blade_name_pow2 (s : Z) (d : nat) (i : Z) :
  0 <= s -> s + Z.of_nat d <= 16 -> 0 <= i < Z.of_nat d ->
  blade_name s d (2 ^ i) = String "e" (String (digit s i) EmptyString).
Proof.
  intros Hs Hd Hi. rewrite blade_name_chars by assumption.
  now rewrite digit_chars_pow2.
Qed.

Lemma collapsed_sign_pow2 (sig : list Z) (d : nat) (i sign0 : Z) :
  0 <= i < Z.of_nat d ->
  collapsed_sign sig d (2 ^ i) (2 ^ i) sign0 = sign0 * nth (Z.to_nat i) sig 0.
Proof.
  intros Hi. unfold collapsed_sign. rewrite Z.land_diag, generators_pow2 by assumption.
  reflexivity.
Qed.

(** The amended C1: in every built algebra whose generators all have a
    one-character digit ([0 <= start_index], [start_index + d <= 16]), for
    every generator [i] the blade of index [2**i] is named by e and the
    digit of [i]; the signature entry of [i] is 1, -1 or 0; the Cayley
    entry of the blade with itself is the literal zero when the entry is
    0, e when it is 1 and -e when it is -1; and the sign table holds the
    signature entry at that place. *)
Theorem generator_square (p0 q0 r0 : nat) (sig0 : option (list Z)) (si : option Z)
    (opts : Options) (b : Built) (i : nat)
    (Hb : __post_init__ p0 q0 r0 sig0 si opts = Ok b)
    (Hs : 0 <= Algebra.start_index (algebra b))
    (Hd : Algebra.start_index (algebra b) + Z.of_nat (Algebra.d (algebra b)) <= 16)
    (Hi : (i < Algebra.d (algebra b))%nat) :
  let a := algebra b in
  let e_i := String "e" (String (digit (Algebra.start_index a) (Z.of_nat i)) EmptyString) in
  let sig_i := nth i (Algebra.signature a) 0 in
  dict_get Z.eqb (Algebra.bin2canon a) (2 ^ Z.of_nat i) = Some e_i /\
  dict_get String.eqb (Algebra.canon2bin a) e_i = Some (2 ^ Z.of_nat i) /\
  (sig_i = 1 \/ sig_i = -1 \/ sig_i = 0) /\
  dict_get pair_eqb (Algebra.cayley a) (e_i, e_i)
    = Some (if sig_i =? 0 then "0"%string
            else if sig_i =? 1 then "e"%string else "-e"%string) /\
  np_get2 (Algebra.signs a) (2 ^ Z.of_nat i) (2 ^ Z.of_nat i) = Ok sig_i.
Proof.
  intros a e_i sig_i. fold a in Hs, Hd, Hi.
  set (s := Algebra.start_index a) in *. set (d := Algebra.d a) in *.
  assert (Hi' : 0 <= Z.of_nat i < Z.of_nat d) by lia.
  pose proof (pow2_range d _ Hi') as Hr.
  pose proof (built_valid_entry _ _ _ _ _ _ _ _ _ Hb Hs Hd Hr Hr) as L.
  cbv zeta in L. fold a s d in L.
  rewrite (digit_chars_pow2 s d _ Hi') in L.
  rewrite (blade_name_pow2 s d _ Hs Hd Hi') in L. fold e_i in L.
  assert (Esw : inversions char_gtb ([digit s (Z.of_nat i)] ++ [digit s (Z.of_nat i)]) = O).
  { cbn [app inversions count_gt]. now rewrite char_gtb_irrefl. }
  rewrite Esw in L.
  change (if (0 mod 2 =? 0)%nat then 1 else -1) with 1 in L.
  rewrite Z.lxor_nilpotent, blade_name_0 in L.
  rewrite (collapsed_sign_pow2 _ d _ 1 Hi'), Nat2Z.id in L. fold sig_i in L.
  replace (1 * sig_i) with sig_i in L by lia.
  destruct L as (L1 & _ & _ & L4 & _ & L6 & L7 & L8 & _).
  repeat split; try assumption.
  rewrite L7. clear - L6. destruct L6 as [E|[E|E]]; rewrite E; reflexivity.
Qed.

Lemma generator_square_witness :
  exists b,
    __post_init__ 1 1 1 None None default_options = Ok b /\
    0 <= Algebra.start_index (algebra b) /\
    Algebra.start_index (algebra b) + Z.of_nat (Algebra.d (algebra b)) <= 16 /\
    (2 < Algebra.d (algebra b))%nat /\
    Algebra.signature (algebra b) = [0; 1; -1] /\
    dict_get pair_eqb (Algebra.cayley (algebra b)) ("e2", "e2")%string = Some "-e"%string /\
    np_get2 (Algebra.signs (algebra b)) (2 ^ 2) (2 ^ 2) = Ok (-1).
Proof.
  destruct (__post_init__ 1 1 1 None None default_options) as [b|e] eqn:E;
    [|vm_compute in E; discriminate].
  exists b. split; [reflexivity|].
  assert (Hs : 0 <= Algebra.start_index (algebra b)).
  { vm_compute in E. injection E as Eb. subst b. vm_compute. discriminate. }
  assert (Hd : Algebra.start_index (algebra b) + Z.of_nat (Algebra.d (algebra b)) <= 16).
  { vm_compute in E. injection E as Eb. subst b. vm_compute. discriminate. }
  assert (Hi : (2 < Algebra.d (algebra b))%nat).
  { vm_compute in E. injection E as Eb. subst b. vm_compute. lia. }
  assert (Hsig : Algebra.signature (algebra b) = [0; 1; -1]).
  { vm_compute in E. injection E as Eb. subst b. reflexivity. }
  assert (Hst : Algebra.start_index (algebra b) = 0).
  { vm_compute in E. injection E as Eb. subst b. reflexivity. }
  split; [exact Hs|]. split; [exact Hd|]. split; [exact Hi|]. split; [exact Hsig|].
  destruct (generator_square 1 1 1 None None default_options b 2 E Hs Hd Hi)
    as (_ & _ & _ & C & G).
  rewrite Hsig, Hst in C. rewrite Hsig in G. split; [exact C | exact G].
Defined.

Lemma land_pow2_distinct (i j : Z) :
  0 <= i -> 0 <= j -> i <> j -> Z.land (2 ^ i) (2 ^ j) = 0.
Proof.
  intros Hi Hj N. rewrite land_pow2 by assumption.
  rewrite Z.pow2_bits_eqb by assumption.
  destruct (Z.eqb_spec i j); [contradiction | reflexivity].
Qed.

Lemma inversions_pair (s : Z) (d : nat) (i j : Z) :
  0 <= s -> s + Z.of_nat d <= 16 ->
  0 <= i < Z.of_nat d -> 0 <= j < Z.of_nat d ->
  inversions char_gtb ([digit s i] ++ [digit s j]) = if j <? i then 1%nat else 0%nat.
Proof.
  intros Hs Hd Hi Hj. cbn [app inversions count_gt]. unfold digit.
  rewrite hex_char_gtb by lia.
  destruct (Z.ltb_spec (j + s) (i + s)), (Z.ltb_spec j i); try lia; reflexivity.
Qed.

(** The amended C2: in every built algebra whose generators all have a
    one-character digit ([0 <= start_index], [start_index + d <= 16]), for
    any two different generators, called [i] and [j] with [i < j]
    (whatever their signature entries), the Cayley entries of [(e_i, e_j)]
    and [(e_j, e_i)] name the same blade, the one of index
    [2**i ^ 2**j]: the first without a sign and the second with a minus
    sign, and the two entries of the sign table are 1 and -1. *)
Theorem distinct_generators_anticommute (p0 q0 r0 : nat) (sig0 : option (list Z))
    (si : option Z) (opts : Options) (b : Built) (i j : nat)
    (Hb : __post_init__ p0 q0 r0 sig0 si opts = Ok b)
    (Hs : 0 <= Algebra.start_index (algebra b))
    (Hd : Algebra.start_index (algebra b) + Z.of_nat (Algebra.d (algebra b)) <= 16)
    (Hi : (i < Algebra.d (algebra b))%nat)
    (Hj : (j < Algebra.d (algebra b))%nat)
    (Hij : (i < j)%nat) :
  let a := algebra b in
  let e_i := String "e" (String (digit (Algebra.start_index a) (Z.of_nat i)) EmptyString) in
  let e_j := String "e" (String (digit (Algebra.start_index a) (Z.of_nat j)) EmptyString) in
  exists blade,
    dict_get Z.eqb (Algebra.bin2canon a) (2 ^ Z.of_nat i) = Some e_i /\
    dict_get Z.eqb (Algebra.bin2canon a) (2 ^ Z.of_nat j) = Some e_j /\
    dict_get Z.eqb (Algebra.bin2canon a) (Z.lxor (2 ^ Z.of_nat i) (2 ^ Z.of_nat j))
      = Some blade /\
    dict_get pair_eqb (Algebra.cayley a) (e_i, e_j) = Some blade /\
    dict_get pair_eqb (Algebra.cayley a) (e_j, e_i) = Some (String "-" blade) /\
    np_get2 (Algebra.signs a) (2 ^ Z.of_nat i) (2 ^ Z.of_nat j) = Ok 1 /\
    np_get2 (Algebra.signs a) (2 ^ Z.of_nat j) (2 ^ Z.of_nat i) = Ok (-1).
Proof.
  intros a e_i e_j. fold a in Hs, Hd, Hi, Hj.
  set (s := Algebra.start_index a) in *. set (d := Algebra.d a) in *.
  assert (Hi' : 0 <= Z.of_nat i < Z.of_nat d) by lia.
  assert (Hj' : 0 <= Z.of_nat j < Z.of_nat d) by lia.
  pose proof (pow2_range d _ Hi') as Ri. pose proof (pow2_range d _ Hj') as Rj.
  pose proof (built_valid_entry _ _ _ _ _ _ _ _ _ Hb Hs Hd Ri Rj) as L.
  pose proof (built_valid_entry _ _ _ _ _ _ _ _ _ Hb Hs Hd Rj Ri) as R.
  cbv zeta in L, R. fold a s d in L, R.
  rewrite (digit_chars_pow2 s d _ Hi'), (digit_chars_pow2 s d _ Hj') in L, R.
  rewrite (blade_name_pow2 s d _ Hs Hd Hi'), (blade_name_pow2 s d _ Hs Hd Hj') in L, R.
  fold e_i e_j in L, R.
  rewrite (inversions_pair s d _ _ Hs Hd Hi' Hj') in L.
  rewrite (inversions_pair s d _ _ Hs Hd Hj' Hi') in R.
  rewrite collapsed_sign_none in L by (apply land_pow2_distinct; lia).
  rewrite collapsed_sign_none in R by (apply land_pow2_distinct; lia).
  rewrite (Z.lxor_comm (2 ^ Z.of_nat j)) in R.
  destruct (Z.ltb_spec (Z.of_nat j) (Z.of_nat i)) as [Hlt|_]; [lia|].
  destruct (Z.ltb_spec (Z.of_nat i) (Z.of_nat j)) as [_|Hge]; [|lia].
  change (if (0 mod 2 =? 0)%nat then 1 else -1) with 1 in L.
  change (if (1 mod 2 =? 0)%nat then 1 else -1) with (-1) in R.
  change (1 =? 0) with false in L. change (1 =? -1) with false in L.
  change (-1 =? 0) with false in R. change (-1 =? -1) with true in R.
  cbv iota in L, R. cbn [String.append] in L, R.
  destruct L as (L1 & L2 & L3 & _ & _ & _ & L7 & L8 & _).
  destruct R as (_ & _ & _ & _ & _ & _ & R7 & R8 & _).
  exists (blade_name s d (Z.lxor (2 ^ Z.of_nat i) (2 ^ Z.of_nat j))).
  repeat split; assumption.
Qed.

Lemma distinct_generators_anticommute_witness :
  exists b,
    __post_init__ 2 0 0 None None default_options = Ok b /\
    0 <= Algebra.start_index (algebra b) /\
    Algebra.start_index (algebra b) + Z.of_nat (Algebra.d (algebra b)) <= 16 /\
    (0 < Algebra.d (algebra b))%nat /\ (1 < Algebra.d (algebra b))%nat /\ (0 < 1)%nat /\
    dict_get pair_eqb (Algebra.cayley (algebra b)) ("e1", "e2")%string = Some "e12"%string /\
    dict_get pair_eqb (Algebra.cayley (algebra b)) ("e2", "e1")%string = Some "-e12"%string.
Proof.
  destruct (__post_init__ 2 0 0 None None default_options) as [b|e] eqn:E;
    [|vm_compute in E; discriminate].
  exists b. split; [reflexivity|].
  assert (Hs : 0 <= Algebra.start_index (algebra b)).
  { vm_compute in E. injection E as Eb. subst b. vm_compute. discriminate. }
  assert (Hd : Algebra.start_index (algebra b) + Z.of_nat (Algebra.d (algebra b)) <= 16).
  { vm_compute in E. injection E as Eb. subst b. vm_compute. discriminate. }
  assert (Hi : (0 < Algebra.d (algebra b))%nat).
  { vm_compute in E. injection E as Eb. subst b. vm_compute. lia. }
  assert (Hj : (1 < Algebra.d (algebra b))%nat).
  { vm_compute in E. injection E as Eb. subst b. vm_compute. lia. }
  assert (Hij : (0 < 1)%nat) by lia.
  assert (Hst : Algebra.start_index (algebra b) = 1).
  { vm_compute in E. injection E as Eb. subst b. reflexivity. }
  assert (Hdim : Algebra.d (algebra b) = 2%nat).
  { vm_compute in E. injection E as Eb. subst b. reflexivity. }
  do 5 (split; [assumption|]).
  destruct (distinct_generators_anticommute 2 0 0 None None default_options b 0 1
              E Hs Hd Hi Hj Hij)
    as (blade & _ & _ & B & C1 & C2 & _).
  rewrite Hst in C1, C2.
  assert (Eblade : blade = "e12"%string).
  { pose proof (built_shape _ _ _ _ _ _ _ E) as (_ & _ & [N1 _]).
    rewrite N1, Hst, Hdim in B. vm_compute in B. congruence. }
  subst blade. split; [exact C1 | exact C2].
Defined.

(** The amended C4: in every built algebra whose generators all have a
    one-character digit ([0 <= start_index], [start_index + d <= 16]), for
    every two names of [canon2bin] the entry of the sign table is -1, 0 or
    1, and the Cayley entry is the literal zero, with sign 0, or the name
    that [bin2canon] gives to the index [bI ^ bJ], on its own with sign 1
    and after one minus sign with sign -1; the digits of that name are in
    strictly increasing order. *)
Theorem cayley_entries_canonical (p0 q0 r0 : nat) (sig0 : option (list Z))
    (si : option Z) (opts : Options) (b : Built) (eI eJ : string)
    (Hb : __post_init__ p0 q0 r0 sig0 si opts = Ok b)
    (Hs : 0 <= Algebra.start_index (algebra b))
    (Hd : Algebra.start_index (algebra b) + Z.of_nat (Algebra.d (algebra b)) <= 16)
    (HI : In eI (dict_keys (Algebra.canon2bin (algebra b))))
    (HJ : In eJ (dict_keys (Algebra.canon2bin (algebra b)))) :
  let a := algebra b in
  exists bI bJ sign entry,
    dict_get String.eqb (Algebra.canon2bin a) eI = Some bI /\
    dict_get String.eqb (Algebra.canon2bin a) eJ = Some bJ /\
    np_get2 (Algebra.signs a) bI bJ = Ok sign /\
    (sign = -1 \/ sign = 0 \/ sign = 1) /\
    dict_get pair_eqb (Algebra.cayley a) (eI, eJ) = Some entry /\
    ((sign = 0 /\ entry = "0"%string) \/
     exists name digits,
       dict_get Z.eqb (Algebra.bin2canon a) (Z.lxor bI bJ) = Some name /\
       name = String "e" (string_of_list_ascii digits) /\
       StronglySorted (fun x y => char_rank x < char_rank y) digits /\
       ((sign = 1 /\ entry = name) \/ (sign = -1 /\ entry = String "-" name))).
Proof.
  intros a.
  destruct (built_shape _ _ _ _ _ _ _ Hb) as (_ & _ & [N1 N2]).
  fold a in N1, N2, Hs, Hd, HI, HJ.
  set (s := Algebra.start_index a) in *. set (d := Algebra.d a) in *.
  rewrite N2, N1 in HI, HJ. apply canon2bin_keys in HI, HJ.
  destruct HI as (bI & RI & <-). destruct HJ as (bJ & RJ & <-).
  pose proof (built_valid_entry _ _ _ _ _ _ _ bI bJ Hb Hs Hd RI RJ) as L.
  cbv zeta in L. fold a s d in L.
  set (sg := collapsed_sign _ _ _ _ _) in L.
  destruct L as (_ & _ & L3 & L4 & L5 & L6 & L7 & L8 & _).
  exists bI, bJ, sg. eexists.
  split; [exact L4|]. split; [exact L5|]. split; [exact L8|].
  split; [lia|]. split; [exact L7|].
  destruct L6 as [E|[E|E]]; rewrite E.
  - right. exists (blade_name s d (Z.lxor bI bJ)), (digit_chars s d (Z.lxor bI bJ)).
    split; [exact L3|]. split; [now apply blade_name_chars|].
    split; [now apply digit_chars_sorted|]. left. auto.
  - right. exists (blade_name s d (Z.lxor bI bJ)), (digit_chars s d (Z.lxor bI bJ)).
    split; [exact L3|]. split; [now apply blade_name_chars|].
    split; [now apply digit_chars_sorted|]. right. auto.
  - left. auto.
Qed.

Lemma cayley_entries_canonical_witness :
  exists b,
    __post_init__ 2 0 0 None None default_options = Ok b /\
    0 <= Algebra.start_index (algebra b) /\
    Algebra.start_index (algebra b) + Z.of_nat (Algebra.d (algebra b)) <= 16 /\
    In "e12"%string (dict_keys (Algebra.canon2bin (algebra b))) /\
    In "e2"%string (dict_keys (Algebra.canon2bin (algebra b))) /\
    exists sign,
      np_get2 (Algebra.signs (algebra b)) 3 2 = Ok sign /\
      (sign = -1 \/ sign = 0 \/ sign = 1).
Proof.
  destruct (__post_init__ 2 0 0 None None default_options) as [b|e] eqn:E;
    [|vm_compute in E; discriminate].
  exists b. split; [reflexivity|].
  assert (Hs : 0 <= Algebra.start_index (algebra b)).
  { vm_compute in E. injection E as Eb. subst b. vm_compute. discriminate. }
  assert (Hd : Algebra.start_index (algebra b) + Z.of_nat (Algebra.d (algebra b)) <= 16).
  { vm_compute in E. injection E as Eb. subst b. vm_compute. discriminate. }
  assert (HI : In "e12"%string (dict_keys (Algebra.canon2bin (algebra b)))).
  { vm_compute in E. injection E as Eb. subst b. vm_compute. auto. }
  assert (HJ : In "e2"%string (dict_keys (Algebra.canon2bin (algebra b)))).
  { vm_compute in E. injection E as Eb. subst b. vm_compute. auto. }
  do 4 (split; [assumption|]).
  destruct (cayley_entries_canonical 2 0 0 None None default_options b "e12" "e2"
              E Hs Hd HI HJ)
    as (bI & bJ & sign & entry & GI & GJ & G & Hsign & _).
  assert (EI : bI = 3).
  { vm_compute in E. injection E as Eb. subst b. vm_compute in GI. congruence. }
  assert (EJ : bJ = 2).
  { vm_compute in E. injection E as Eb. subst b. vm_compute in GJ. congruence. }
  subst bI bJ. exists sign. split; assumption.
Defined.

(* ================================================================= *)
(** ** The algebra with sixteen positive generators

    With the default start index 1 the sixteenth generator has the digit
    string [hex(16)[2:]], which is 10, while the loop of
    [_prepare_signs_and_cayley] reads a name character by character. *)

Lemma Forall_forallb {X : Type} (f : X -> bool) (l : list X) :
  forallb f l = true -> Forall (fun x => f x = true) l.
Proof.
  intros H. apply Forall_forall. now apply forallb_forall.
Qed.

(** In a built algebra, the names of two indices and what the tables hold
    for them. *)
Lemma built_product (p0 q0 r0 : nat) (sig0 : option (list Z)) (si : option Z)
    (opts : Options) (b : Built) (bI bJ : Z) :
  __post_init__ p0 q0 r0 sig0 si opts = Ok b ->
  let a := algebra b in
  let eI := blade_name (Algebra.start_index a) (Algebra.d a) bI in
  let eJ := blade_name (Algebra.start_index a) (Algebra.d a) bJ in
  0 <= bI < 2 ^ Z.of_nat (Algebra.d a) -> 0 <= bJ < 2 ^ Z.of_nat (Algebra.d a) ->
  exists cI cJ sw sg str,
    dict_get Z.eqb (Algebra.bin2canon a) bI = Some eI /\
    dict_get Z.eqb (Algebra.bin2canon a) bJ = Some eJ /\
    dict_get String.eqb (Algebra.canon2bin a) eI = Some cI /\
    dict_get String.eqb (Algebra.canon2bin a) eJ = Some cJ /\
    blade_product (Algebra.signature a) (Algebra.start_index a) eI eJ = Ok (sw, sg, str) /\
    dict_get pair_eqb (Algebra.cayley a) (eI, eJ) = Some str /\
    np_get2 (Algebra.signs a) cI cJ = Ok sg /\
    np_get2 (Algebra.swaps a) cI cJ = Ok (Z.of_nat sw).
Proof.
  intros Hb a eI eJ RI RJ.
  destruct (built_shape _ _ _ _ _ _ _ Hb) as (_ & _ & [N1 N2]). fold a in N1, N2.
  destruct (canon2bin_get_name (Algebra.start_index a) _ _ RI) as (cI & GI & _).
  destruct (canon2bin_get_name (Algebra.start_index a) _ _ RJ) as (cJ & GJ & _).
  rewrite <- N1, <- N2 in GI, GJ. fold eI in GI. fold eJ in GJ.
  destruct (built_entry _ _ _ _ _ _ _ _ _ _ _ Hb GI GJ) as (sw & sg & str & P & C & G & W).
  exists cI, cJ, sw, sg, str. rewrite N1.
  repeat split; auto using bin2canon_get.
Qed.

(** [Algebra(16)] is built: sixteen entries 1, start index 1. *)
Lemma algebra_16_built :
  exists b,
    __post_init__ 16 0 0 None None default_options = Ok b /\
    Algebra.signature (algebra b) = repeat 1 16 /\
    Algebra.start_index (algebra b) = 1 /\
    Algebra.d (algebra b) = 16%nat.
Proof.
  destruct (post_init_indexable 16 0 0 None None default_options 16 0 0 (repeat 1 16))
    as (b & Hb & H1 & H2 & H3).
  - reflexivity.
  - intros ei Hei. change (Algebra.resolve_start_index 0 None) with 1.
    apply Forall_forallb.
    change (Z.of_nat (16 + 0 + 0)) with 16 in Hei.
    apply digit_cases in Hei.
    repeat (destruct Hei as [Hei|Hei]; [subst ei; vm_compute; reflexivity|]).
    subst ei; vm_compute; reflexivity.
  - exists b. auto.
Qed.

(** C1 as stated fails: [Algebra(16)] is built, every signature entry is
    1, the blade of generator 15 (index [2**15]) is named e10, and the
    Cayley entry of that blade with itself is -e, with sign -1, where the
    claim has e and 1: the word 1010 takes three swaps, and its digits 0
    and 1 multiply the sign by [signature[-1]] and [signature[0]]. *)
Lemma generator_square_fails_at_dimension_16 :
  exists b,
    __post_init__ 16 0 0 None None default_options = Ok b /\
    nth 15 (Algebra.signature (algebra b)) 0 = 1 /\
    dict_get Z.eqb (Algebra.bin2canon (algebra b)) (2 ^ 15) = Some "e10"%string /\
    dict_get pair_eqb (Algebra.cayley (algebra b)) ("e10", "e10")%string
      = Some "-e"%string /\
    exists index,
      dict_get String.eqb (Algebra.canon2bin (algebra b)) "e10"%string = Some index /\
      np_get2 (Algebra.signs (algebra b)) index index = Ok (-1).
Proof.
  destruct algebra_16_built as (b & Hb & Hsig & Hs & Hd).
  exists b. split; [exact Hb|]. split; [rewrite Hsig; reflexivity|].
  pose proof (built_product _ _ _ _ _ _ b (2 ^ 15) (2 ^ 15) Hb) as P.
  cbv zeta in P. rewrite Hsig, Hs, Hd in P.
  assert (E : blade_name 1 16 (2 ^ 15) = "e10"%string) by (vm_compute; reflexivity).
  rewrite E in P.
  assert (R : 0 <= 2 ^ 15 < 2 ^ Z.of_nat 16) by (cbn; lia).
  destruct (P R R) as (cI & cJ & sw & sg & str & B1 & _ & C1 & C2 & BP & Cay & Sg & _).
  assert (BP' : blade_product (repeat 1 16) 1 "e10" "e10" = Ok (3%nat, -1, "-e"%string))
    by (vm_compute; reflexivity).
  rewrite BP' in BP. injection BP as <- <- <-.
  rewrite C1 in C2. injection C2 as <-.
  split; [exact B1|]. split; [exact Cay|]. exists cI. auto.
Qed.

(** C2 as stated fails: in [Algebra(16)] the generators 1 and 15 both have
    signature entry 1 and their blades are named e2 and e10; the Cayley
    entries of (e2, e10) and of (e10, e2) are both -e012 and both signs
    are -1, where the claim has opposite signs: the words 210 and 102
    take three swaps and one swap. *)
Lemma anticommutation_fails_at_dimension_16 :
  exists b,
    __post_init__ 16 0 0 None None default_options = Ok b /\
    nth 1 (Algebra.signature (algebra b)) 0 = 1 /\
    nth 15 (Algebra.signature (algebra b)) 0 = 1 /\
    dict_get Z.eqb (Algebra.bin2canon (algebra b)) (2 ^ 1) = Some "e2"%string /\
    dict_get Z.eqb (Algebra.bin2canon (algebra b)) (2 ^ 15) = Some "e10"%string /\
    dict_get pair_eqb (Algebra.cayley (algebra b)) ("e2", "e10")%string
      = Some "-e012"%string /\
    dict_get pair_eqb (Algebra.cayley (algebra b)) ("e10", "e2")%string
      = Some "-e012"%string /\
    exists index_i index_j,
      dict_get String.eqb (Algebra.canon2bin (algebra b)) "e2"%string = Some index_i /\
      dict_get String.eqb (Algebra.canon2bin (algebra b)) "e10"%string = Some index_j /\
      np_get2 (Algebra.signs (algebra b)) index_i index_j = Ok (-1) /\
      np_get2 (Algebra.signs (algebra b)) index_j index_i = Ok (-1).
Proof.
  destruct algebra_16_built as (b & Hb & Hsig & Hs & Hd).
  exists b. split; [exact Hb|]. do 2 (split; [rewrite Hsig; reflexivity|]).
  pose proof (built_product _ _ _ _ _ _ b (2 ^ 1) (2 ^ 15) Hb) as P.
  pose proof (built_product _ _ _ _ _ _ b (2 ^ 15) (2 ^ 1) Hb) as Q.
  cbv zeta in P, Q. rewrite Hsig, Hs, Hd in P, Q.
  assert (E1 : blade_name 1 16 (2 ^ 1) = "e2"%string) by (vm_compute; reflexivity).
  assert (E15 : blade_name 1 16 (2 ^ 15) = "e10"%string) by (vm_compute; reflexivity).
  rewrite E1, E15 in P, Q.
  assert (R1 : 0 <= 2 ^ 1 < 2 ^ Z.of_nat 16) by (cbn; lia).
  assert (R15 : 0 <= 2 ^ 15 < 2 ^ Z.of_nat 16) by (cbn; lia).
  destruct (P R1 R15) as (cI & cJ & sw & sg & str & B1 & B2 & C1 & C2 & BP & Cay & Sg & _).
  destruct (Q R15 R1) as (cJ' & cI' & sw' & sg' & str' & _ & _ & C1' & C2' & BP' & Cay' & Sg' & _).
  assert (V : blade_product (repeat 1 16) 1 "e2" "e10" = Ok (3%nat, -1, "-e012"%string))
    by (vm_compute; reflexivity).
  assert (V' : blade_product (repeat 1 16) 1 "e10" "e2" = Ok (1%nat, -1, "-e012"%string))
    by (vm_compute; reflexivity).
  rewrite V in BP. injection BP as <- <- <-.
  rewrite V' in BP'. injection BP' as <- <- <-.
  rewrite C2 in C1'. injection C1' as <-. rewrite C1 in C2'. injection C2' as <-.
  split; [exact B1|]. split; [exact B2|]. split; [exact Cay|]. split; [exact Cay'|].
  exists cI, cJ. auto.
Qed.

Lemma first_digit_16 (ei : Z) :
  0 <= ei < 16 ->
  exists c rest, str_drop 2 (hex (ei + 1)) = String c rest /\ c <> "0"%char.
Proof.
  intros H. apply digit_cases in H.
  repeat (destruct H as [H|H];
          [subst ei; eexists; eexists; split; [reflexivity | discriminate]|]).
  subst ei; eexists; eexists; split; [reflexivity | discriminate].
Qed.

(** With sixteen generators and start index 1 no blade is named e0. *)
Lemma blade_name_16_not_e0 (index : Z) : blade_name 1 16 index <> "e0"%string.
Proof.
  unfold blade_name. rewrite blade_digits_generators.
  destruct (generators 16 index) as [|ei rest] eqn:G.
  - discriminate.
  - assert (Hei : In ei (generators 16 index)) by (rewrite G; now left).
    apply generators_In in Hei. destruct Hei as [Hei _].
    change (Z.of_nat 16) with 16 in Hei.
    destruct (first_digit_16 ei Hei) as (c & r & E & N).
    cbn [map]. rewrite concat_empty_cons, E. cbn [String.append].
    intros H. injection H as H1 _. contradiction.
Qed.

(** C4 as stated fails: in [Algebra(16)] the blades of indices [2**0] and
    [2**15] are named e1 and e10, and the Cayley entry of (e1, e10) is e0,
    which is not the literal zero, has no minus sign, and is the name of
    no index in [bin2canon]: the word 110 sorts to 011, the digit 1
    occurs twice and is dropped, and the digit 0 is left. *)
Lemma cayley_entry_outside_bin2canon_at_dimension_16 :
  exists b,
    __post_init__ 16 0 0 None None default_options = Ok b /\
    dict_get Z.eqb (Algebra.bin2canon (algebra b)) (2 ^ 0) = Some "e1"%string /\
    dict_get Z.eqb (Algebra.bin2canon (algebra b)) (2 ^ 15) = Some "e10"%string /\
    In "e1"%string (dict_keys (Algebra.canon2bin (algebra b))) /\
    In "e10"%string (dict_keys (Algebra.canon2bin (algebra b))) /\
    dict_get pair_eqb (Algebra.cayley (algebra b)) ("e1", "e10")%string
      = Some "e0"%string /\
    (forall index name,
        dict_get Z.eqb (Algebra.bin2canon (algebra b)) index = Some name ->
        "e0"%string <> name /\ "e0"%string <> String "-" name).
Proof.
  destruct algebra_16_built as (b & Hb & Hsig & Hs & Hd).
  exists b. split; [exact Hb|].
  pose proof (built_product _ _ _ _ _ _ b (2 ^ 0) (2 ^ 15) Hb) as P.
  cbv zeta in P. rewrite Hsig, Hs, Hd in P.
  assert (E0 : blade_name 1 16 (2 ^ 0) = "e1"%string) by (vm_compute; reflexivity).
  assert (E15 : blade_name 1 16 (2 ^ 15) = "e10"%string) by (vm_compute; reflexivity).
  rewrite E0, E15 in P.
  assert (R0 : 0 <= 2 ^ 0 < 2 ^ Z.of_nat 16) by (cbn; lia).
  assert (R15 : 0 <= 2 ^ 15 < 2 ^ Z.of_nat 16) by (cbn; lia).
  destruct (P R0 R15) as (cI & cJ & sw & sg & str & B1 & B2 & C1 & C2 & BP & Cay & _).
  assert (V : blade_product (repeat 1 16) 1 "e1" "e10" = Ok (2%nat, 1, "e0"%string))
    by (vm_compute; reflexivity).
  rewrite V in BP. injection BP as <- <- <-.
  split; [exact B1|]. split; [exact B2|].
  split. { apply (dict_get_In String.eqb String.eqb_spec) in C1.
           apply (in_map fst) in C1. exact C1. }
  split. { apply (dict_get_In String.eqb String.eqb_spec) in C2.
           apply (in_map fst) in C2. exact C2. }
  split; [exact Cay|].
  intros index name H.
  destruct (built_shape _ _ _ _ _ _ _ Hb) as (_ & _ & [N1 _]).
  rewrite N1, Hs, Hd in H. apply bin2canon_get_inv in H. destruct H as [_ ->].
  split.
  - intros E. symmetry in E. now apply blade_name_16_not_e0 in E.
  - discriminate.
Qed.

(** C10 as stated fails: in [Algebra(16)] the blade of index [2**15] is
    named e10, and the Cayley entry of (e, e10) is -e01, with sign -1 and
    one swap, where the claim has e10, 1 and 0: the word 10 is not in
    order. *)
Lemma scalar_identity_fails_at_dimension_16 :
  exists b,
    __post_init__ 16 0 0 None None default_options = Ok b /\
    dict_get Z.eqb (Algebra.bin2canon (algebra b)) 0 = Some "e"%string /\
    dict_get Z.eqb (Algebra.bin2canon (algebra b)) (2 ^ 15) = Some "e10"%string /\
    In "e10"%string (dict_keys (Algebra.canon2bin (algebra b))) /\
    dict_get pair_eqb (Algebra.cayley (algebra b)) ("e", "e10")%string
      = Some "-e01"%string /\
    exists index_e index,
      dict_get String.eqb (Algebra.canon2bin (algebra b)) "e"%string = Some index_e /\
      dict_get String.eqb (Algebra.canon2bin (algebra b)) "e10"%string = Some index /\
      np_get2 (Algebra.signs (algebra b)) index_e index = Ok (-1) /\
      np_get2 (Algebra.swaps (algebra b)) index_e index = Ok 1.
Proof.
  destruct algebra_16_built as (b & Hb & Hsig & Hs & Hd).
  exists b. split; [exact Hb|].
  pose proof (built_product _ _ _ _ _ _ b 0 (2 ^ 15) Hb) as P.
  cbv zeta in P. rewrite Hsig, Hs, Hd in P.
  assert (E15 : blade_name 1 16 (2 ^ 15) = "e10"%string) by (vm_compute; reflexivity).
  rewrite blade_name_0, E15 in P.
  assert (R0 : 0 <= 0 < 2 ^ Z.of_nat 16) by (cbn; lia).
  assert (R15 : 0 <= 2 ^ 15 < 2 ^ Z.of_nat 16) by (cbn; lia).
  destruct (P R0 R15) as (cI & cJ & sw & sg & str & B1 & B2 & C1 & C2 & BP & Cay & Sg & Sw).
  assert (V : blade_product (repeat 1 16) 1 "e" "e10" = Ok (1%nat, -1, "-e01"%string))
    by (vm_compute; reflexivity).
  rewrite V in BP. injection BP as <- <- <-.
  split; [exact B1|]. split; [exact B2|].
  split. { apply (dict_get_In String.eqb String.eqb_spec) in C2.
           apply (in_map fst) in C2. exact C2. }
  split; [exact Cay|]. exists cI, cJ. auto.
Qed.

(* ================================================================= *)
(** ** Names with the two-character digits 10 and 11

    With [start_index + d <= 18] the digit strings are the sixteen
    one-character digits and, for the values 16 and 17, the strings 10
    and 11; the names can still be told apart. *)

Lemma concat_flat_map (ls : list string) :
  list_ascii_of_string (String.concat "" ls) = flat_map list_ascii_of_string ls.
Proof.
  induction ls as [|l ls IH]; [reflexivity|].
  rewrite concat_empty_cons, list_ascii_of_string_app. cbn [flat_map]. now rewrite IH.
Qed.

(** A strictly increasing list splits at any bound. *)
Lemma sorted_split (k : Z) (l : list Z) :
  StronglySorted Z.lt l ->
  l = filter (fun x => x <=? k) l ++ filter (fun x => k <? x) l.
Proof.
  induction 1 as [|a l S IH F]; [reflexivity|].
  cbn [filter]. destruct (Z.leb_spec a k) as [L|G].
  - destruct (Z.ltb_spec k a); [lia|]. cbn [app]. now rewrite <- IH.
  - destruct (Z.ltb_spec k a); [|lia].
    assert (E : filter (fun x => x <=? k) l = []).
    { clear IH S. induction F as [|x l Hx F IH]; [reflexivity|].
      cbn [filter]. destruct (Z.leb_spec x k); [lia|]. exact IH. }
    rewrite E in *. cbn [app] in *. now rewrite <- IH.
Qed.

(** A strictly increasing list over two neighbouring values. *)
Lemma sorted_two_values (p : Z) (l : list Z) :
  StronglySorted Z.lt l -> Forall (fun x => x = p \/ x = p + 1) l ->
  l = (if existsb (Z.eqb p) l then [p] else [])
        ++ (if existsb (Z.eqb (p + 1)) l then [p + 1] else []).
Proof.
  intros S F.
  assert (Hex : forall q, existsb (Z.eqb q) l = true <-> In q l).
  { intros q. rewrite existsb_exists. split.
    - intros (x & Hx & E). apply Z.eqb_eq in E. now subst.
    - intros H. exists q. split; auto. apply Z.eqb_refl. }
  apply (strictly_sorted_ext (fun x => x)); auto.
  - destruct (existsb (Z.eqb p) l), (existsb (Z.eqb (p + 1)) l); cbn [app];
      repeat constructor. lia.
  - intros x. rewrite Forall_forall in F. split.
    + intros H. apply in_app_iff. destruct (F x H) as [->| ->].
      * left. rewrite (proj2 (Hex p) H). now left.
      * right. rewrite (proj2 (Hex (p + 1)) H). now left.
    + intros H. apply in_app_iff in H. destruct H as [H|H].
      * destruct (existsb (Z.eqb p) l) eqn:E; [|destruct H].
        destruct H as [<-|[]]. now apply Hex.
      * destruct (existsb (Z.eqb (p + 1)) l) eqn:E; [|destruct H].
        destruct H as [<-|[]]. now apply Hex.
Qed.

(** The last two elements of a strictly increasing word are in order. *)
Lemma sorted_last_two (l : list ascii) (x y : ascii) :
  StronglySorted (fun a b => char_rank a < char_rank b) (l ++ [x; y]) ->
  char_rank x < char_rank y.
Proof.
  intros S. replace (l ++ [x; y]) with ((l ++ [x]) ++ [y]) in S
    by now rewrite <- app_assoc.
  apply StronglySorted_snoc in S. destruct S as [_ F].
  rewrite Forall_forall in F. apply F. apply in_app_iff. right. now left.
Qed.

(** The tail of two-character digits is read off the end of a name. *)
Lemma two_char_tail (X1 X2 : list ascii) (t16 t17 u16 u17 : bool) :
  StronglySorted (fun a b => char_rank a < char_rank b) X1 ->
  StronglySorted (fun a b => char_rank a < char_rank b) X2 ->
  X1 ++ (if t16 then ["1"; "0"]%char else []) ++ (if t17 then ["1"; "1"]%char else [])
  = X2 ++ (if u16 then ["1"; "0"]%char else []) ++ (if u17 then ["1"; "1"]%char else []) ->
  X1 = X2 /\ t16 = u16 /\ t17 = u17.
Proof.
  intros S1 S2 E.
  assert (bad10 : forall l, ~ StronglySorted (fun a b => char_rank a < char_rank b)
                               (l ++ ["1"; "0"]%char)).
  { intros l S. apply sorted_last_two in S. vm_compute in S. discriminate. }
  assert (bad11 : forall l, ~ StronglySorted (fun a b => char_rank a < char_rank b)
                               (l ++ ["1"; "1"]%char)).
  { intros l S. apply sorted_last_two in S. vm_compute in S. discriminate. }
  destruct t16, t17, u16, u17; cbn [app] in E; rewrite ?app_nil_r in E.
  all: try (apply app_inv_tail in E; subst; auto; fail).
  all: try (subst; auto; fail).
  all: exfalso.
  all: try (apply (f_equal (@rev ascii)) in E; rewrite !rev_app_distr in E;
            cbn in E; discriminate E).
  (* one side carries two more characters than the other *)
  all: try (change ["1"; "0"; "1"; "1"]%char with (["1"; "0"] ++ ["1"; "1"])%char in E;
            rewrite app_assoc in E; apply app_inv_tail in E).
  all: try (subst X1; now apply bad10 in S1).
  all: try (subst X2; now apply bad10 in S2).
  all: try (subst X1; now apply bad11 in S1).
  all: try (subst X2; now apply bad11 in S2).
  all: try (symmetry in E; subst X1; now apply bad10 in S1).
  all: try (symmetry in E; subst X2; now apply bad10 in S2).
  all: try (subst X1; rewrite app_assoc in S1; now apply bad11 in S1).
  all: try (subst X2; rewrite app_assoc in S2; now apply bad11 in S2).
  - subst X2.
    change (X1 ++ ["1"; "0"; "1"; "1"]%char)
      with (X1 ++ (["1"; "0"] ++ ["1"; "1"]))%char in S2.
    rewrite app_assoc in S2. now apply bad11 in S2.
  - subst X1.
    change (X2 ++ ["1"; "0"; "1"; "1"]%char)
      with (X2 ++ (["1"; "0"] ++ ["1"; "1"]))%char in S1.
    rewrite app_assoc in S1. now apply bad11 in S1.
Qed.

Lemma flat_map_singletons {X Y : Type} (f : X -> list Y) (g : X -> Y) (l : list X) :
  (forall x, In x l -> f x = [g x]) -> flat_map f l = map g l.
Proof.
  induction l as [|x l IH]; intros H; [reflexivity|].
  cbn [flat_map map]. rewrite H by now left. cbn [app]. f_equal.
  apply IH. intros. apply H. now right.
Qed.

(** The characters of a name: the one-character digits of the generators
    of value up to 15, then 10 and 11 for the generators of value 16 and
    17. *)
Lemma blade_name_chars_18 (s : Z) (d : nat) (b : Z) :
  0 <= s -> s + Z.of_nat d <= 18 ->
  let hi := filter (fun ei => 15 - s <? ei) (generators d b) in
  list_ascii_of_string (str_drop 1 (blade_name s d b))
  = map (digit s) (filter (fun ei => ei <=? 15 - s) (generators d b))
      ++ (if existsb (Z.eqb (16 - s)) hi then ["1"; "0"]%char else [])
      ++ (if existsb (Z.eqb (16 - s + 1)) hi then ["1"; "1"]%char else []).
Proof.
  intros Hs Hd hi. unfold blade_name. cbn [str_drop].
  rewrite blade_digits_generators, concat_flat_map, flat_map_concat_map, map_map,
    <- flat_map_concat_map.
  pose proof (generators_sorted d b) as S.
  rewrite (sorted_split (15 - s) _ S) at 1. fold hi.
  rewrite flat_map_app. f_equal.
  - apply flat_map_singletons. intros ei H. apply filter_In in H.
    destruct H as [H L]. apply generators_In in H. apply Z.leb_le in L.
    rewrite hex_one_char by lia. reflexivity.
  - assert (Shi : StronglySorted Z.lt hi) by now apply StronglySorted_filter.
    assert (Fhi : Forall (fun x => x = 16 - s \/ x = 16 - s + 1) hi).
    { apply Forall_forall. intros ei H. apply filter_In in H.
      destruct H as [H L]. apply generators_In in H. apply Z.ltb_lt in L. lia. }
    rewrite (sorted_two_values (16 - s) hi Shi Fhi) at 1.
    rewrite flat_map_app.
    replace (16 - s + 1 + s) with 17 by lia.
    destruct (existsb (Z.eqb (16 - s)) hi), (existsb (Z.eqb (16 - s + 1)) hi);
      cbn [flat_map app];
      replace (16 - s + s) with 16 by lia;
      replace (16 - s + 1 + s) with 17 by lia; reflexivity.
Qed.

(** Names are told apart as long as [start_index + d <= 18]. *)
Lemma blade_name_inj_18 (s : Z) (d : nat) (a b : Z) :
  0 <= s -> s + Z.of_nat d <= 18 ->
  0 <= a < 2 ^ Z.of_nat d -> 0 <= b < 2 ^ Z.of_nat d ->
  blade_name s d a = blade_name s d b -> a = b.
Proof.
  intros Hs Hd Ha Hb E.
  apply (f_equal (fun n => list_ascii_of_string (str_drop 1 n))) in E.
  rewrite !blade_name_chars_18 in E by assumption. cbv zeta in E.
  assert (Slo : forall x,
    StronglySorted (fun c c' => char_rank c < char_rank c')
      (map (digit s) (filter (fun ei => ei <=? 15 - s) (generators d x)))).
  { intros x. apply (StronglySorted_map_in Z.lt).
    - intros u v Hu Hv L. apply filter_In in Hu, Hv.
      destruct Hu as [Hu Lu], Hv as [Hv Lv]. apply generators_In in Hu, Hv.
      apply Z.leb_le in Lu, Lv. unfold digit, char_rank.
      rewrite !hex_char_code by lia.
      destruct (u + s <? 10) eqn:E1, (v + s <? 10) eqn:E2; lia.
    - apply StronglySorted_filter, generators_sorted. }
  apply two_char_tail in E; auto. destruct E as (Elo & E16 & E17).
  apply (generators_inj d); auto.
  rewrite (sorted_split (15 - s) _ (generators_sorted d a)).
  rewrite (sorted_split (15 - s) _ (generators_sorted d b)).
  f_equal.
  - eapply map_inj_in; [|exact Elo].
    intros u v Hu Hv Euv. apply filter_In in Hu, Hv.
    destruct Hu as [Hu Lu], Hv as [Hv Lv]. apply generators_In in Hu, Hv.
    apply Z.leb_le in Lu, Lv. unfold digit in Euv.
    apply hex_char_inj in Euv; lia.
  - assert (T : forall x,
      filter (fun ei => 15 - s <? ei) (generators d x)
      = (if existsb (Z.eqb (16 - s)) (filter (fun ei => 15 - s <? ei) (generators d x))
         then [16 - s] else [])
          ++ (if existsb (Z.eqb (16 - s + 1))
                   (filter (fun ei => 15 - s <? ei) (generators d x))
              then [16 - s + 1] else [])).
    { intros x. apply sorted_two_values.
      - apply StronglySorted_filter, generators_sorted.
      - apply Forall_forall. intros ei H. apply filter_In in H.
        destruct H as [H L]. apply generators_In in H. apply Z.ltb_lt in L. lia. }
    rewrite (T a), (T b), E16, E17. reflexivity.
Qed.

(** The amended C3: when [0 <= start_index] and [start_index + d <= 18]
    (the digit strings are then the sixteen one-character digits and, for
    the values 16 and 17, the strings 10 and 11), [bin2canon] and
    [canon2bin] are inverse bijections between [range(2**d)] and the
    blade names: every index has a name, [canon2bin] takes the name back
    to the index, two indices with one name are equal, and every key of
    [canon2bin] is the name of the index it maps to. *)
Theorem bin2canon_canon2bin_bijection (s : Z) (d : nat)
    (Hs : 0 <= s) (Hd : s + Z.of_nat d <= 18) :
  let bin2canon := Algebra.make_bin2canon s d in
  let canon2bin := Algebra.make_canon2bin bin2canon in
  (forall index, 0 <= index < 2 ^ Z.of_nat d ->
     exists name,
       dict_get Z.eqb bin2canon index = Some name /\
       dict_get String.eqb canon2bin name = Some index) /\
  (forall i j name,
     dict_get Z.eqb bin2canon i = Some name ->
     dict_get Z.eqb bin2canon j = Some name -> i = j) /\
  (forall name index,
     dict_get String.eqb canon2bin name = Some index ->
     0 <= index < 2 ^ Z.of_nat d /\ dict_get Z.eqb bin2canon index = Some name).
Proof.
  intros bin2canon canon2bin. split; [|split].
  - intros i Hi. exists (blade_name s d i). split.
    + now apply bin2canon_get.
    + apply canon2bin_get_blade_name; auto.
      intros a b Ha Hb. now apply blade_name_inj_18.
  - intros i j name Hi Hj.
    apply bin2canon_get_inv in Hi, Hj. destruct Hi as [Hi ->], Hj as [Hj E].
    now apply (blade_name_inj_18 s d).
  - intros name i H. apply canon2bin_get_inv in H. destruct H as [Hi <-].
    split; auto. now apply bin2canon_get.
Qed.

Lemma bin2canon_canon2bin_bijection_witness :
  0 <= 15 /\ 15 + Z.of_nat 2 <= 18 /\
  dict_get Z.eqb (Algebra.make_bin2canon 15 2) 3 = Some "ef10"%string /\
  exists name,
    dict_get Z.eqb (Algebra.make_bin2canon 15 2) 3 = Some name /\
    dict_get String.eqb (Algebra.make_canon2bin (Algebra.make_bin2canon 15 2)) name = Some 3.
Proof.
  assert (Hs : 0 <= 15) by lia.
  assert (Hd : 15 + Z.of_nat 2 <= 18) by (simpl; lia).
  split; [exact Hs|]. split; [exact Hd|]. split; [reflexivity|].
  apply (bin2canon_canon2bin_bijection 15 2 Hs Hd). simpl. lia.
Defined.

(** C3 as stated fails: for [Algebra(18)] the start index resolves to 1,
    the blade of index 3 (generators 0 and 1, digits 1 and 2) and the
    blade of index [2**17] (generator 17, digit string [hex(18)[2:]],
    which is 12) are both named e12, so [bin2canon] is not injective and
    [canon2bin] cannot take every name back to its index. *)
Lemma bijection_fails_at_dimension_18 :
  let s := Algebra.resolve_start_index 0 None in
  let bin2canon := Algebra.make_bin2canon s 18 in
  let canon2bin := Algebra.make_canon2bin bin2canon in
  s = 1 /\
  dict_get Z.eqb bin2canon 3 = Some "e12"%string /\
  dict_get Z.eqb bin2canon (2 ^ 17) = Some "e12"%string /\
  ~ (forall index, 0 <= index < 2 ^ Z.of_nat 18 ->
       exists name,
         dict_get Z.eqb bin2canon index = Some name /\
         dict_get String.eqb canon2bin name = Some index).
Proof.
  cbv zeta. change (Algebra.resolve_start_index 0 None) with 1.
  assert (H3 : 0 <= 3 < 2 ^ Z.of_nat 18) by (simpl; lia).
  assert (H17 : 0 <= 2 ^ 17 < 2 ^ Z.of_nat 18) by (simpl; lia).
  assert (E3 : dict_get Z.eqb (Algebra.make_bin2canon 1 18) 3 = Some "e12"%string).
  { rewrite bin2canon_get by exact H3. vm_compute. reflexivity. }
  assert (E17 : dict_get Z.eqb (Algebra.make_bin2canon 1 18) (2 ^ 17) = Some "e12"%string).
  { rewrite bin2canon_get by exact H17. vm_compute. reflexivity. }
  split; [reflexivity|]. split; [exact E3|]. split; [exact E17|].
  intros H.
  destruct (H 3 H3) as (n3 & A3 & B3). destruct (H (2 ^ 17) H17) as (n17 & A17 & B17).
  rewrite E3 in A3. rewrite E17 in A17.
  inversion A3; inversion A17; subst.
  rewrite B3 in B17. discriminate.
Qed.

(* ================================================================= *)
(** ** More on [_sort_product]: sorted input and the largest swap count *)

Lemma inversions_twice_bound {A : Type} (gtb : A -> A -> bool) (l : list A) :
  (2 * inversions gtb l <= List.length l * (List.length l - 1))%nat.
Proof.
  induction l as [|x l IH]; simpl; [lia|].
  pose proof (count_gt_le_length gtb x l) as H.
  rewrite Nat.sub_0_r. destruct l as [|y l]; simpl in *; nia.
Qed.

Lemma count_gt_all {A : Type} (gtb : A -> A -> bool) (x : A) (l : list A) :
  Forall (fun y => gtb x y = true) l -> count_gt gtb x l = List.length l.
Proof.
  induction 1 as [|y l Hy _ IH]; simpl; [reflexivity|]. now rewrite Hy, IH.
Qed.

Lemma inversions_decreasing {A : Type} (gtb : A -> A -> bool) (l : list A) :
  StronglySorted (fun a b => gtb a b = true) l ->
  (2 * inversions gtb l = List.length l * (List.length l - 1))%nat.
Proof.
  induction 1 as [|x l _ IH Hx]; simpl; [reflexivity|].
  rewrite (count_gt_all gtb x l Hx), Nat.sub_0_r.
  destruct l as [|y l]; simpl in *; nia.
Qed.

(** X1: a word that is already in non-decreasing order is returned as it
    is, with a swap count of 0; a swap count of 0 is returned only for such
    a word; and sorting the result of a call once more changes nothing and
    counts no swap. *)
Theorem sort_product_on_sorted {A : Type} (gtb : A -> A -> bool)
    (gtb_asym : forall a b, gtb a b = true -> gtb b a = false)
    (leb_trans : forall a b c, gtb a b = false -> gtb b c = false -> gtb a c = false)
    (prod : list A) :
  (sorted_list gtb prod -> _sort_product gtb prod = (prod, O)) /\
  (snd (_sort_product gtb prod) = O -> sorted_list gtb prod) /\
  _sort_product gtb (fst (_sort_product gtb prod)) = (fst (_sort_product gtb prod), O).
Proof.
  assert (fixed : forall l, sorted_list gtb l -> _sort_product gtb l = (l, O)).
  { intros l Hl.
    destruct (sort_product_spec gtb gtb_asym leb_trans l) as (Hn & _ & _).
    destruct (sort_product_transposes gtb gtb_asym leb_trans l) as (ts & Hf & Hs).
    apply (inversions_zero_iff gtb) in Hl.
    rewrite Hl in Hn. rewrite Hn in Hs.
    destruct ts; [|discriminate]. simpl in Hf.
    destruct (_sort_product gtb l) as [l' n]. simpl in *. now subst. }
  split; [apply fixed|]. split.
  - intros H0.
    destruct (sort_product_spec gtb gtb_asym leb_trans prod) as (Hn & _ & _).
    rewrite H0 in Hn. now apply (inversions_zero_iff gtb).
  - apply fixed. apply (sort_product_spec gtb gtb_asym leb_trans prod).
Qed.

Lemma sort_product_on_sorted_witness :
  _sort_product char_gtb ["1"; "2"; "2"; "a"]%char = (["1"; "2"; "2"; "a"]%char, O) /\
  _sort_product char_gtb (fst (_sort_product char_gtb ["3"; "1"; "2"]%char))
  = (fst (_sort_product char_gtb ["3"; "1"; "2"]%char), O).
Proof.
  split.
  - apply (sort_product_on_sorted char_gtb char_gtb_asym char_leb_trans).
    repeat constructor.
  - apply (sort_product_on_sorted char_gtb char_gtb_asym char_leb_trans).
Defined.

(** X2: the number of swaps is at most [n * (n - 1) / 2] for a word of
    [n] letters, and a word in strictly decreasing order needs exactly
    that many. *)
Theorem sort_product_swap_bound {A : Type} (gtb : A -> A -> bool)
    (gtb_asym : forall a b, gtb a b = true -> gtb b a = false)
    (leb_trans : forall a b c, gtb a b = false -> gtb b c = false -> gtb a c = false)
    (prod : list A) :
  (2 * snd (_sort_product gtb prod) <= List.length prod * (List.length prod - 1))%nat /\
  (StronglySorted (fun a b => gtb a b = true) prod ->
   (2 * snd (_sort_product gtb prod) = List.length prod * (List.length prod - 1))%nat).
Proof.
  destruct (sort_product_spec gtb gtb_asym leb_trans prod) as (Hn & _ & _).
  rewrite Hn. split.
  - apply inversions_twice_bound.
  - apply inversions_decreasing.
Qed.

Lemma sort_product_swap_bound_witness :
  (2 * snd (_sort_product char_gtb ["c"; "3"; "2"; "1"]%char) = 4 * (4 - 1))%nat.
Proof.
  apply (sort_product_swap_bound char_gtb char_gtb_asym char_leb_trans
           ["c"; "3"; "2"; "1"]%char).
  repeat constructor.
Defined.

(* ================================================================= *)
(** ** Population counts *)

Lemma popcount_step (z : Z) :
  0 <= z -> popcount z = ((if Z.odd z then 1 else 0) + popcount (z / 2))%nat.
Proof.
  intros Hz. rewrite <- Z.div2_div. destruct z as [|p|p]; [reflexivity| |lia].
  destruct p; reflexivity.
Qed.

Lemma popcount_double (j : Z) : 0 <= j -> popcount (2 * j) = popcount j.
Proof. intros Hj. destruct j; [reflexivity|reflexivity|lia]. Qed.

Lemma popcount_double_succ (j : Z) : 0 <= j -> popcount (2 * j + 1) = S (popcount j).
Proof. intros Hj. destruct j; [reflexivity|reflexivity|lia]. Qed.

Lemma range_succ (n : nat) :
  range (Z.of_nat (S n)) = 0 :: map Z.succ (range (Z.of_nat n)).
Proof.
  unfold range. rewrite !Nat2Z.id. cbn [seq map]. f_equal.
  rewrite <- seq_shift, !map_map. apply map_ext. intros a. lia.
Qed.

Lemma range_snoc (n : nat) :
  range (Z.of_nat (S n)) = range (Z.of_nat n) ++ [Z.of_nat n].
Proof.
  unfold range. rewrite !Nat2Z.id, seq_S, map_app. reflexivity.
Qed.

Lemma generators_step (d : nat) (i : Z) :
  0 <= i ->
  generators (S d) i
  = (if Z.odd i then [0] else []) ++ map Z.succ (generators d (i / 2)).
Proof.
  intros Hi. unfold generators. rewrite range_succ. cbn [filter].
  rewrite Z.bit0_odd.
  assert (E : filter (Z.testbit i) (map Z.succ (range (Z.of_nat d)))
              = map Z.succ (filter (Z.testbit (i / 2)) (range (Z.of_nat d)))).
  { assert (R : Forall (fun k => 0 <= k) (range (Z.of_nat d))).
    { apply Forall_forall. intros k Hk. apply range_In in Hk. lia. }
    induction R as [|k l Hk _ IH]; [reflexivity|]. cbn [map filter].
    replace (Z.testbit i (Z.succ k)) with (Z.testbit (i / 2) k).
    - destruct (Z.testbit (i / 2) k); cbn [map]; now rewrite IH.
    - rewrite <- Z.div2_div. now rewrite Z.div2_spec, Z.shiftr_spec by lia. }
  rewrite E. destruct (Z.odd i); reflexivity.
Qed.

Lemma half_range (d : nat) (i : Z) :
  0 <= i < 2 ^ Z.of_nat (S d) -> 0 <= i / 2 < 2 ^ Z.of_nat d.
Proof.
  intros Hi. rewrite Nat2Z.inj_succ, Z.pow_succ_r in Hi by lia.
  split; [apply Z.div_pos; lia|]. apply Z.div_lt_upper_bound; lia.
Qed.

(** The grade of a blade is the number of its generators. *)
Lemma generators_length (d : nat) (i : Z) :
  0 <= i < 2 ^ Z.of_nat d -> List.length (generators d i) = popcount i.
Proof.
  revert i. induction d as [|d IH]; intros i Hi.
  - simpl in Hi. assert (i = 0) by lia. subst i. reflexivity.
  - rewrite generators_step, popcount_step by lia.
    rewrite length_app, length_map, IH by now apply half_range.
    destruct (Z.odd i); reflexivity.
Qed.

Lemma popcount_le (d : nat) (i : Z) :
  0 <= i < 2 ^ Z.of_nat d -> (popcount i <= d)%nat.
Proof.
  intros Hi. rewrite <- (generators_length d i Hi).
  unfold generators.
  pose proof (filter_length_le (Z.testbit i) (range (Z.of_nat d))) as H.
  rewrite range_length, Nat2Z.id in H. exact H.
Qed.

Lemma popcount_ones (g : nat) : popcount (2 ^ Z.of_nat g - 1) = g.
Proof.
  induction g as [|g IH]; [reflexivity|].
  rewrite Nat2Z.inj_succ, Z.pow_succ_r by lia.
  replace (2 * 2 ^ Z.of_nat g - 1) with (2 * (2 ^ Z.of_nat g - 1) + 1) by lia.
  rewrite popcount_double_succ, IH; [reflexivity|].
  pose proof (Z.pow_pos_nonneg 2 (Z.of_nat g)). lia.
Qed.

Lemma popcount_full (d : nat) (i : Z) :
  0 <= i < 2 ^ Z.of_nat d -> popcount i = d -> i = 2 ^ Z.of_nat d - 1.
Proof.
  revert i. induction d as [|d IH]; intros i Hi Hp.
  - simpl in Hi. lia.
  - rewrite popcount_step in Hp by lia.
    pose proof (half_range d i Hi) as Hh.
    pose proof (popcount_le d (i / 2) Hh) as Hle.
    destruct (Z.odd i) eqn:Ho; [|lia].
    assert (E : i / 2 = 2 ^ Z.of_nat d - 1) by (apply IH; [exact Hh|lia]).
    rewrite Nat2Z.inj_succ, Z.pow_succ_r by lia.
    pose proof (Z.div_mod i 2 ltac:(lia)) as Hdm.
    rewrite Zmod_odd, Ho in Hdm. lia.
Qed.

Lemma popcount_zero (i : Z) : popcount i = O -> i = 0.
Proof.
  assert (P : forall p, pos_popcount p <> O).
  { induction p; simpl; auto. }
  destruct i as [|p|p]; simpl; intros H; [reflexivity| |]; now apply P in H.
Qed.

(* ================================================================= *)
(** ** Stable sorting by a numeric key, and the runs of [groupby] *)

Section StableSort.
Context {A : Type}.
Variable key : A -> nat.

Lemma filter_insert_by (g : nat) (x : A) (l : list A) :
  filter (fun y => (key y =? g)%nat) (insert_by Nat.leb key x l)
  = if (key x =? g)%nat then x :: filter (fun y => (key y =? g)%nat) l
    else filter (fun y => (key y =? g)%nat) l.
Proof.
  induction l as [|y l IH]; cbn [insert_by filter].
  - destruct (key x =? g)%nat; reflexivity.
  - destruct (Nat.leb (key x) (key y)) eqn:L; cbn [filter].
    + destruct (key x =? g)%nat; reflexivity.
    + rewrite IH. apply Nat.leb_gt in L.
      destruct (key y =? g)%nat eqn:Ey, (key x =? g)%nat eqn:Ex; try reflexivity.
      apply Nat.eqb_eq in Ey, Ex. lia.
Qed.

(** The sort is stable: the elements with one key keep their order. *)
Lemma filter_sorted_by (g : nat) (l : list A) :
  filter (fun y => (key y =? g)%nat) (sorted_by Nat.leb key l)
  = filter (fun y => (key y =? g)%nat) l.
Proof.
  induction l as [|x l IH]; [reflexivity|]. cbn [sorted_by filter].
  rewrite filter_insert_by, IH. reflexivity.
Qed.

Lemma key_sorted_strongly (l : list A) :
  Sorted (fun a b => Nat.leb (key a) (key b) = true) l ->
  StronglySorted (fun a b => (key a <= key b)%nat) l.
Proof.
  intros H. apply Sorted_StronglySorted in H.
  - induction H as [|x l _ IH Hx]; constructor; auto.
    eapply Forall_impl; [|exact Hx]. intros y Hy. now apply Nat.leb_le.
  - intros a b c Hab Hbc. apply Nat.leb_le in Hab, Hbc. apply Nat.leb_le. lia.
Qed.

Lemma sorted_split_first (a : nat) (l : list A) :
  StronglySorted (fun x y => (key x <= key y)%nat) l ->
  Forall (fun y => (a <= key y)%nat) l ->
  l = filter (fun y => (key y =? a)%nat) l ++ filter (fun y => (a <? key y)%nat) l.
Proof.
  induction 1 as [|x l Hs IH Hx]; intros Ha; [reflexivity|].
  inversion Ha as [|? ? Hax Hal]; subst. cbn [filter].
  destruct (key x =? a)%nat eqn:E.
  - apply Nat.eqb_eq in E. replace (a <? key x)%nat with false
      by (symmetry; apply Nat.ltb_ge; lia).
    cbn [app]. f_equal. now apply IH.
  - apply Nat.eqb_neq in E. replace (a <? key x)%nat with true
      by (symmetry; apply Nat.ltb_lt; lia).
    assert (N : filter (fun y => (key y =? a)%nat) l = []).
    { clear IH Hs Hal Ha. induction Hx as [|y l Hy _ IH']; [reflexivity|].
      cbn [filter]. replace (key y =? a)%nat with false
        by (symmetry; apply Nat.eqb_neq; lia). exact IH'. }
    assert (F : filter (fun y => (a <? key y)%nat) l = l).
    { clear IH Hs Hal Ha N. induction Hx as [|y l Hy _ IH']; [reflexivity|].
      cbn [filter]. replace (a <? key y)%nat with true
        by (symmetry; apply Nat.ltb_lt; lia). now rewrite IH'. }
    rewrite N, F. reflexivity.
Qed.

Lemma filter_filter_key (a g : nat) (l : list A) :
  (a < g)%nat ->
  filter (fun y => (key y =? g)%nat) (filter (fun y => (a <? key y)%nat) l)
  = filter (fun y => (key y =? g)%nat) l.
Proof.
  intros Hag. induction l as [|y l IH]; [reflexivity|]. cbn [filter].
  destruct (a <? key y)%nat eqn:L; cbn [filter]; rewrite IH; [reflexivity|].
  apply Nat.ltb_ge in L.
  replace (key y =? g)%nat with false by (symmetry; apply Nat.eqb_neq; lia).
  reflexivity.
Qed.

Lemma StronglySorted_filter_key (f : A -> bool) (l : list A) :
  StronglySorted (fun x y => (key x <= key y)%nat) l ->
  StronglySorted (fun x y => (key x <= key y)%nat) (filter f l).
Proof.
  induction 1 as [|x l Hs IH Hx]; cbn [filter]; [constructor|].
  destruct (f x); [|exact IH]. constructor; [exact IH|].
  apply Forall_forall. intros y Hy. apply filter_In in Hy.
  rewrite Forall_forall in Hx. now apply Hx.
Qed.

(** A list sorted by a key with values in [a, a + n) is the chain of its
    buckets. *)
Lemma sorted_buckets (n a : nat) (l : list A) :
  StronglySorted (fun x y => (key x <= key y)%nat) l ->
  Forall (fun y => (a <= key y < a + n)%nat) l ->
  l = flat_map (fun g => filter (fun y => (key y =? g)%nat) l) (seq a n).
Proof.
  revert a l. induction n as [|n IH]; intros a l Hs Hk.
  - destruct l as [|x l]; [reflexivity|]. inversion Hk; subst. lia.
  - cbn [seq flat_map].
    rewrite (sorted_split_first a l Hs) at 1
      by (eapply Forall_impl; [|exact Hk]; cbn; intros; lia).
    f_equal.
    rewrite (IH (S a) (filter (fun y => (a <? key y)%nat) l)) at 1.
    + rewrite !flat_map_concat_map. f_equal. apply map_ext_in.
      intros g Hg. apply in_seq in Hg. apply filter_filter_key. lia.
    + now apply StronglySorted_filter_key.
    + apply Forall_forall. intros y Hy. apply filter_In in Hy.
      destruct Hy as [Hy L]. apply Nat.ltb_lt in L.
      rewrite Forall_forall in Hk. specialize (Hk y Hy). lia.
Qed.

Lemma groupby_run (k : nat) (g rest : list A) (T : list (nat * list A)) :
  g <> [] -> Forall (fun x => key x = k) g ->
  groupby Nat.eqb key rest = T ->
  HdRel lt k (map fst T) ->
  groupby Nat.eqb key (g ++ rest) = (k, g) :: T.
Proof.
  intros Hne Hk Hr Hd. induction g as [|x g IH]; [congruence|].
  apply Forall_cons_iff in Hk. destruct Hk as [Hx Hg].
  cbn [app]. rewrite groupby_cons. destruct g as [|y g].
  - cbn [app]. rewrite Hr, Hx. destruct T as [|[k' g'] groups]; [reflexivity|].
    cbn [map fst] in Hd. inversion Hd; subst.
    replace (key x =? k')%nat with false by (symmetry; apply Nat.eqb_neq; lia).
    reflexivity.
  - rewrite IH by (auto; discriminate). now rewrite Hx, Nat.eqb_refl.
Qed.

Lemma groupby_runs (T : list (nat * list A)) :
  Forall (fun kg => snd kg <> [] /\ Forall (fun x => key x = fst kg) (snd kg)) T ->
  Sorted lt (map fst T) ->
  groupby Nat.eqb key (List.concat (map snd T)) = T.
Proof.
  induction 1 as [|[k g] T [Hne Hk] _ IH]; intros Hs; [reflexivity|].
  cbn [map fst snd List.concat] in *. inversion Hs; subst.
  apply groupby_run; auto.
Qed.
End StableSort.

(* ================================================================= *)
(** ** The grade buckets, one by one *)

Lemma dict_get_map_seq {V : Type} (F : nat -> V) (a n g : nat) :
  dict_get Nat.eqb (map (fun g => (g, F g)) (seq a n)) g
  = if ((a <=? g) && (g <? a + n))%nat then Some (F g) else None.
Proof.
  revert a. induction n as [|n IH]; intros a; cbn [seq map dict_get].
  - destruct (a <=? g)%nat eqn:L; [|reflexivity].
    apply Nat.leb_le in L. cbn [andb].
    replace (g <? a + 0)%nat with false by (symmetry; apply Nat.ltb_ge; lia).
    reflexivity.
  - rewrite IH. destruct (Nat.eqb_spec a g) as [->|N].
    + now rewrite Nat.leb_refl, (proj2 (Nat.ltb_lt g (g + S n))) by lia.
    + destruct (Nat.leb_spec a g), (Nat.leb_spec (S a) g); try lia; cbn [andb];
        [|reflexivity].
      destruct (Nat.ltb_spec g (S a + n)), (Nat.ltb_spec g (a + S n)); try lia;
        reflexivity.
Qed.

Lemma indices_for_grade_eq (d : nat) :
  Algebra.indices_for_grade d
  = map (fun g => (g, filter (fun i => (popcount i =? g)%nat) (range (2 ^ Z.of_nat d))))
      (seq 0 (S d)).
Proof.
  rewrite indices_for_grade_groups.
  set (l0 := range (2 ^ Z.of_nat d)).
  set (T := map (fun g => (g, filter (fun i => (popcount i =? g)%nat) l0)) (seq 0 (S d))).
  assert (E : sorted_by Nat.leb grade_key l0 = List.concat (map snd T)).
  { rewrite (sorted_buckets grade_key (S d) 0 (sorted_by Nat.leb grade_key l0)) at 1.
    - rewrite flat_map_concat_map. f_equal. unfold T. rewrite map_map. cbn [snd].
      apply map_ext. intros g. rewrite filter_sorted_by.
      apply filter_ext. intros i. now rewrite grade_key_popcount.
    - apply key_sorted_strongly. apply sorted_by_sorted.
      intros a b H. apply Nat.leb_gt in H. apply Nat.leb_le. lia.
    - apply Forall_forall. intros i Hi.
      apply (Permutation_in _ (sorted_by_perm Nat.leb grade_key l0)) in Hi.
      apply range_In in Hi. rewrite grade_key_popcount.
      pose proof (popcount_le d i Hi). lia. }
  rewrite E. apply groupby_runs.
  - apply Forall_forall. intros [g inds] Hin. apply in_map_iff in Hin.
    destruct Hin as (g' & Eg & Hg). inversion Eg; subst. cbn [fst snd].
    apply in_seq in Hg. split.
    + assert (Hone : In (2 ^ Z.of_nat g - 1)
                       (filter (fun i => (popcount i =? g)%nat) l0)).
      { apply filter_In. split.
        - apply range_In. pose proof (Z.pow_pos_nonneg 2 (Z.of_nat g)).
          assert (2 ^ Z.of_nat g <= 2 ^ Z.of_nat d) by (apply Z.pow_le_mono_r; lia).
          lia.
        - apply Nat.eqb_eq, popcount_ones. }
      intros N. rewrite N in Hone. exact Hone.
    + apply Forall_forall. intros i Hi. apply filter_In in Hi.
      rewrite grade_key_popcount. now apply Nat.eqb_eq.
  - unfold T. rewrite map_map. cbn [fst]. rewrite map_id.
    apply StronglySorted_Sorted. generalize 0%nat. generalize (S d).
    induction n as [|n IH]; intros a; cbn [seq]; constructor; [apply IH|].
    apply Forall_forall. intros x Hx. apply in_seq in Hx. lia.
Qed.

Lemma indices_for_grade_lookup (d g : nat) :
  dict_get Nat.eqb (Algebra.indices_for_grade d) g
  = if (g <=? d)%nat
    then Some (filter (fun i => (popcount i =? g)%nat) (range (2 ^ Z.of_nat d)))
    else None.
Proof.
  rewrite indices_for_grade_eq, dict_get_map_seq. cbn [Nat.leb andb Nat.add].
  destruct (Nat.leb_spec g d), (Nat.ltb_spec g (S d)); try lia; reflexivity.
Qed.

(** X3: [indices_for_grade] has exactly the keys 0, 1, ..., d, in this
    order, and the bucket of grade [g] lists, in increasing order, the
    indices of [range(2**d)] that have [g] bits set. *)
Theorem indices_for_grade_buckets (d : nat) :
  Algebra.indices_for_grade d
  = map (fun g => (g, filter (fun i => (popcount i =? g)%nat) (range (2 ^ Z.of_nat d))))
      (seq 0 (S d)).
Proof. exact (indices_for_grade_eq d). Qed.

Lemma range_double (m : nat) :
  range (Z.of_nat (2 * m)) = flat_map (fun j => [2 * j; 2 * j + 1]) (range (Z.of_nat m)).
Proof.
  induction m as [|m IH]; [reflexivity|].
  replace (2 * S m)%nat with (S (S (2 * m))) by lia.
  rewrite !range_snoc, IH, flat_map_app. cbn [flat_map]. rewrite app_nil_r, <- app_assoc.
  cbn [app]. do 3 f_equal; [|f_equal]; lia.
Qed.

Lemma count_doubled (g : nat) (l : list Z) :
  Forall (fun j => 0 <= j) l ->
  List.length (filter (fun i => (popcount i =? g)%nat)
                 (flat_map (fun j => [2 * j; 2 * j + 1]) l))
  = (List.length (filter (fun j => (popcount j =? g)%nat) l)
     + List.length (filter (fun j => (S (popcount j) =? g)%nat) l))%nat.
Proof.
  induction 1 as [|j l Hj _ IH]; [reflexivity|].
  cbn [flat_map app filter].
  rewrite popcount_double, popcount_double_succ by exact Hj.
  destruct (popcount j =? g)%nat, (S (popcount j) =? g)%nat;
    cbn [List.length]; rewrite IH; lia.
Qed.

Lemma bucket_size (d g : nat) :
  List.length (filter (fun i => (popcount i =? g)%nat) (range (2 ^ Z.of_nat d)))
  = binomial d g.
Proof.
  revert g. induction d as [|d IH]; intros g.
  - destruct g; reflexivity.
  - replace (2 ^ Z.of_nat (S d)) with (Z.of_nat (2 * Z.to_nat (2 ^ Z.of_nat d))).
    2:{ rewrite Nat2Z.inj_succ, Z.pow_succ_r by lia.
        pose proof (Z.pow_pos_nonneg 2 (Z.of_nat d)). lia. }
    rewrite range_double, count_doubled.
    2:{ apply Forall_forall. intros j Hj. apply range_In in Hj. lia. }
    rewrite Z2Nat.id by (pose proof (Z.pow_pos_nonneg 2 (Z.of_nat d)); lia).
    rewrite IH. destruct g as [|g].
    + cbn [binomial]. rewrite (proj2 (length_zero_iff_nil _)); [destruct d; reflexivity|].
      clear IH. induction (range (2 ^ Z.of_nat d)) as [|x l IHl]; [reflexivity|exact IHl].
    + cbn [binomial Nat.eqb]. rewrite IH. lia.
Qed.

(** X4: the bucket of a grade [g <= d] holds [d] choose [g] indices, and
    [indices_for_grade] has no key above [d]. *)
Theorem indices_for_grade_sizes (d g : nat) :
  match dict_get Nat.eqb (Algebra.indices_for_grade d) g with
  | Some inds => (g <= d)%nat /\ List.length inds = binomial d g
  | None => (d < g)%nat
  end.
Proof.
  rewrite indices_for_grade_lookup. destruct (Nat.leb_spec g d).
  - split; [assumption|apply bucket_size].
  - assumption.
Qed.

(* ================================================================= *)
(** ** [indices_for_grades] *)

Lemma tuple_eqb_spec (a b : list nat) : reflect (a = b) (tuple_eqb a b).
Proof.
  revert b. induction a as [|x a IH]; intros [|y b]; cbn [tuple_eqb];
    try (constructor; congruence).
  destruct (Nat.eqb_spec x y) as [->|N]; cbn [andb].
  - destruct (IH b) as [->|N]; constructor; congruence.
  - constructor. congruence.
Qed.

Lemma combinations_nil {A : Type} (l : list A) : combinations l 0 = [[]].
Proof. destruct l; reflexivity. Qed.

Lemma combinations_seq (n a r : nat) (comb : list nat) :
  In comb (combinations (seq a n) r)
  <-> List.length comb = r /\ StronglySorted lt comb /\
      Forall (fun g => (a <= g < a + n)%nat) comb.
Proof.
  revert a r comb. induction n as [|n IH]; intros a r comb.
  - cbn [seq]. destruct r as [|r]; cbn [combinations In].
    + split.
      * intros [<-|[]]. repeat split; constructor.
      * intros (L & _ & _). apply length_zero_iff_nil in L. now left.
    + split; [intros []|]. intros (L & _ & F).
      destruct comb as [|g comb]; [discriminate|]. inversion F; subst. lia.
  - cbn [seq]. destruct r as [|r].
    + rewrite combinations_nil. cbn [In]. split.
      * intros [<-|[]]. repeat split; constructor.
      * intros (L & _ & _). apply length_zero_iff_nil in L. now left.
    + cbn [combinations]. rewrite in_app_iff, in_map_iff. split.
      * intros [(c & <- & Hc)|Hc].
        -- apply IH in Hc. destruct Hc as (L & S' & F). cbn [List.length].
           split; [lia|]. split.
           ++ constructor; [exact S'|]. eapply Forall_impl; [|exact F].
              cbn. intros; lia.
           ++ constructor; [lia|]. eapply Forall_impl; [|exact F]. cbn. intros; lia.
        -- apply IH in Hc. destruct Hc as (L & S' & F).
           split; [exact L|]. split; [exact S'|].
           eapply Forall_impl; [|exact F]. cbn. intros; lia.
      * intros (L & S' & F). destruct comb as [|g comb]; [discriminate|].
        inversion S' as [|? ? S'' Hg]; subst. inversion F as [|? ? Fg F']; subst.
        destruct (Nat.eq_dec g a) as [->|N].
        -- left. exists comb. split; [reflexivity|]. apply IH.
           cbn [List.length] in L. split; [lia|]. split; [exact S''|].
           rewrite Forall_forall in *. intros x Hx.
           specialize (Hg x Hx). specialize (F' x Hx). lia.
        -- right. apply IH. split; [exact L|]. split; [exact S'|].
           constructor; [lia|].
           rewrite Forall_forall in *. intros x Hx.
           specialize (Hg x Hx). specialize (F' x Hx). lia.
Qed.

Lemma strictly_sorted_length (comb : list nat) (a n : nat) :
  StronglySorted lt comb -> Forall (fun g => (a <= g < a + n)%nat) comb ->
  (List.length comb <= n)%nat.
Proof.
  revert a n. induction comb as [|g comb IH]; intros a n S' F; cbn [List.length]; [lia|].
  inversion S' as [|? ? S'' Hg]; subst. inversion F as [|? ? Fg F']; subst.
  assert (H : (List.length comb <= a + n - S g)%nat).
  { apply (IH (S g)); [exact S''|].
    rewrite Forall_forall in *. intros x Hx.
    specialize (Hg x Hx). specialize (F' x Hx). lia. }
  lia.
Qed.

Lemma pow2_gt (d : nat) : (d < Z.to_nat (2 ^ Z.of_nat d))%nat.
Proof.
  induction d as [|d IH]; [simpl; lia|].
  rewrite Nat2Z.inj_succ, Z.pow_succ_r by lia.
  pose proof (Z.pow_pos_nonneg 2 (Z.of_nat d)). lia.
Qed.

Lemma all_grade_combs_In (d : nat) (comb : list nat) :
  In comb (flat_map (fun j => combinations (seq 0 (d + 1)) j)
             (seq 1 (Z.to_nat (Algebra.__len__ d))))
  <-> comb <> [] /\ StronglySorted lt comb /\ Forall (fun g => (g <= d)%nat) comb.
Proof.
  rewrite in_flat_map. split.
  - intros (j & Hj & Hc). apply in_seq in Hj. apply combinations_seq in Hc.
    destruct Hc as (L & S' & F). split; [|split; [exact S'|]].
    + intros ->. cbn in L. lia.
    + eapply Forall_impl; [|exact F]. cbn. intros; lia.
  - intros (Hne & S' & F). exists (List.length comb).
    assert (F' : Forall (fun g => (0 <= g < 0 + (d + 1))%nat) comb).
    { eapply Forall_impl; [|exact F]. cbn. intros; lia. }
    split.
    + apply in_seq. pose proof (strictly_sorted_length comb 0 (d + 1) S' F').
      pose proof (pow2_gt d). unfold Algebra.__len__.
      destruct comb; [congruence|]. cbn [List.length] in *. lia.
    + apply combinations_seq. auto.
Qed.

Lemma chain_buckets (d : nat) (comb : list nat) (tup : list Z) :
  Forall (fun g => (g <= d)%nat) comb ->
  for_each
    (fun tup grade =>
       t <- dict_getitem Nat.eqb (Algebra.indices_for_grade d) grade ;; Ok (tup ++ t))
    comb tup
  = Ok (tup ++ flat_map
                 (fun g => filter (fun i => (popcount i =? g)%nat) (range (2 ^ Z.of_nat d)))
                 comb).
Proof.
  intros F. revert tup. induction F as [|g comb Hg _ IH]; intros tup; cbn [for_each flat_map].
  - now rewrite app_nil_r.
  - unfold dict_getitem at 1. rewrite indices_for_grade_lookup.
    rewrite (proj2 (Nat.leb_le g d) Hg). cbn [bind]. rewrite IH, app_assoc. reflexivity.
Qed.

Section DictComprehension.
Context {K V : Type}.
Variable eqb : K -> K -> bool.
Hypothesis eqb_spec : forall a b, reflect (a = b) (eqb a b).
Variable F : K -> V.

Lemma dict_get_comprehension (keys : list K) (k : K) :
  (In k keys -> dict_get eqb (dict_of_items eqb (map (fun k => (k, F k)) keys)) k
                = Some (F k)) /\
  (~ In k keys -> dict_get eqb (dict_of_items eqb (map (fun k => (k, F k)) keys)) k
                  = None).
Proof.
  induction keys as [|x keys IH] using rev_ind.
  - split; [intros []|reflexivity].
  - rewrite map_app. cbn [map]. rewrite (dict_of_items_snoc eqb).
    destruct (eqb_spec x k) as [->|N].
    + split; intros H.
      * now rewrite (dict_get_set_eq eqb eqb_spec).
      * exfalso. apply H. apply in_app_iff. right. now left.
    + rewrite (dict_get_set_ne eqb eqb_spec) by exact N.
      destruct IH as [IH1 IH2]. split; intros H.
      * apply IH1. apply in_app_iff in H. destruct H as [H|[H|[]]]; congruence.
      * apply IH2. intros H'. apply H. apply in_app_iff. now left.
Qed.

Lemma for_each_comprehension (f : K -> result V) (keys : list K) (acc : list (K * V)) :
  (forall k, In k keys -> f k = Ok (F k)) ->
  for_each (fun acc k => v <- f k ;; Ok (dict_set eqb acc k v)) keys acc
  = Ok (fold_left (fun d kv => dict_set eqb d (fst kv) (snd kv))
          (map (fun k => (k, F k)) keys) acc).
Proof.
  revert acc. induction keys as [|k keys IH]; intros acc Hf; [reflexivity|].
  cbn [for_each map fold_left fst snd].
  rewrite (Hf k) by now left. cbn [bind]. apply IH.
  intros k' Hk'. apply Hf. now right.
Qed.
End DictComprehension.

Lemma indices_for_grades_eq (d : nat) :
  Algebra.indices_for_grades d
  = Ok (dict_of_items tuple_eqb
          (map (fun comb =>
                  (comb,
                   flat_map
                     (fun g => filter (fun i => (popcount i =? g)%nat)
                                 (range (2 ^ Z.of_nat d)))
                     comb))
             (flat_map (fun j => combinations (seq 0 (d + 1)) j)
                (seq 1 (Z.to_nat (Algebra.__len__ d)))))).
Proof.
  unfold Algebra.indices_for_grades, dict_of_items.
  apply (for_each_comprehension tuple_eqb).
  intros comb Hc. apply all_grade_combs_In in Hc. destruct Hc as (_ & _ & F).
  now rewrite chain_buckets.
Qed.

(** X5: [indices_for_grades] never raises; its keys are the non-empty
    strictly increasing tuples of grades up to [d], and the value of a key
    is the chain of the buckets of its grades: the indices of
    [range(2**d)] whose number of set bits is in the key, grade by grade
    and increasing within a grade. *)
Theorem indices_for_grades_spec (d : nat) :
  exists D,
    Algebra.indices_for_grades d = Ok D /\
    forall comb,
      (comb <> [] /\ StronglySorted lt comb /\ Forall (fun g => (g <= d)%nat) comb ->
       dict_get tuple_eqb D comb
       = Some (flat_map
                 (fun g => filter (fun i => (popcount i =? g)%nat)
                             (range (2 ^ Z.of_nat d)))
                 comb)) /\
      (dict_get tuple_eqb D comb <> None ->
       comb <> [] /\ StronglySorted lt comb /\ Forall (fun g => (g <= d)%nat) comb).
Proof.
  eexists. split; [apply indices_for_grades_eq|]. intros comb.
  pose proof (dict_get_comprehension tuple_eqb tuple_eqb_spec
                (fun comb =>
                   flat_map
                     (fun g => filter (fun i => (popcount i =? g)%nat)
                                 (range (2 ^ Z.of_nat d)))
                     comb)
                (flat_map (fun j => combinations (seq 0 (d + 1)) j)
                   (seq 1 (Z.to_nat (Algebra.__len__ d)))) comb) as [H1 H2].
  split.
  - intros Hc. apply H1. now apply all_grade_combs_In.
  - intros Hn. apply all_grade_combs_In.
    destruct (in_dec (list_eq_dec Nat.eq_dec) comb
                (flat_map (fun j => combinations (seq 0 (d + 1)) j)
                   (seq 1 (Z.to_nat (Algebra.__len__ d))))) as [Hin|Hout];
      [exact Hin|]. now apply H2 in Hout.
Qed.

(* ================================================================= *)
(** ** [_reverse_keys] *)

Lemma reverse_keys_eq (d : nat) :
  Algebra._reverse_keys d
  = flat_map
      (fun g => filter (fun i => (popcount i =? g)%nat) (range (2 ^ Z.of_nat d)))
      (filter (fun g => negb ((g / 2) mod 2 =? 0)%nat) (seq 0 (S d))).
Proof.
  unfold Algebra._reverse_keys. rewrite indices_for_grade_eq, flat_map_concat_map.
  f_equal. induction (seq 0 (S d)) as [|g l IH]; [reflexivity|].
  cbn [map filter fst]. destruct (negb ((g / 2) mod 2 =? 0)%nat); cbn [map snd];
    now rewrite IH.
Qed.

Lemma buckets_NoDup (n : Z) (gs : list nat) :
  NoDup gs ->
  NoDup (flat_map (fun g => filter (fun i => (popcount i =? g)%nat) (range n)) gs).
Proof.
  induction 1 as [|g gs Hg _ IH]; cbn [flat_map]; [constructor|].
  apply NoDup_app; [apply NoDup_filter, range_NoDup|exact IH|].
  intros i Hi Hi'. apply filter_In in Hi. destruct Hi as [_ Hi].
  apply Nat.eqb_eq in Hi. apply in_flat_map in Hi'.
  destruct Hi' as (g' & Hg' & Hi'). apply filter_In in Hi'. destruct Hi' as [_ Hi'].
  apply Nat.eqb_eq in Hi'. congruence.
Qed.

Lemma half_odd_mod4 (g : nat) :
  negb ((g / 2) mod 2 =? 0)%nat = true <-> (g mod 4 = 2 \/ g mod 4 = 3)%nat.
Proof.
  rewrite negb_true_iff, Nat.eqb_neq.
  pose proof (Nat.div_mod_eq g 4) as H4. pose proof (Nat.mod_upper_bound g 4) as B4.
  pose proof (Nat.div_mod_eq g 2) as H2. pose proof (Nat.mod_upper_bound g 2) as B2.
  pose proof (Nat.div_mod_eq (g / 2) 2) as H22.
  pose proof (Nat.mod_upper_bound (g / 2) 2) as B22. lia.
Qed.

(** X6: [_reverse_keys] lists, without repetition, exactly the indices of
    [range(2**d)] whose grade leaves the remainder 2 or 3 when divided by
    four. *)
Theorem reverse_keys_spec (d : nat) :
  NoDup (Algebra._reverse_keys d) /\
  forall i,
    In i (Algebra._reverse_keys d)
    <-> 0 <= i < 2 ^ Z.of_nat d /\ (popcount i mod 4 = 2 \/ popcount i mod 4 = 3)%nat.
Proof.
  rewrite reverse_keys_eq. split.
  - apply buckets_NoDup, NoDup_filter, seq_NoDup.
  - intros i. rewrite in_flat_map. split.
    + intros (g & Hg & Hi). apply filter_In in Hg, Hi.
      destruct Hg as [_ Hg], Hi as [Hr Hi]. apply range_In in Hr.
      apply Nat.eqb_eq in Hi. subst g. split; [exact Hr|]. now apply half_odd_mod4.
    + intros [Hr Hm]. exists (popcount i). split.
      * apply filter_In. split; [|now apply half_odd_mod4].
        apply in_seq. pose proof (popcount_le d i Hr). lia.
      * apply filter_In. split; [now apply range_In|apply Nat.eqb_refl].
Qed.

Lemma StronglySorted_rev {X : Type} (R : X -> X -> Prop) (l : list X) :
  StronglySorted R l -> StronglySorted (fun a b => R b a) (rev l).
Proof.
  induction 1 as [|x l _ IH Hx]; cbn [rev]; [constructor|].
  apply StronglySorted_snoc. split; [exact IH|].
  apply Forall_forall. intros a Ha. apply in_rev in Ha.
  rewrite Forall_forall in Hx. now apply Hx.
Qed.

Lemma triangle_parity (k n : nat) :
  (2 * n = k * (k - 1))%nat ->
  Nat.odd n = true <-> (k mod 4 = 2 \/ k mod 4 = 3)%nat.
Proof.
  intros H.
  pose proof (Nat.div_mod_eq k 4) as H4. pose proof (Nat.mod_upper_bound k 4) as B4.
  set (q := (k / 4)%nat) in *. set (r := (k mod 4)%nat) in *.
  assert (C : (r = 0 \/ r = 1 \/ r = 2 \/ r = 3)%nat) by lia.
  destruct C as [E|[E|[E|E]]]; rewrite E in *.
  - assert (En : (n = 0 + 2 * (q * (4 * q - 1)))%nat) by nia.
    rewrite En, Nat.odd_add_mul_2. cbn. split; [discriminate|lia].
  - assert (En : (n = 0 + 2 * (q * (4 * q + 1)))%nat) by nia.
    rewrite En, Nat.odd_add_mul_2. cbn. split; [discriminate|lia].
  - assert (En : (n = 1 + 2 * (4 * q * q + 3 * q))%nat) by nia.
    rewrite En, Nat.odd_add_mul_2. cbn. split; [lia|reflexivity].
  - assert (En : (n = 1 + 2 * (4 * q * q + 5 * q + 1))%nat) by nia.
    rewrite En, Nat.odd_add_mul_2. cbn. split; [lia|reflexivity].
Qed.

(** X7: for a blade of grade [k] whose generators have one-character
    digits, putting the digits of its name in reverse order and sorting
    them back takes [k * (k - 1) / 2] swaps, and this number is odd
    exactly for the indices in [_reverse_keys]: these are the blades that
    change sign under reversion. *)
Theorem reverse_keys_reversal (s : Z) (d : nat) (i : Z)
    (Hs : 0 <= s) (Hd : s + Z.of_nat d <= 16) (Hi : 0 <= i < 2 ^ Z.of_nat d) :
  let swaps := snd (_sort_product char_gtb (rev (digit_chars s d i))) in
  (2 * swaps = popcount i * (popcount i - 1))%nat /\
  (Nat.odd swaps = true <-> In i (Algebra._reverse_keys d)).
Proof.
  intros swaps.
  assert (E : (2 * swaps = popcount i * (popcount i - 1))%nat).
  { unfold swaps.
    destruct (sort_product_spec char_gtb char_gtb_asym char_leb_trans
                (rev (digit_chars s d i))) as (Hn & _ & _).
    rewrite Hn, inversions_decreasing.
    - rewrite length_rev, digit_chars_map, length_map, generators_length by exact Hi.
      reflexivity.
    - pose proof (StronglySorted_rev _ _ (digit_chars_sorted s d Hs Hd i)) as S'.
      eapply StronglySorted_weaken; [|exact S']. cbn. intros a b Hab.
      rewrite char_gtb_rank. now apply Z.ltb_lt. }
  split; [exact E|].
  rewrite (triangle_parity _ _ E).
  rewrite reverse_keys_eq, in_flat_map. split.
  - intros Hm. exists (popcount i). split.
    + apply filter_In. split; [|now apply half_odd_mod4].
      apply in_seq. pose proof (popcount_le d i Hi). lia.
    + apply filter_In. split; [now apply range_In|apply Nat.eqb_refl].
  - intros (g & Hg & Hin). apply filter_In in Hg, Hin.
    destruct Hg as [_ Hg], Hin as [_ Hin]. apply Nat.eqb_eq in Hin. subst g.
    now apply half_odd_mod4.
Qed.

Lemma reverse_keys_reversal_witness :
  (2 * snd (_sort_product char_gtb (rev (digit_chars 1 3 6))) = 2 * (2 - 1))%nat /\
  In 6 (Algebra._reverse_keys 3).
Proof.
  assert (Hs : 0 <= 1) by lia.
  assert (Hd : 1 + Z.of_nat 3 <= 16) by (simpl; lia).
  assert (Hi : 0 <= 6 < 2 ^ Z.of_nat 3) by (simpl; lia).
  destruct (reverse_keys_reversal 1 3 6 Hs Hd Hi) as [E P].
  split; [exact E|]. apply P. vm_compute. reflexivity.
Defined.

(* ================================================================= *)
(** ** The length of a name and the order of [canon2bin] *)

Lemma string_of_list_ascii_length (l : list ascii) :
  String.length (string_of_list_ascii l) = List.length l.
Proof. induction l as [|c l IH]; cbn; congruence. Qed.

Lemma blade_name_length_valid (s : Z) (d : nat) (i : Z) :
  0 <= s -> s + Z.of_nat d <= 16 -> 0 <= i < 2 ^ Z.of_nat d ->
  String.length (blade_name s d i) = S (popcount i).
Proof.
  intros Hs Hd Hi. rewrite blade_name_chars by assumption.
  cbn [String.length]. rewrite string_of_list_ascii_length.
  unfold digit_chars. now rewrite length_map, generators_length.
Qed.

(** X8: when every generator has a one-character digit, the name of a
    blade has one character per generator after the leading [e], so its
    length is the grade plus one, and [e] alone names the scalar blade
    only. *)
Theorem blade_name_length (s : Z) (d : nat) (i : Z)
    (Hs : 0 <= s) (Hd : s + Z.of_nat d <= 16) (Hi : 0 <= i < 2 ^ Z.of_nat d) :
  dict_get Z.eqb (Algebra.make_bin2canon s d) i = Some (blade_name s d i) /\
  String.length (blade_name s d i) = S (popcount i) /\
  (blade_name s d i = "e"%string <-> i = 0).
Proof.
  split; [now apply bin2canon_get|].
  pose proof (blade_name_length_valid s d i Hs Hd Hi) as L.
  split; [exact L|]. split.
  - intros E. rewrite E in L. cbn in L. apply popcount_zero. lia.
  - intros ->. apply blade_name_0.
Qed.

Lemma blade_name_length_witness :
  dict_get Z.eqb (Algebra.make_bin2canon 1 4) 11 = Some (blade_name 1 4 11) /\
  String.length (blade_name 1 4 11) = S (popcount 11) /\
  (blade_name 1 4 11 = "e"%string <-> 11 = 0).
Proof.
  apply (blade_name_length 1 4 11); simpl; lia.
Defined.

Lemma name_key_leb_total (a b : nat * string) :
  name_key_leb a b = false -> name_key_leb b a = true.
Proof.
  unfold name_key_leb. intros H. apply orb_false_iff in H. destruct H as [H1 H2].
  apply Nat.ltb_ge in H1. destruct (Nat.ltb_spec (fst b) (fst a)); [reflexivity|].
  assert (E : fst a = fst b) by lia. rewrite E, Nat.eqb_refl in *. cbn [andb orb] in *.
  destruct (String.leb_total (snd a) (snd b)); congruence.
Qed.

Lemma make_canon2bin_sorted_by (b2c : list (Z * string)) :
  Algebra.make_canon2bin b2c
  = sorted_by name_key_leb name_key
      (dict_of_items String.eqb (map (fun bc => (snd bc, fst bc)) b2c)).
Proof.
  unfold Algebra.make_canon2bin.
  apply (dict_of_items_distinct String.eqb String.eqb_spec).
  eapply Permutation_NoDup.
  - apply Permutation_map. apply Permutation_sym. apply sorted_by_perm.
  - apply (dict_of_items_NoDup String.eqb String.eqb_spec).
Qed.

Lemma Sorted_impl_in {X : Type} (R R' : X -> X -> Prop) (l : list X) :
  (forall x y, In x l -> In y l -> R x y -> R' x y) -> Sorted R l -> Sorted R' l.
Proof.
  intros H S'. induction S' as [|x l S' IH Hd]; constructor.
  - apply IH. intros a b Ha Hb. apply H; now right.
  - destruct Hd as [|y l Hxy]; constructor. apply H; [now left|right; now left|exact Hxy].
Qed.

Lemma StronglySorted_last {X : Type} (R : X -> X -> Prop) (l : list X) (dflt x : X) :
  StronglySorted R l -> In x l -> x = last l dflt \/ R x (last l dflt).
Proof.
  induction 1 as [|a l S' IH Ha]; intros Hx; [destruct Hx|].
  destruct l as [|b l]; [destruct Hx as [->|[]]; now left|].
  change (last (a :: b :: l) dflt) with (last (b :: l) dflt).
  destruct Hx as [->|Hx]; [|now apply IH].
  right. rewrite Forall_forall in Ha. apply Ha.
  clear. revert b. induction l as [|c l IH]; intros b; [now left|].
  right. apply IH.
Qed.

Lemma canon2bin_length (s : Z) (d : nat) :
  (forall a b, 0 <= a < 2 ^ Z.of_nat d -> 0 <= b < 2 ^ Z.of_nat d ->
     blade_name s d a = blade_name s d b -> a = b) ->
  List.length (Algebra.make_canon2bin (Algebra.make_bin2canon s d))
  = Z.to_nat (2 ^ Z.of_nat d).
Proof.
  intros Hinj. rewrite (Permutation_length (make_canon2bin_perm _)).
  rewrite make_bin2canon_items, map_map. cbn [fst snd].
  rewrite (dict_of_items_distinct String.eqb String.eqb_spec).
  - now rewrite length_map, range_length.
  - rewrite map_map. cbn [fst].
    apply NoDup_map_NoDup_ForallPairs; [|apply range_NoDup].
    intros a b Ha Hb. apply range_In in Ha, Hb. now apply Hinj.
Qed.

(** X9: when every generator has a one-character digit, [canon2bin] has
    one entry for each of the [2**d] blades, ordered by the length of the
    name and then by the name, so that the grades never decrease along
    the dictionary; the scalar blade [e] comes first and the pseudoscalar
    last. *)
Theorem canon2bin_order (s : Z) (d : nat)
    (Hs : 0 <= s) (Hd : s + Z.of_nat d <= 16) :
  let canon2bin := Algebra.make_canon2bin (Algebra.make_bin2canon s d) in
  List.length canon2bin = Z.to_nat (2 ^ Z.of_nat d) /\
  Sorted (fun x y => name_key_leb (name_key x) (name_key y) = true) canon2bin /\
  StronglySorted (fun x y => (popcount (snd x) <= popcount (snd y))%nat) canon2bin /\
  hd_error canon2bin = Some ("e"%string, 0) /\
  last canon2bin ("e"%string, 0)
  = (blade_name s d (2 ^ Z.of_nat d - 1), 2 ^ Z.of_nat d - 1).
Proof.
  intros canon2bin.
  assert (L : List.length canon2bin = Z.to_nat (2 ^ Z.of_nat d)).
  { apply canon2bin_length. intros a b Ha Hb. now apply blade_name_inj. }
  assert (S1 : Sorted (fun x y => name_key_leb (name_key x) (name_key y) = true)
                 canon2bin).
  { unfold canon2bin. rewrite make_canon2bin_sorted_by.
    apply sorted_by_sorted. apply name_key_leb_total. }
  assert (M : forall x, In x canon2bin ->
                0 <= snd x < 2 ^ Z.of_nat d /\ fst x = blade_name s d (snd x)).
  { intros [c b] Hx. apply canon2bin_In in Hx. cbn [fst snd]. intuition congruence. }
  assert (S2 : StronglySorted (fun x y => (popcount (snd x) <= popcount (snd y))%nat)
                 canon2bin).
  { apply Sorted_StronglySorted; [intros a b c; lia|].
    eapply Sorted_impl_in; [|exact S1]. cbn beta.
    intros x y Hx Hy Hk. destruct (M x Hx) as [Rx Ex], (M y Hy) as [Ry Ey].
    pose proof (blade_name_length_valid s d (snd x) Hs Hd Rx) as Lx.
    pose proof (blade_name_length_valid s d (snd y) Hs Hd Ry) as Ly.
    unfold name_key_leb, name_key in Hk. cbn [fst snd] in Hk.
    rewrite Ex, Ey, Lx, Ly in Hk.
    apply orb_true_iff in Hk. destruct Hk as [Hk|Hk].
    - apply Nat.ltb_lt in Hk. lia.
    - apply andb_true_iff in Hk. destruct Hk as [Hk _]. apply Nat.eqb_eq in Hk. lia. }
  pose proof (Z.pow_pos_nonneg 2 (Z.of_nat d) ltac:(lia) ltac:(lia)) as Hpos.
  assert (In0 : In ("e"%string, 0) canon2bin).
  { apply (dict_get_In String.eqb String.eqb_spec).
    rewrite <- (blade_name_0 s d). apply canon2bin_get_blade_name; [|lia].
    intros a b Ha Hb. now apply blade_name_inj. }
  assert (InT : In (blade_name s d (2 ^ Z.of_nat d - 1), 2 ^ Z.of_nat d - 1) canon2bin).
  { apply (dict_get_In String.eqb String.eqb_spec).
    apply canon2bin_get_blade_name; [|lia].
    intros a b Ha Hb. now apply blade_name_inj. }
  split; [exact L|]. split; [exact S1|]. split; [exact S2|]. split.
  - destruct canon2bin as [|[c b] rest] eqn:E; [destruct In0|]. cbn [hd_error].
    destruct (M (c, b) ltac:(now left)) as [Rb Eb]. cbn [fst snd] in Rb, Eb.
    assert (b = 0).
    { destruct In0 as [In0|In0]; [congruence|].
      inversion S2 as [|? ? _ F]; subst. rewrite Forall_forall in F.
      specialize (F _ In0). cbn [snd popcount] in F. apply popcount_zero. lia. }
    subst b. now rewrite Eb, blade_name_0.
  - destruct (StronglySorted_last _ canon2bin ("e"%string, 0) _ S2 InT) as [E|Le];
      [now symmetry|].
    cbn [snd] in Le. rewrite popcount_ones in Le.
    assert (Hl : In (last canon2bin ("e"%string, 0)) canon2bin).
    { destruct canon2bin as [|x rest]; [destruct In0|]. clear.
      revert x. induction rest as [|y rest IH]; intros x; [now left|].
      right. apply IH. }
    destruct (M _ Hl) as [Rl El].
    destruct (last canon2bin ("e"%string, 0)) as [c b]. cbn [fst snd] in *.
    assert (b = 2 ^ Z.of_nat d - 1).
    { apply popcount_full; [exact Rl|]. pose proof (popcount_le d b Rl). lia. }
    subst b. now rewrite El.
Qed.

Lemma canon2bin_order_witness :
  List.length (Algebra.make_canon2bin (Algebra.make_bin2canon 1 3))
  = Z.to_nat (2 ^ Z.of_nat 3) /\
  hd_error (Algebra.make_canon2bin (Algebra.make_bin2canon 1 3)) = Some ("e"%string, 0).
Proof.
  assert (Hs : 0 <= 1) by lia.
  assert (Hd : 1 + Z.of_nat 3 <= 16) by (simpl; lia).
  destruct (canon2bin_order 1 3 Hs Hd) as (L & _ & _ & H & _).
  split; [exact L|exact H].
Defined.

(* ================================================================= *)
(** ** [pretty_blade] and [_bin2canon_prettystr] *)



Lemma pretty_blade_scalar : Algebra.pretty_blade "e" = code_points "1".
Proof. reflexivity. Qed.








(* ================================================================= *)
(** ** The table that [graph] hands to ganja.js *)

Lemma for_each_collect {X Y : Type} (body : list Y -> X -> result (list Y))
    (P : X -> Y -> Prop) (xs : list X) (acc : list Y) :
  (forall acc x, In x xs -> exists y, body acc x = Ok (acc ++ [y]) /\ P x y) ->
  exists ys, for_each body xs acc = Ok (acc ++ ys) /\ Forall2 P xs ys.
Proof.
  revert acc. induction xs as [|x xs IH]; intros acc H; cbn [for_each].
  - exists []. rewrite app_nil_r. split; [reflexivity|constructor].
  - destruct (H acc x (or_introl eq_refl)) as (y & E & Py). rewrite E. cbn [bind].
    destruct (IH (acc ++ [y])) as (ys & E' & F).
    { intros acc' x' Hx'. apply H. now right. }
    exists (y :: ys). rewrite E', <- app_assoc. split; [reflexivity|now constructor].
Qed.

Lemma Forall2_nth_error {X Y : Type} (P : X -> Y -> Prop) (l : list X) (l' : list Y)
    (k : nat) (x : X) :
  Forall2 P l l' -> nth_error l k = Some x ->
  exists y, nth_error l' k = Some y /\ P x y.
Proof.
  intros F. revert k. induction F as [|a b l l' Pab _ IH]; intros [|k] H;
    cbn [nth_error] in *; try discriminate.
  - injection H as <-. eauto.
  - now apply IH.
Qed.

(** The entry of a string that ends in the character [x]. *)
Lemma graph_cayley_entry_snoc (l : list ascii) (x : ascii) :
  Algebra.graph_cayley_entry (string_of_list_ascii (l ++ [x]))
  = Ok (if Ascii.eqb x "e" then (string_of_list_ascii l ++ "1")%string
        else string_of_list_ascii (l ++ [x])).
Proof.
  unfold Algebra.graph_cayley_entry, str_last, str_init.
  rewrite list_ascii_of_string_of_list_ascii, rev_app_distr. cbn [rev app bind].
  rewrite removelast_last. destruct (Ascii.eqb x "e"); reflexivity.
Qed.

Lemma graph_cayley_entry_total (c : ascii) (rest : string) :
  exists entry, Algebra.graph_cayley_entry (String c rest) = Ok entry.
Proof.
  destruct (exists_last (l := list_ascii_of_string (String c rest))) as (l & x & E);
    [discriminate|].
  rewrite <- (string_of_list_ascii_of_string (String c rest)), E.
  rewrite graph_cayley_entry_snoc. eauto.
Qed.

Lemma blade_product_nonempty (sig : list Z) (s : Z) (eI eJ : string)
    (sw : nat) (sg : Z) (str : string) :
  blade_product sig s eI eJ = Ok (sw, sg, str) -> exists c rest, str = String c rest.
Proof.
  unfold blade_product.
  destruct (if (List.length _ =? 0)%nat then _ else _) as [prod swaps].
  destruct (for_each _ _ _) as [[sign count]|e]; cbn [bind]; [|discriminate].
  intros H. injection H as _ _ <-. unfold Algebra.cayley_string.
  destruct (sign =? 0); [eauto|]. destruct (sign =? -1); cbn; eauto.
Qed.

(** For an algebra that was built, no lookup made by [graph] for its
    table fails. *)
Lemma graph_cayley_table_built (p0 q0 r0 : nat) (sig0 : option (list Z)) (si : option Z)
    (opts : Options) (b : Built) :
  __post_init__ p0 q0 r0 sig0 si opts = Ok b ->
  let a := algebra b in
  exists table,
    Algebra.graph_cayley_table a = Ok table /\
    Forall2
      (fun eJ row =>
         Forall2
           (fun eI entry =>
              exists str,
                dict_get pair_eqb (Algebra.cayley a) (eJ, eI) = Some str /\
                Algebra.graph_cayley_entry str = Ok entry)
           (dict_keys (Algebra.canon2bin a)) row)
      (dict_keys (Algebra.canon2bin a)) table.
Proof.
  intros Hb a. unfold Algebra.graph_cayley_table.
  destruct (for_each_collect
              (fun rows eJ =>
                 row <- for_each
                          (fun row eI =>
                             s <- dict_getitem pair_eqb (Algebra.cayley a) (eJ, eI) ;;
                             entry <- Algebra.graph_cayley_entry s ;;
                             Ok (row ++ [entry]))
                          (dict_keys (Algebra.canon2bin a)) [] ;;
                 Ok (rows ++ [row]))
              (fun eJ row =>
                 Forall2
                   (fun eI entry =>
                      exists str,
                        dict_get pair_eqb (Algebra.cayley a) (eJ, eI) = Some str /\
                        Algebra.graph_cayley_entry str = Ok entry)
                   (dict_keys (Algebra.canon2bin a)) row)
              (dict_keys (Algebra.canon2bin a)) []) as (table & E & F).
  - intros rows eJ HJ.
    destruct (for_each_collect
                (fun row eI =>
                   s <- dict_getitem pair_eqb (Algebra.cayley a) (eJ, eI) ;;
                   entry <- Algebra.graph_cayley_entry s ;;
                   Ok (row ++ [entry]))
                (fun eI entry =>
                   exists str,
                     dict_get pair_eqb (Algebra.cayley a) (eJ, eI) = Some str /\
                     Algebra.graph_cayley_entry str = Ok entry)
                (dict_keys (Algebra.canon2bin a)) []) as (row & E & F).
    + intros row eI HI.
      destruct (dict_get_Some_key String.eqb String.eqb_spec _ _ HJ) as (bJ & GJ).
      destruct (dict_get_Some_key String.eqb String.eqb_spec _ _ HI) as (bI & GI).
      destruct (built_entry _ _ _ _ _ _ _ eJ eI bJ bI Hb GJ GI)
        as (sw & sg & str & P & C & _).
      destruct (blade_product_nonempty _ _ _ _ _ _ _ P) as (c & rest & ->).
      destruct (graph_cayley_entry_total c rest) as (entry & Ee).
      exists entry. unfold dict_getitem. fold a in C. rewrite C. cbn [bind].
      rewrite Ee. cbn [bind]. split; [reflexivity|eauto].
    + rewrite E. cbn [bind app]. exists row. split; [reflexivity|exact F].
  - exists table. split; [exact E|exact F].
Qed.

Lemma Forall2_impl_in {X Y : Type} (P Q : X -> Y -> Prop) (l : list X) (l' : list Y) :
  (forall x y, In x l -> P x y -> Q x y) -> Forall2 P l l' -> Forall2 Q l l'.
Proof.
  intros H F. induction F as [|a b l l' Pab _ IH]; constructor.
  - apply H; [now left|exact Pab].
  - apply IH. intros x y Hx. apply H. now right.
Qed.

Lemma hex_char_e (v : Z) : 0 <= v < 16 -> hex_char v = "e"%char -> v = 14.
Proof. intros Hv E. apply hex_char_inj; [exact Hv|lia|exact E]. Qed.

(** Without the digit [e], only the scalar results are rewritten. *)
Lemma graph_cayley_entry_valid (s : Z) (d : nat) (x : Z) (pre : string) :
  0 <= s -> s + Z.of_nat d <= 14 ->
  pre = ""%string \/ pre = "-"%string ->
  let str := (pre ++ blade_name s d x)%string in
  Algebra.graph_cayley_entry str
  = Ok (if String.eqb str "e" then "1"%string
        else if String.eqb str "-e" then "-1"%string else str).
Proof.
  intros Hs Hd Hpre str. unfold str. rewrite blade_name_chars by lia.
  destruct (digit_chars s d x) as [|c0 cs] eqn:E.
  - destruct Hpre as [->| ->]; reflexivity.
  - destruct (exists_last (l := c0 :: cs)) as (ds & c & Eds); [discriminate|].
    rewrite Eds.
    assert (Hc : Ascii.eqb c "e" = false).
    { apply Ascii.eqb_neq. intros ->.
      assert (Hin : In "e"%char (digit_chars s d x)).
      { rewrite E, Eds. apply in_app_iff. right. now left. }
      unfold digit_chars in Hin. apply in_map_iff in Hin.
      destruct Hin as (ei & He & Hei). apply generators_In in Hei.
      apply hex_char_e in He; lia. }
    assert (Hne : exists a rest, string_of_list_ascii (ds ++ [c]) = String a rest).
    { destruct ds; cbn; eauto. }
    destruct Hne as (a & rest & Hne).
    destruct Hpre as [->| ->].
    + cbn [String.append].
      change (String "e" (string_of_list_ascii (ds ++ [c])))
        with (string_of_list_ascii (("e"%char :: ds) ++ [c])).
      rewrite graph_cayley_entry_snoc, Hc. cbn [app string_of_list_ascii].
      rewrite Hne. reflexivity.
    + cbn [String.append].
      change (String "-" (String "e" (string_of_list_ascii (ds ++ [c]))))
        with (string_of_list_ascii (("-"%char :: "e"%char :: ds) ++ [c])).
      rewrite graph_cayley_entry_snoc, Hc. cbn [app string_of_list_ascii].
      rewrite Hne. reflexivity.
Qed.

(** X11: for an algebra whose generators have one-character digits below
    [e] (start index plus dimension at most 14), [graph] builds its table
    without a failing lookup; the table has one row per key of [canon2bin]
    and one column per key, and the entry in the row of [eJ] and the
    column of [eI] is the Cayley entry of [(eJ, eI)], except that the
    scalar results [e] and [-e] are written [1] and [-1]. *)
Theorem graph_cayley_table_faithful (p0 q0 r0 : nat) (sig0 : option (list Z))
    (si : option Z) (opts : Options) (b : Built)
    (Hb : __post_init__ p0 q0 r0 sig0 si opts = Ok b)
    (Hs : 0 <= Algebra.start_index (algebra b))
    (Hd : Algebra.start_index (algebra b) + Z.of_nat (Algebra.d (algebra b)) <= 14) :
  let a := algebra b in
  exists table,
    Algebra.graph_cayley_table a = Ok table /\
    Forall2
      (fun eJ row =>
         Forall2
           (fun eI entry =>
              exists str,
                dict_get pair_eqb (Algebra.cayley a) (eJ, eI) = Some str /\
                entry = if String.eqb str "e" then "1"%string
                        else if String.eqb str "-e" then "-1"%string else str)
           (dict_keys (Algebra.canon2bin a)) row)
      (dict_keys (Algebra.canon2bin a)) table.
Proof.
  intros a.
  destruct (graph_cayley_table_built _ _ _ _ _ _ _ Hb) as (table & E & F).
  fold a in E, F. exists table. split; [exact E|].
  destruct (built_shape _ _ _ _ _ _ _ Hb) as (_ & _ & [N1 N2]).
  fold a in N1, N2, Hs, Hd.
  set (s := Algebra.start_index a) in *. set (d := Algebra.d a) in *.
  eapply Forall2_impl_in; [|exact F]. cbn beta. intros eJ row HJ Frow.
  eapply Forall2_impl_in; [|exact Frow]. cbn beta.
  intros eI entry HI (str & C & G). exists str. split; [exact C|].
  rewrite N2, N1 in HJ, HI. apply canon2bin_keys in HJ, HI.
  destruct HJ as (bJ & RJ & <-), HI as (bI & RI & <-).
  assert (Hd16 : s + Z.of_nat d <= 16) by lia.
  pose proof (built_valid_entry _ _ _ _ _ _ _ bJ bI Hb Hs Hd16 RJ RI) as V.
  cbv zeta in V. fold a s d in V.
  destruct V as (_ & _ & _ & _ & _ & _ & V & _). rewrite V in C. injection C as <-.
  destruct (_ =? 0)%Z.
  - cbn in G. now injection G as <-.
  - destruct (_ =? -1)%Z.
    + rewrite (graph_cayley_entry_valid s d _ "-") in G by (auto; lia).
      now injection G as <-.
    + rewrite (graph_cayley_entry_valid s d _ "") in G by (auto; lia).
      now injection G as <-.
Qed.

Lemma graph_cayley_table_faithful_witness :
  exists b,
    __post_init__ 2 0 0 None None default_options = Ok b /\
    Algebra.graph_cayley_table (algebra b)
    = Ok [["1"; "e1"; "e2"; "e12"]; ["e1"; "1"; "e12"; "e2"];
          ["e2"; "-e12"; "1"; "-e1"]; ["e12"; "-e2"; "e1"; "-1"]]%string.
Proof.
  destruct (__post_init__ 2 0 0 None None default_options) as [b|e] eqn:E;
    [|vm_compute in E; discriminate].
  exists b. split; [reflexivity|].
  assert (Hs : 0 <= Algebra.start_index (algebra b)).
  { vm_compute in E. injection E as Eb. subst b. vm_compute. discriminate. }
  assert (Hd : Algebra.start_index (algebra b) + Z.of_nat (Algebra.d (algebra b)) <= 14).
  { vm_compute in E. injection E as Eb. subst b. vm_compute. discriminate. }
  destruct (graph_cayley_table_faithful 2 0 0 None None default_options b E Hs Hd)
    as (table & G & _).
  rewrite G. vm_compute in E. injection E as Eb. subst b.
  vm_compute in G. symmetry. exact G.
Defined.

(** X12: in an algebra that uses the digit [e] for one of its generators
    (start index at most 14, start index plus dimension at least 15 and at
    most 16), the table of [graph] differs from the Cayley table at a
    blade name: the product of the scalar [e] with the generator named
    [ee] is [ee] in the Cayley table, and the table of [graph] holds [e1]
    in its place, because every entry that ends in the character [e] has
    this character replaced by [1]. *)
Theorem graph_cayley_table_digit_e (p0 q0 r0 : nat) (sig0 : option (list Z))
    (si : option Z) (opts : Options) (b : Built)
    (Hb : __post_init__ p0 q0 r0 sig0 si opts = Ok b)
    (Hs : 0 <= Algebra.start_index (algebra b) <= 14)
    (He : 14 < Algebra.start_index (algebra b) + Z.of_nat (Algebra.d (algebra b)))
    (Hd : Algebra.start_index (algebra b) + Z.of_nat (Algebra.d (algebra b)) <= 16) :
  let a := algebra b in
  exists table row j k,
    Algebra.graph_cayley_table a = Ok table /\
    nth_error (dict_keys (Algebra.canon2bin a)) j = Some "e"%string /\
    nth_error (dict_keys (Algebra.canon2bin a)) k = Some "ee"%string /\
    dict_get pair_eqb (Algebra.cayley a) ("e", "ee")%string = Some "ee"%string /\
    nth_error table j = Some row /\
    nth_error row k = Some "e1"%string.
Proof.
  intros a.
  destruct (graph_cayley_table_built _ _ _ _ _ _ _ Hb) as (table & E & F).
  fold a in E, F.
  destruct (built_shape _ _ _ _ _ _ _ Hb) as (_ & _ & [N1 N2]).
  fold a in N1, N2, Hs, He, Hd.
  set (s := Algebra.start_index a) in *. set (d := Algebra.d a) in *.
  assert (Hg : 0 <= 14 - s < Z.of_nat d) by lia.
  assert (H0 : 0 <= 0 < 2 ^ Z.of_nat d).
  { split; [lia|]. apply Z.pow_pos_nonneg; lia. }
  pose proof (pow2_range d (14 - s) Hg) as Hr.
  assert (Nee : blade_name s d (2 ^ (14 - s)) = "ee"%string).
  { rewrite blade_name_pow2 by lia. unfold digit.
    now replace (14 - s + s) with 14 by lia. }
  assert (Hs0 : 0 <= s) by lia.
  pose proof (built_valid_entry _ _ _ _ _ _ _ 0 (2 ^ (14 - s)) Hb Hs0 Hd H0 Hr) as V.
  cbv zeta in V. fold a s d in V.
  rewrite digit_chars_0 in V. cbn [app] in V.
  rewrite (digit_chars_inversions s d _ Hs0 Hd) in V.
  rewrite collapsed_sign_none in V by apply Z.land_0_l.
  rewrite Z.lxor_0_l, blade_name_0, Nee in V.
  change ((0 mod 2 =? 0)%nat) with true in V. cbv iota in V.
  change (1 =? 0) with false in V. change (1 =? -1) with false in V.
  cbv iota in V. cbn [String.append] in V.
  destruct V as (_ & _ & _ & V0 & Ve & _ & C & _).
  assert (I0 : In "e"%string (dict_keys (Algebra.canon2bin a))).
  { rewrite N2, N1. apply canon2bin_keys. exists 0. split; [exact H0|apply blade_name_0]. }
  assert (Ie : In "ee"%string (dict_keys (Algebra.canon2bin a))).
  { rewrite N2, N1. apply canon2bin_keys. exists (2 ^ (14 - s)). split; assumption. }
  apply In_nth_error in I0, Ie. destruct I0 as [j Hj], Ie as [k Hk].
  destruct (Forall2_nth_error _ _ _ _ _ F Hj) as (row & Hrow & Frow).
  destruct (Forall2_nth_error _ _ _ _ _ Frow Hk) as (entry & Hentry & str & C' & G).
  rewrite C in C'. injection C' as <-. cbn in G. injection G as <-.
  exists table, row, j, k. repeat split; assumption.
Qed.

Lemma graph_cayley_table_digit_e_witness :
  exists b table row j k,
    __post_init__ 2 0 0 None (Some 14) default_options = Ok b /\
    dict_keys (Algebra.canon2bin (algebra b)) = ["e"; "ee"; "ef"; "eef"]%string /\
    Algebra.graph_cayley_table (algebra b) = Ok table /\
    nth_error (dict_keys (Algebra.canon2bin (algebra b))) j = Some "e"%string /\
    nth_error (dict_keys (Algebra.canon2bin (algebra b))) k = Some "ee"%string /\
    dict_get pair_eqb (Algebra.cayley (algebra b)) ("e", "ee")%string = Some "ee"%string /\
    nth_error table j = Some row /\
    nth_error row k = Some "e1"%string.
Proof.
  destruct (__post_init__ 2 0 0 None (Some 14) default_options) as [b|e] eqn:E;
    [|vm_compute in E; discriminate E].
  assert (Hs : 0 <= Algebra.start_index (algebra b) <= 14).
  { vm_compute in E. injection E as Eb. subst b. vm_compute. split; discriminate. }
  assert (He : 14 < Algebra.start_index (algebra b) + Z.of_nat (Algebra.d (algebra b))).
  { vm_compute in E. injection E as Eb. subst b. vm_compute. reflexivity. }
  assert (Hd : Algebra.start_index (algebra b) + Z.of_nat (Algebra.d (algebra b)) <= 16).
  { vm_compute in E. injection E as Eb. subst b. vm_compute. discriminate. }
  assert (K : dict_keys (Algebra.canon2bin (algebra b)) = ["e"; "ee"; "ef"; "eef"]%string).
  { vm_compute in E. injection E as Eb. subst b. vm_compute. reflexivity. }
  destruct (graph_cayley_table_digit_e 2 0 0 None (Some 14) default_options b E Hs He Hd)
    as (table & row & j & k & G & Hj & Hk & C & Hrow & Hent).
  exists b, table, row, j, k. repeat split; assumption.
Defined.

(* ================================================================= *)
(** ** [BladeDict]: unknown names, and the blades an algebra starts with *)

Lemma blade_value_raise (a : Algebra.t) (name : string) (e : exn) :
  named a ->
  blade_value a name = Raise e ->
  e = KeyError /\ ~ In name (dict_keys (Algebra.canon2bin a)).
Proof.
  intros N H.
  destruct (dict_get String.eqb (Algebra.canon2bin a) name) as [bin|] eqn:E.
  - destruct (blade_value_ok a name bin N E) as (mv & V & _). congruence.
  - unfold blade_value, dict_getitem in H. rewrite E in H. cbn [bind] in H.
    split; [congruence|]. now apply (dict_get_None String.eqb String.eqb_spec).
Qed.

(** X13: a lookup in a [BladeDict] of a built algebra raises nothing but
    [KeyError], and raises it exactly for a name that is neither stored
    in the dictionary nor a key of [canon2bin]. *)
Theorem blade_dict_key_error (p0 q0 r0 : nat) (sig0 : option (list Z)) (si : option Z)
    (opts : Options) (b : Built) (self : BladeDict.t) (name : string)
    (Hb : __post_init__ p0 q0 r0 sig0 si opts = Ok b) :
  (forall e, BladeDict.__getitem__ (algebra b) self name = Raise e -> e = KeyError) /\
  (BladeDict.__getitem__ (algebra b) self name = Raise KeyError <->
   dict_get String.eqb (BladeDict.blades self) name = None /\
   ~ In name (dict_keys (Algebra.canon2bin (algebra b)))).
Proof.
  destruct (post_init_named _ _ _ _ _ _ _ Hb) as (N & _ & _).
  assert (R : forall e, BladeDict.__getitem__ (algebra b) self name = Raise e ->
                e = KeyError /\
                dict_get String.eqb (BladeDict.blades self) name = None /\
                ~ In name (dict_keys (Algebra.canon2bin (algebra b)))).
  { intros e H. rewrite getitem_unfold in H.
    destruct (dict_get String.eqb (BladeDict.blades self) name); [discriminate H|].
    destruct (blade_value (algebra b) name) as [mv|e'] eqn:V; cbn [bind] in H;
      [discriminate H|].
    injection H as ->. destruct (blade_value_raise _ _ _ N V). auto. }
  split; [intros e H; now apply R in H|]. split.
  - intros H. now apply R in H.
  - intros [Hn Hk]. rewrite getitem_unfold, Hn.
    apply (dict_get_None String.eqb String.eqb_spec) in Hk.
    unfold blade_value, dict_getitem. now rewrite Hk.
Qed.

Lemma blade_dict_key_error_witness :
  exists b,
    __post_init__ 2 0 0 None None default_options = Ok b /\
    BladeDict.__getitem__ (algebra b) (blades b) "e3" = Raise KeyError.
Proof.
  destruct (__post_init__ 2 0 0 None None default_options) as [b|e] eqn:E;
    [|vm_compute in E; discriminate E].
  exists b. split; [reflexivity|].
  apply (blade_dict_key_error 2 0 0 None None default_options b (blades b) "e3" E).
  vm_compute in E. injection E as Eb. subst b. split.
  - vm_compute. reflexivity.
  - vm_compute. intros [H|[H|[H|[H|[]]]]]; discriminate H.
Defined.

(** X14: what the blade dictionary of a built algebra holds.  Up to six
    dimensions it is eager: iterating it gives the names of [canon2bin]
    in their order.  Above six dimensions it is lazy, and the request for
    the pseudoscalar at the end of [__post_init__] has stored exactly one
    blade, the pseudoscalar under its name. *)
Theorem built_blades (p0 q0 r0 : nat) (sig0 : option (list Z)) (si : option Z)
    (opts : Options) (b : Built)
    (Hb : __post_init__ p0 q0 r0 sig0 si opts = Ok b) :
  let a := algebra b in
  exists top,
    dict_get Z.eqb (Algebra.bin2canon a) (2 ^ Z.of_nat (Algebra.d a) - 1) = Some top /\
    dict_get String.eqb (BladeDict.blades (blades b)) top = Some (pss b) /\
    if (Algebra.d a <=? 6)%nat
    then BladeDict.__iter__ (blades b) = dict_keys (Algebra.canon2bin a) /\
         BladeDict.__len__ (blades b) = List.length (Algebra.canon2bin a)
    else BladeDict.blades (blades b) = [(top, pss b)] /\
         BladeDict.__len__ (blades b) = 1%nat.
Proof.
  intros a.
  destruct (post_init_named _ _ _ _ _ _ _ Hb) as (N & _ & top' & Htop' & V).
  destruct (post_init_fields _ _ _ _ _ _ _ Hb)
    as (p & q & r & sig & tables & _ & _ & Ea & blades0 & top & E0 & Etop & G).
  fold a in N, Htop', V, Ea, E0, G.
  assert (Ed : Algebra.d a = (p + q + r)%nat) by (rewrite Ea; reflexivity).
  assert (Eb : Algebra.bin2canon a
               = Algebra.make_bin2canon (Algebra.resolve_start_index r si) (p + q + r))
    by (rewrite Ea; reflexivity).
  unfold dict_getitem in Etop. rewrite <- Eb, <- Ed, Htop' in Etop.
  injection Etop as <-. rewrite <- Ed in E0.
  pose proof (blade_dict_init_keys _ _ _ N E0) as K.
  exists top'. split; [exact Htop'|].
  destruct (Algebra.d a <=? 6)%nat; cbn [negb] in K.
  - assert (Hin : In top' (dict_keys (BladeDict.blades blades0))).
    { rewrite K. destruct N as [N1 N2]. rewrite N2, N1.
      rewrite N1 in Htop'. apply bin2canon_get_inv in Htop'.
      apply canon2bin_keys. destruct Htop' as [Hr ->]. eauto. }
    destruct (dict_get_Some_key String.eqb String.eqb_spec _ _ Hin) as [mv Hmv].
    rewrite (getitem_stored _ _ _ _ Hmv) in G. injection G as <- <-.
    split; [exact Hmv|]. unfold BladeDict.__iter__, BladeDict.__len__.
    split; [exact K|]. unfold dict_keys in K.
    now rewrite <- (length_map fst), K, length_map.
  - assert (B0 : BladeDict.blades blades0 = []).
    { destruct (BladeDict.blades blades0); [reflexivity|discriminate K]. }
    rewrite (getitem_fresh _ blades0 top' (pss b)) in G by (rewrite ?B0; auto).
    injection G as <-. cbn [BladeDict.blades BladeDict.__len__]. rewrite B0.
    cbn [app dict_get List.length]. rewrite String.eqb_refl. auto.
Qed.

Lemma built_blades_witness :
  exists b,
    __post_init__ 2 0 0 None None default_options = Ok b /\
    BladeDict.__iter__ (blades b) = ["e"; "e1"; "e2"; "e12"]%string /\
    BladeDict.__len__ (blades b) = 4%nat.
Proof.
  destruct (__post_init__ 2 0 0 None None default_options) as [b|e] eqn:E;
    [|vm_compute in E; discriminate E].
  exists b. split; [reflexivity|].
  destruct (built_blades 2 0 0 None None default_options b E) as (top & _ & _ & H).
  vm_compute in E. injection E as Eb. subst b. exact H.
Defined.

(* ================================================================= *)
(** ** The pseudoscalar *)

Lemma singleton_list {X : Type} (l : list X) (x : X) :
  NoDup l -> In x l -> (forall y, In y l -> y = x) -> l = [x].
Proof.
  intros ND Hx H. destruct l as [|a l]; [destruct Hx|].
  assert (a = x) by (apply H; now left). subst a.
  destruct l as [|c l]; [reflexivity|].
  assert (c = x) by (apply H; right; now left). subst c.
  inversion ND as [|? ? Hn _]; subst. exfalso. apply Hn. now left.
Qed.

(** The bucket of the top grade holds the pseudoscalar only. *)
Lemma top_bucket (d : nat) :
  filter (fun i => (popcount i =? d)%nat) (range (2 ^ Z.of_nat d)) = [2 ^ Z.of_nat d - 1].
Proof.
  pose proof (Z.pow_pos_nonneg 2 (Z.of_nat d) ltac:(lia) ltac:(lia)) as Hpos.
  apply singleton_list.
  - apply NoDup_filter, range_NoDup.
  - apply filter_In. split; [apply range_In; lia|].
    apply Nat.eqb_eq, popcount_ones.
  - intros y Hy. apply filter_In in Hy. destruct Hy as [Hr Hp].
    apply range_In in Hr. apply Nat.eqb_eq in Hp. now apply popcount_full.
Qed.

(** X15: when the names tell the blades apart (start index at least 0,
    start index plus dimension at most 18), the pseudoscalar [pss] of a
    built algebra is the multivector with the single index [2**d - 1]
    and the single coefficient 1, in graded mode as well as without it. *)
Theorem pss_is_top_blade (p0 q0 r0 : nat) (sig0 : option (list Z)) (si : option Z)
    (opts : Options) (b : Built)
    (Hb : __post_init__ p0 q0 r0 sig0 si opts = Ok b)
    (Hs : 0 <= Algebra.start_index (algebra b))
    (Hd : Algebra.start_index (algebra b) + Z.of_nat (Algebra.d (algebra b)) <= 18) :
  mv_keys (pss b) = [2 ^ Z.of_nat (Algebra.d (algebra b)) - 1] /\
  mv_values (pss b) = [1].
Proof.
  destruct (post_init_named _ _ _ _ _ _ _ Hb) as (N & _ & top & Htop & V).
  set (a := algebra b) in *.
  set (s := Algebra.start_index a) in *. set (d := Algebra.d a) in *.
  pose proof (Z.pow_pos_nonneg 2 (Z.of_nat d) ltac:(lia) ltac:(lia)) as Hpos.
  assert (Hr : 0 <= 2 ^ Z.of_nat d - 1 < 2 ^ Z.of_nat d) by lia.
  destruct N as [N1 N2]. fold s d in N1.
  assert (Et : top = blade_name s d (2 ^ Z.of_nat d - 1)).
  { rewrite N1 in Htop. apply bin2canon_get_inv in Htop. now destruct Htop. }
  assert (G : dict_get String.eqb (Algebra.canon2bin a) top = Some (2 ^ Z.of_nat d - 1)).
  { rewrite N2, N1, Et. apply canon2bin_get_blade_name; [|exact Hr].
    intros x y Hx Hy. now apply blade_name_inj_18. }
  assert (N : named a) by (split; assumption).
  destruct (blade_value_ok a top _ N G) as (mv & V' & Hmv).
  rewrite V in V'. injection V' as <-.
  destruct (graded (Algebra.options a)).
  - destruct Hmv as (indices & Hi & ->). fold d in Hi.
    rewrite popcount_ones, indices_for_grade_lookup, Nat.leb_refl, top_bucket in Hi.
    injection Hi as <-. cbn [multivector_of_grade mv_keys mv_values map].
    now rewrite Z.eqb_refl.
  - rewrite Hmv. split; reflexivity.
Qed.

Lemma pss_is_top_blade_witness :
  exists b,
    __post_init__ 3 0 1 None None
      {| cse := true; numba := false; graded := true; simplify := true |} = Ok b /\
    mv_keys (pss b) = [15] /\ mv_values (pss b) = [1].
Proof.
  destruct (__post_init__ 3 0 1 None None
              {| cse := true; numba := false; graded := true; simplify := true |})
    as [b|e] eqn:E; [|vm_compute in E; discriminate E].
  exists b. split; [reflexivity|].
  assert (Hs : 0 <= Algebra.start_index (algebra b)).
  { vm_compute in E. injection E as Eb. subst b. vm_compute. discriminate. }
  assert (Hd : Algebra.start_index (algebra b) + Z.of_nat (Algebra.d (algebra b)) <= 18).
  { vm_compute in E. injection E as Eb. subst b. vm_compute. discriminate. }
  assert (D : 2 ^ Z.of_nat (Algebra.d (algebra b)) - 1 = 15).
  { vm_compute in E. injection E as Eb. subst b. reflexivity. }
  rewrite <- D.
  exact (pss_is_top_blade 3 0 1 None None _ b E Hs Hd).
Defined.

(* ================================================================= *)
(** ** Construction within the range of one-character digits *)

Lemma resolve_signature_default (p q r : nat) :
  Algebra.resolve_signature p q r None
  = Ok (p, q, r,
        if (r =? 1)%nat then repeat 0 r ++ repeat 1 p ++ repeat (-1) q
        else repeat 1 p ++ repeat (-1) q ++ repeat 0 r).
Proof. unfold Algebra.resolve_signature. destruct (r =? 1)%nat; reflexivity. Qed.

Lemma default_signature_counts (p q r : nat) :
  let sig := if (r =? 1)%nat then repeat 0 r ++ repeat 1 p ++ repeat (-1) q
             else repeat 1 p ++ repeat (-1) q ++ repeat 0 r in
  count_occ Z.eq_dec sig 1 = p /\ count_occ Z.eq_dec sig (-1) = q /\
  count_occ Z.eq_dec sig 0 = r /\ List.length sig = (p + q + r)%nat.
Proof.
  assert (C : forall x y n, count_occ Z.eq_dec (repeat y n) x = if x =? y then n else O).
  { intros x y n. destruct (Z.eqb_spec x y) as [->|Hne].
    - now apply count_occ_repeat_eq.
    - now apply count_occ_repeat_neq. }
  cbv zeta. destruct (r =? 1)%nat;
    rewrite !count_occ_app, !C, !length_app, !repeat_length; cbn; lia.
Qed.

(** The signature an algebra is built from: the explicit one, or the one
    laid out from the counts. *)
Lemma resolve_signature_total (p0 q0 r0 : nat) (sig0 : option (list Z)) :
  let sig := match sig0 with
             | Some sig => sig
             | None => if (r0 =? 1)%nat then repeat 0 r0 ++ repeat 1 p0 ++ repeat (-1) q0
                       else repeat 1 p0 ++ repeat (-1) q0 ++ repeat 0 r0
             end in
  Forall (fun x => x = 1 \/ x = -1 \/ x = 0) sig ->
  Algebra.resolve_signature p0 q0 r0 sig0
  = Ok (count_occ Z.eq_dec sig 1, count_occ Z.eq_dec sig (-1), count_occ Z.eq_dec sig 0,
        sig).
Proof.
  intros sig F. destruct sig0 as [sig'|].
  - rewrite resolve_signature_explicit.
    apply tally_eq_length_iff in F. fold sig. rewrite F, Nat.eqb_refl. reflexivity.
  - rewrite resolve_signature_default.
    destruct (default_signature_counts p0 q0 r0) as (C1 & C2 & C3 & _).
    cbv zeta in C1, C2, C3. fold sig in C1, C2, C3 |- *. now rewrite C1, C2, C3.
Qed.

(** X16: construction succeeds within the range of one-character digits.
    Let the signature be the explicit one, or else the one laid out from
    the counts (the null vectors first when [r] is 1).  If its entries are
    among 1, -1 and 0, the start index (the given one, or else 0 when
    there is exactly one null vector and 1 otherwise) is at least 0 and
    start index plus length is at most 16, then [__post_init__] raises
    nothing, and the algebra has this signature, its tallies as [p], [q]
    and [r], its length as [d], this start index and the given options. *)
Theorem construction_succeeds (p0 q0 r0 : nat) (sig0 : option (list Z)) (si : option Z)
    (opts : Options) :
  let sig := match sig0 with
             | Some sig => sig
             | None => if (r0 =? 1)%nat then repeat 0 r0 ++ repeat 1 p0 ++ repeat (-1) q0
                       else repeat 1 p0 ++ repeat (-1) q0 ++ repeat 0 r0
             end in
  let s := match si with
           | Some s => s
           | None => if (count_occ Z.eq_dec sig 0%Z =? 1)%nat then 0 else 1
           end in
  Forall (fun x => x = 1 \/ x = -1 \/ x = 0) sig ->
  0 <= s -> s + Z.of_nat (List.length sig) <= 16 ->
  exists b,
    __post_init__ p0 q0 r0 sig0 si opts = Ok b /\
    Algebra.signature (algebra b) = sig /\
    Algebra.p (algebra b) = count_occ Z.eq_dec sig 1 /\
    Algebra.q (algebra b) = count_occ Z.eq_dec sig (-1) /\
    Algebra.r (algebra b) = count_occ Z.eq_dec sig 0 /\
    Algebra.d (algebra b) = List.length sig /\
    Algebra.start_index (algebra b) = s /\
    Algebra.options (algebra b) = opts.
Proof.
  intros sig s F Hs Hd.
  pose proof (resolve_signature_total p0 q0 r0 sig0 F) as R. fold sig in R.
  assert (L : (count_occ Z.eq_dec sig 1%Z + count_occ Z.eq_dec sig (-1)%Z
               + count_occ Z.eq_dec sig 0%Z)%nat = List.length sig)
    by now apply tally_eq_length_iff.
  assert (Es : Algebra.resolve_start_index (count_occ Z.eq_dec sig 0) si = s).
  { unfold s, Algebra.resolve_start_index. destruct si; reflexivity. }
  destruct (post_init_valid p0 q0 r0 sig0 si opts _ _ _ _ R) as (b & Hb & _).
  - now rewrite Es.
  - now rewrite Es, L.
  - exists b. split; [exact Hb|].
    destruct (post_init_fields _ _ _ _ _ _ _ Hb)
      as (p & q & r & sig' & tables & R' & _ & Ea & _).
    rewrite R in R'. injection R' as <- <- <- <-.
    rewrite Ea. cbn. rewrite Es, L. repeat split; reflexivity.
Qed.

Lemma construction_succeeds_witness :
  exists b,
    __post_init__ 3 0 1 None None default_options = Ok b /\
    Algebra.signature (algebra b) = [0; 1; 1; 1] /\
    Algebra.start_index (algebra b) = 0.
Proof.
  assert (F : Forall (fun x => x = 1 \/ x = -1 \/ x = 0) [0; 1; 1; 1]).
  { repeat (constructor; [lia|]). constructor. }
  assert (Hs : 0 <= 0) by lia.
  assert (Hd : 0 + Z.of_nat 4 <= 16) by (simpl; lia).
  destruct (construction_succeeds 3 0 1 None None default_options F Hs Hd)
    as (b & Hb & Hsig & _ & _ & _ & _ & Hstart & _).
  exists b. split; [exact Hb|]. split; [exact Hsig|exact Hstart].
Defined.

(** X17: building from the signature of an algebra gives the same algebra
    again: [__post_init__] on the signature that the counts [p], [q], [r]
    are laid out to, with any counts beside it, returns what
    [__post_init__] returns on the counts alone (the same algebra, or the
    same exception). *)
Theorem signature_round_trip (p q r p' q' r' : nat) (si : option Z) (opts : Options) :
  let sig := if (r =? 1)%nat then repeat 0 r ++ repeat 1 p ++ repeat (-1) q
             else repeat 1 p ++ repeat (-1) q ++ repeat 0 r in
  Algebra.resolve_signature p' q' r' (Some sig) = Algebra.resolve_signature p q r None /\
  __post_init__ p' q' r' (Some sig) si opts = __post_init__ p q r None si opts.
Proof.
  intros sig.
  assert (R : Algebra.resolve_signature p' q' r' (Some sig)
              = Algebra.resolve_signature p q r None).
  { rewrite resolve_signature_default, resolve_signature_explicit. fold sig.
    destruct (default_signature_counts p q r) as (C1 & C2 & C3 & L).
    cbv zeta in C1, C2, C3, L. fold sig in C1, C2, C3, L.
    now rewrite C1, C2, C3, L, Nat.eqb_refl. }
  split; [exact R|]. unfold __post_init__. now rewrite R.
Qed.

(* ================================================================= *)
(** ** Products that vanish *)

Lemma fold_mul_linear {X : Type} (f : X -> Z) (l : list X) (s0 : Z) :
  fold_left (fun acc x => acc * f x) l s0 = s0 * fold_left (fun acc x => acc * f x) l 1.
Proof.
  revert s0. induction l as [|x l IH]; intros s0; cbn [fold_left]; [lia|].
  rewrite IH, (IH (1 * f x)). lia.
Qed.

Lemma fold_mul_zero {X : Type} (f : X -> Z) (l : list X) (s0 : Z) :
  fold_left (fun acc x => acc * f x) l s0 = 0
  <-> s0 = 0 \/ exists x, In x l /\ f x = 0.
Proof.
  revert s0. induction l as [|x l IH]; intros s0; cbn [fold_left].
  - split; [auto|]. intros [H|(x & [] & _)]. exact H.
  - rewrite IH. split.
    + intros [H|(y & Hy & Fy)].
      * apply Z.mul_eq_0 in H. destruct H as [H|H]; [now left|].
        right. exists x. split; [now left|exact H].
      * right. exists y. split; [now right|exact Fy].
    + intros [H|(y & [<-|Hy] & Fy)].
      * left. subst. lia.
      * left. rewrite Fy. lia.
      * right. eauto.
Qed.

Lemma collapsed_sign_linear (sig : list Z) (d : nat) (bI bJ sign0 : Z) :
  collapsed_sign sig d bI bJ sign0 = sign0 * collapsed_sign sig d bI bJ 1.
Proof. unfold collapsed_sign. apply fold_mul_linear. Qed.

Lemma collapsed_sign_zero (sig : list Z) (d : nat) (bI bJ sign0 : Z) :
  sign0 <> 0 ->
  collapsed_sign sig d bI bJ sign0 = 0
  <-> exists ei, 0 <= ei < Z.of_nat d /\ Z.testbit bI ei = true /\
                 Z.testbit bJ ei = true /\ nth (Z.to_nat ei) sig 0 = 0.
Proof.
  intros Hs0. unfold collapsed_sign. rewrite fold_mul_zero. split.
  - intros [H|(ei & Hin & Hz)]; [contradiction|].
    apply generators_In in Hin. destruct Hin as [Hr Hb].
    rewrite Z.land_spec in Hb. apply andb_true_iff in Hb. destruct Hb.
    exists ei. auto.
  - intros (ei & Hr & HI & HJ & Hz). right. exists ei. split; [|exact Hz].
    apply generators_In. split; [exact Hr|]. now rewrite Z.land_spec, HI, HJ.
Qed.

Lemma parity_sign_nonzero (n : nat) : (if (n mod 2 =? 0)%nat then 1 else -1) <> 0.
Proof. destruct (n mod 2 =? 0)%nat; lia. Qed.

Lemma signed_name_not_zero (pre name : string) :
  pre = ""%string \/ pre = "-"%string ->
  (pre ++ String "e" name)%string <> "0"%string.
Proof. intros [-> | ->]; discriminate. Qed.

(** X18: in a built algebra with one-character digits, the product of two
    blades vanishes, with the sign 0 in [signs] and the entry [0] in
    [cayley], exactly when the blades share a generator whose signature
    entry is 0. *)
Theorem null_generator_products (p0 q0 r0 : nat) (sig0 : option (list Z))
    (si : option Z) (opts : Options) (b : Built) (bI bJ : Z)
    (Hb : __post_init__ p0 q0 r0 sig0 si opts = Ok b)
    (Hs : 0 <= Algebra.start_index (algebra b))
    (Hd : Algebra.start_index (algebra b) + Z.of_nat (Algebra.d (algebra b)) <= 16)
    (HI : 0 <= bI < 2 ^ Z.of_nat (Algebra.d (algebra b)))
    (HJ : 0 <= bJ < 2 ^ Z.of_nat (Algebra.d (algebra b))) :
  let a := algebra b in
  let s := Algebra.start_index a in
  let d := Algebra.d a in
  let shared_null :=
    exists ei, 0 <= ei < Z.of_nat d /\ Z.testbit bI ei = true /\
               Z.testbit bJ ei = true /\ nth (Z.to_nat ei) (Algebra.signature a) 0 = 0 in
  (np_get2 (Algebra.signs a) bI bJ = Ok 0 <-> shared_null) /\
  (dict_get pair_eqb (Algebra.cayley a) (blade_name s d bI, blade_name s d bJ)
   = Some "0"%string <-> shared_null).
Proof.
  intros a s d shared_null.
  pose proof (built_valid_entry _ _ _ _ _ _ _ bI bJ Hb Hs Hd HI HJ) as V.
  cbv zeta in V. fold a s d in V.
  destruct V as (_ & _ & _ & _ & _ & _ & C & S & _).
  set (sw := inversions char_gtb (digit_chars s d bI ++ digit_chars s d bJ)) in *.
  set (sg := collapsed_sign (Algebra.signature a) d bI bJ
               (if (sw mod 2 =? 0)%nat then 1 else -1)) in *.
  assert (Z0 : sg = 0 <-> shared_null).
  { apply collapsed_sign_zero, parity_sign_nonzero. }
  split.
  - rewrite S. rewrite <- Z0. split; [congruence|intros ->; reflexivity].
  - rewrite C. rewrite <- Z0. destruct (Z.eqb_spec sg 0) as [E|N].
    + split; auto.
    + split; [|contradiction]. intros H. injection H as H. exfalso.
      rewrite blade_name_chars in H by assumption.
      revert H. apply signed_name_not_zero. destruct (sg =? -1); auto.
Qed.

Lemma null_generator_products_witness :
  exists b,
    __post_init__ 3 0 1 None None default_options = Ok b /\
    np_get2 (Algebra.signs (algebra b)) 3 5 = Ok 0 /\
    dict_get pair_eqb (Algebra.cayley (algebra b)) ("e01", "e02")%string = Some "0"%string.
Proof.
  destruct (__post_init__ 3 0 1 None None default_options) as [b|e] eqn:E;
    [|vm_compute in E; discriminate E].
  exists b. split; [reflexivity|].
  assert (Hs : 0 <= Algebra.start_index (algebra b)).
  { vm_compute in E. injection E as Eb. subst b. vm_compute. discriminate. }
  assert (Hd : Algebra.start_index (algebra b) + Z.of_nat (Algebra.d (algebra b)) <= 16).
  { vm_compute in E. injection E as Eb. subst b. vm_compute. discriminate. }
  assert (HI : 0 <= 3 < 2 ^ Z.of_nat (Algebra.d (algebra b))).
  { vm_compute in E. injection E as Eb. subst b. vm_compute. split; [discriminate|reflexivity]. }
  assert (HJ : 0 <= 5 < 2 ^ Z.of_nat (Algebra.d (algebra b))).
  { vm_compute in E. injection E as Eb. subst b. vm_compute. split; [discriminate|reflexivity]. }
  destruct (null_generator_products 3 0 1 None None default_options b 3 5 E Hs Hd HI HJ)
    as [S C].
  assert (N : exists ei,
                0 <= ei < Z.of_nat (Algebra.d (algebra b)) /\ Z.testbit 3 ei = true /\
                Z.testbit 5 ei = true /\
                nth (Z.to_nat ei) (Algebra.signature (algebra b)) 0 = 0).
  { exists 0. vm_compute in E. injection E as Eb. subst b. vm_compute.
    repeat split; discriminate. }
  split; [now apply S|].
  apply C in N. vm_compute in E. injection E as Eb. subst b. exact N.
Defined.

(* ================================================================= *)
(** ** The even blades are closed under the product *)


Lemma land_range (d : nat) (a b : Z) :
  0 <= a < 2 ^ Z.of_nat d -> 0 <= b < 2 ^ Z.of_nat d ->
  0 <= Z.land a b < 2 ^ Z.of_nat d.
Proof.
  intros Ha Hb.
  assert (Hn : 0 <= Z.land a b) by (apply Z.land_nonneg; lia).
  split; [exact Hn|].
  destruct (Z.eq_dec (Z.land a b) 0) as [E|Hne]; [rewrite E; lia|].
  destruct (Z.eq_dec a 0) as [E|Ha0]; [subst a; rewrite Z.land_0_l in Hne; lia|].
  apply Z.log2_lt_pow2; [lia|].
  eapply Z.le_lt_trans; [apply Z.log2_land; lia|].
  apply Z.min_lt_iff. left. apply Z.log2_lt_pow2; lia.
Qed.





(* ================================================================= *)
(** ** The swap count of a product, pair by pair *)

Lemma list_sum_nil : list_sum [] = O.
Proof. reflexivity. Qed.

Lemma list_sum_cons (x : nat) (l : list nat) : list_sum (x :: l) = (x + list_sum l)%nat.
Proof. reflexivity. Qed.

Lemma count_gt_app {A : Type} (gtb : A -> A -> bool) (x : A) (l1 l2 : list A) :
  count_gt gtb x (l1 ++ l2) = (count_gt gtb x l1 + count_gt gtb x l2)%nat.
Proof. induction l1 as [|y l1 IH]; cbn [app count_gt]; [reflexivity|]. rewrite IH. lia. Qed.

Lemma inversions_app {A : Type} (gtb : A -> A -> bool) (l1 l2 : list A) :
  inversions gtb (l1 ++ l2)
  = (inversions gtb l1 + inversions gtb l2
     + list_sum (map (fun x => count_gt gtb x l2) l1))%nat.
Proof.
  induction l1 as [|x l1 IH]; cbn [app inversions map];
    rewrite ?list_sum_nil, ?list_sum_cons; [lia|].
  rewrite count_gt_app, IH. lia.
Qed.

Lemma list_sum_plus {X : Type} (g h : X -> nat) (l : list X) :
  list_sum (map (fun x => (g x + h x)%nat) l)
  = (list_sum (map g l) + list_sum (map h l))%nat.
Proof.
  induction l as [|x l IH]; cbn [map]; rewrite ?list_sum_nil, ?list_sum_cons;
    [reflexivity|]. rewrite IH. lia.
Qed.

Lemma list_sum_indicator {X : Type} (p : X -> bool) (l : list X) :
  list_sum (map (fun x => if p x then 1%nat else 0%nat) l) = List.length (filter p l).
Proof.
  induction l as [|x l IH]; cbn [map filter]; rewrite ?list_sum_cons; [reflexivity|].
  rewrite IH. destruct (p x); reflexivity.
Qed.

(** Counting the pairs of a product row by row. *)
Lemma filter_prod_rows {X Y : Type} (f : X * Y -> bool) (l1 : list X) (l2 : list Y) :
  List.length (filter f (list_prod l1 l2))
  = list_sum (map (fun a => List.length (filter (fun c => f (a, c)) l2)) l1).
Proof.
  induction l1 as [|a l1 IH]; cbn [list_prod map]; rewrite ?list_sum_cons; [reflexivity|].
  rewrite filter_app, length_app, IH. f_equal.
  clear IH. induction l2 as [|c l2 IH]; cbn [map filter]; [reflexivity|].
  destruct (f (a, c)); cbn [List.length]; now rewrite IH.
Qed.

(** Counting the pairs column by column gives the same number. *)
Lemma filter_prod_swap {X Y : Type} (f : X * Y -> bool) (l1 : list X) (l2 : list Y) :
  List.length (filter f (list_prod l1 l2))
  = List.length (filter (fun ca => f (snd ca, fst ca)) (list_prod l2 l1)).
Proof.
  rewrite !filter_prod_rows. cbn [fst snd].
  induction l1 as [|a l1 IH]; cbn [map filter]; rewrite ?list_sum_cons.
  - induction l2 as [|c l2 IH]; cbn [map List.length]; rewrite ?list_sum_cons;
      [reflexivity|exact IH].
  - rewrite IH.
    rewrite <- (list_sum_indicator (fun c => f (a, c)) l2), <- list_sum_plus.
    f_equal. apply map_ext. intros c. destruct (f (a, c)); reflexivity.
Qed.

Lemma filter_trichotomy (l : list (Z * Z)) :
  (List.length (filter (fun ac => (snd ac <? fst ac)%Z) l)
   + List.length (filter (fun ac => (fst ac <? snd ac)%Z) l)
   + List.length (filter (fun ac => (fst ac =? snd ac)%Z) l) = List.length l)%nat.
Proof.
  induction l as [|[a c] l IH]; [reflexivity|]. cbn [filter fst snd].
  destruct (Z.ltb_spec c a), (Z.ltb_spec a c), (Z.eqb_spec a c); try lia;
    cbn [List.length]; lia.
Qed.

Lemma range_count (n : nat) (a : Z) :
  List.length (filter (fun c => a =? c) (range (Z.of_nat n)))
  = if (0 <=? a) && (a <? Z.of_nat n) then 1%nat else 0%nat.
Proof.
  induction n as [|n IH].
  - cbn. destruct (0 <=? a) eqn:E; [|reflexivity]. cbn [andb].
    apply Z.leb_le in E. destruct (Z.ltb_spec a 0); [lia|reflexivity].
  - rewrite range_snoc, filter_app, length_app, IH. cbn [filter].
    destruct (Z.leb_spec 0 a), (Z.ltb_spec a (Z.of_nat n)),
      (Z.ltb_spec a (Z.of_nat (S n))), (Z.eqb_spec a (Z.of_nat n));
      cbn [andb List.length]; lia.
Qed.

Lemma generators_count (d : nat) (b a : Z) :
  List.length (filter (fun c => a =? c) (generators d b))
  = if (0 <=? a) && (a <? Z.of_nat d) && Z.testbit b a then 1%nat else 0%nat.
Proof.
  unfold generators.
  assert (E : filter (fun c => a =? c) (filter (Z.testbit b) (range (Z.of_nat d)))
              = if Z.testbit b a then filter (fun c => a =? c) (range (Z.of_nat d))
                else []).
  { induction (range (Z.of_nat d)) as [|c l IH]; cbn [filter].
    - destruct (Z.testbit b a); reflexivity.
    - destruct (Z.testbit b c) eqn:Tc; cbn [filter];
        destruct (Z.eqb_spec a c) as [E|N]; rewrite IH; try subst c; rewrite ?Tc;
        reflexivity. }
  rewrite E. destruct (Z.testbit b a).
  - rewrite range_count. now rewrite andb_true_r.
  - now rewrite andb_false_r.
Qed.

(** The generators two blades share are counted by the pairs of equal
    generators. *)
Lemma shared_generators (d : nat) (bI bJ : Z) :
  0 <= bI < 2 ^ Z.of_nat d -> 0 <= bJ < 2 ^ Z.of_nat d ->
  List.length (filter (fun ac => fst ac =? snd ac)
                 (list_prod (generators d bI) (generators d bJ)))
  = popcount (Z.land bI bJ).
Proof.
  intros HI HJ. rewrite filter_prod_rows. cbn [fst snd].
  rewrite <- (generators_length d _ (land_range d bI bJ HI HJ)), generators_land.
  change (generators d bI) with (filter (Z.testbit bI) (range (Z.of_nat d))).
  assert (R : Forall (fun a => 0 <= a < Z.of_nat d) (range (Z.of_nat d))).
  { apply Forall_forall. intros a Ha. now apply range_In in Ha. }
  induction R as [|a l Ha _ IH]; [reflexivity|]. cbn [filter].
  destruct (Z.testbit bI a) eqn:TI; cbn [andb map]; rewrite ?list_sum_cons.
  - rewrite generators_count, IH.
    replace ((0 <=? a) && (a <? Z.of_nat d)) with true
      by (symmetry; apply andb_true_iff; split; [apply Z.leb_le|apply Z.ltb_lt]; lia).
    cbn [andb]. destruct (Z.testbit bJ a); reflexivity.
  - exact IH.
Qed.

Lemma cross_digits (s : Z) (d : nat) (gI gJ : list Z) :
  0 <= s -> s + Z.of_nat d <= 16 ->
  Forall (fun ei => 0 <= ei < Z.of_nat d) gI ->
  Forall (fun ei => 0 <= ei < Z.of_nat d) gJ ->
  list_sum (map (fun x => count_gt char_gtb x (map (digit s) gJ)) (map (digit s) gI))
  = List.length (filter (fun ac => snd ac <? fst ac) (list_prod gI gJ)).
Proof.
  intros Hs Hd FI FJ. rewrite filter_prod_rows, map_map. cbn [fst snd]. f_equal.
  apply map_ext_in. intros a Ha. rewrite Forall_forall in FI. specialize (FI a Ha).
  clear Ha. induction FJ as [|c gJ Hc _ IH]; [reflexivity|].
  cbn [map count_gt filter]. unfold digit at 1 2. rewrite hex_char_gtb by lia.
  rewrite IH. destruct (Z.ltb_spec (c + s) (a + s)), (Z.ltb_spec c a); try lia;
    reflexivity.
Qed.

(** The swap count of the word of two blades: the pairs of a generator of
    the first and a smaller generator of the second. *)
Lemma product_swaps (s : Z) (d : nat) (bI bJ : Z) :
  0 <= s -> s + Z.of_nat d <= 16 ->
  inversions char_gtb (digit_chars s d bI ++ digit_chars s d bJ)
  = List.length (filter (fun ac => snd ac <? fst ac)
                   (list_prod (generators d bI) (generators d bJ))).
Proof.
  intros Hs Hd. rewrite inversions_app.
  rewrite !(digit_chars_inversions s d _ Hs Hd). cbn [Nat.add].
  rewrite !digit_chars_map.
  apply (cross_digits s d); try assumption; apply generators_range.
Qed.

(** X20: the entry of the array [swaps] for two blades is the number of
    pairs made of a generator of the first blade and a smaller generator
    of the second one: the transpositions that bring the generators of
    the product into increasing order. *)
Theorem swaps_count_pairs (p0 q0 r0 : nat) (sig0 : option (list Z))
    (si : option Z) (opts : Options) (b : Built) (bI bJ : Z)
    (Hb : __post_init__ p0 q0 r0 sig0 si opts = Ok b)
    (Hs : 0 <= Algebra.start_index (algebra b))
    (Hd : Algebra.start_index (algebra b) + Z.of_nat (Algebra.d (algebra b)) <= 16)
    (HI : 0 <= bI < 2 ^ Z.of_nat (Algebra.d (algebra b)))
    (HJ : 0 <= bJ < 2 ^ Z.of_nat (Algebra.d (algebra b))) :
  let a := algebra b in
  let d := Algebra.d a in
  np_get2 (Algebra.swaps a) bI bJ
  = Ok (Z.of_nat
          (List.length
             (filter (fun ac => snd ac <? fst ac)
                (list_prod (generators d bI) (generators d bJ))))).
Proof.
  intros a d.
  pose proof (built_valid_entry _ _ _ _ _ _ _ bI bJ Hb Hs Hd HI HJ) as V.
  cbv zeta in V. fold a d in V.
  destruct V as (_ & _ & _ & _ & _ & _ & _ & _ & W).
  rewrite W. fold a in Hs, Hd. fold d in Hd. now rewrite product_swaps.
Qed.

Lemma swaps_count_pairs_witness :
  exists b,
    __post_init__ 3 0 0 None None default_options = Ok b /\
    np_get2 (Algebra.swaps (algebra b)) 6 3 = Ok 3.
Proof.
  destruct (__post_init__ 3 0 0 None None default_options) as [b|e] eqn:E;
    [|vm_compute in E; discriminate E].
  exists b. split; [reflexivity|].
  assert (Hs : 0 <= Algebra.start_index (algebra b)).
  { vm_compute in E. injection E as Eb. subst b. vm_compute. discriminate. }
  assert (Hd : Algebra.start_index (algebra b) + Z.of_nat (Algebra.d (algebra b)) <= 16).
  { vm_compute in E. injection E as Eb. subst b. vm_compute. discriminate. }
  assert (HI : 0 <= 6 < 2 ^ Z.of_nat (Algebra.d (algebra b))).
  { vm_compute in E. injection E as Eb. subst b. vm_compute. split; [discriminate|reflexivity]. }
  assert (HJ : 0 <= 3 < 2 ^ Z.of_nat (Algebra.d (algebra b))).
  { vm_compute in E. injection E as Eb. subst b. vm_compute. split; [discriminate|reflexivity]. }
  pose proof (swaps_count_pairs 3 0 0 None None default_options b 6 3 E Hs Hd HI HJ) as W.
  cbv zeta in W. rewrite W.
  vm_compute in E. injection E as Eb. subst b. reflexivity.
Defined.

(* ================================================================= *)
(** ** Exchanging the factors, and squares *)

Lemma parity_even (n : nat) : (n mod 2 =? 0)%nat = Nat.even n.
Proof.
  destruct (Nat.even n) eqn:E.
  - apply Nat.even_spec in E. destruct E as [k ->].
    rewrite Nat.mul_comm, Nat.Div0.mod_mul. reflexivity.
  - assert (O : Nat.odd n = true) by (unfold Nat.odd; now rewrite E).
    apply Nat.odd_spec in O. destruct O as [k ->].
    replace (2 * k + 1)%nat with (1 + k * 2)%nat by lia.
    rewrite Nat.Div0.mod_add. reflexivity.
Qed.

(** Every pair of generators is counted once: by one of the two orders
    of the factors, or as a shared generator. *)
Lemma swaps_both_orders (d : nat) (bI bJ : Z) :
  0 <= bI < 2 ^ Z.of_nat d -> 0 <= bJ < 2 ^ Z.of_nat d ->
  (List.length (filter (fun ac => (snd ac <? fst ac)%Z)
                  (list_prod (generators d bI) (generators d bJ)))
   + List.length (filter (fun ac => (snd ac <? fst ac)%Z)
                    (list_prod (generators d bJ) (generators d bI)))
   + popcount (Z.land bI bJ)
   = popcount bI * popcount bJ)%nat.
Proof.
  intros HI HJ.
  pose proof (filter_trichotomy (list_prod (generators d bI) (generators d bJ))) as T.
  rewrite length_prod, (generators_length d bI HI), (generators_length d bJ HJ) in T.
  rewrite (shared_generators d bI bJ HI HJ) in T.
  rewrite (filter_prod_swap (fun ac => (fst ac <? snd ac)%Z)) in T. exact T.
Qed.

Lemma collapsed_sign_comm (sig : list Z) (d : nat) (bI bJ sign0 : Z) :
  collapsed_sign sig d bI bJ sign0 = collapsed_sign sig d bJ bI sign0.
Proof. unfold collapsed_sign. now rewrite Z.land_comm. Qed.

(** X21: exchanging the two factors of a product multiplies the sign by
    -1 to the power [grade(bI) * grade(bJ) - shared], where [shared] is
    the number of generators the blades have in common: the two blades
    commute when this number is even and anticommute when it is odd. *)
Theorem signs_commutation (p0 q0 r0 : nat) (sig0 : option (list Z))
    (si : option Z) (opts : Options) (b : Built) (bI bJ : Z)
    (Hb : __post_init__ p0 q0 r0 sig0 si opts = Ok b)
    (Hs : 0 <= Algebra.start_index (algebra b))
    (Hd : Algebra.start_index (algebra b) + Z.of_nat (Algebra.d (algebra b)) <= 16)
    (HI : 0 <= bI < 2 ^ Z.of_nat (Algebra.d (algebra b)))
    (HJ : 0 <= bJ < 2 ^ Z.of_nat (Algebra.d (algebra b))) :
  exists sIJ sJI,
    np_get2 (Algebra.signs (algebra b)) bI bJ = Ok sIJ /\
    np_get2 (Algebra.signs (algebra b)) bJ bI = Ok sJI /\
    sJI = sIJ * (if Nat.even (popcount bI * popcount bJ + popcount (Z.land bI bJ))
                 then 1 else -1).
Proof.
  pose proof (built_valid_entry _ _ _ _ _ _ _ bI bJ Hb Hs Hd HI HJ) as V.
  pose proof (built_valid_entry _ _ _ _ _ _ _ bJ bI Hb Hs Hd HJ HI) as W.
  cbv zeta in V, W.
  set (a := algebra b) in *.
  set (s := Algebra.start_index a) in *. set (d := Algebra.d a) in *.
  destruct V as (_ & _ & _ & _ & _ & _ & _ & V & _).
  destruct W as (_ & _ & _ & _ & _ & _ & _ & W & _).
  rewrite (product_swaps s d bI bJ Hs Hd), parity_even in V.
  rewrite (product_swaps s d bJ bI Hs Hd), parity_even in W.
  pose proof (swaps_both_orders d bI bJ HI HJ) as T.
  set (nIJ := List.length (filter (fun ac => (snd ac <? fst ac)%Z)
                             (list_prod (generators d bI) (generators d bJ)))) in *.
  set (nJI := List.length (filter (fun ac => (snd ac <? fst ac)%Z)
                             (list_prod (generators d bJ) (generators d bI)))) in *.
  eexists _, _. split; [exact V|]. split; [exact W|].
  rewrite (collapsed_sign_comm _ d bJ bI).
  rewrite (collapsed_sign_linear _ d bI bJ (if Nat.even nJI then 1 else -1)).
  rewrite (collapsed_sign_linear _ d bI bJ (if Nat.even nIJ then 1 else -1)).
  assert (E : Nat.even (nIJ + nJI + popcount (Z.land bI bJ))
              = Nat.even (popcount bI * popcount bJ)) by now rewrite T.
  rewrite !Nat.even_add in E. rewrite Nat.even_add.
  generalize (collapsed_sign (Algebra.signature a) d bI bJ 1). intros M.
  destruct (Nat.even nIJ), (Nat.even nJI), (Nat.even (popcount (Z.land bI bJ))),
    (Nat.even (popcount bI * popcount bJ)); cbn [Bool.eqb] in E |- *;
    try discriminate E; lia.
Qed.

Lemma signs_commutation_witness :
  exists b,
    __post_init__ 3 0 0 None None default_options = Ok b /\
    np_get2 (Algebra.signs (algebra b)) 1 6 = Ok 1 /\
    np_get2 (Algebra.signs (algebra b)) 6 1 = Ok 1.
Proof.
  destruct (__post_init__ 3 0 0 None None default_options) as [b|e] eqn:E;
    [|vm_compute in E; discriminate E].
  exists b. split; [reflexivity|].
  assert (Hs : 0 <= Algebra.start_index (algebra b)).
  { vm_compute in E. injection E as Eb. subst b. vm_compute. discriminate. }
  assert (Hd : Algebra.start_index (algebra b) + Z.of_nat (Algebra.d (algebra b)) <= 16).
  { vm_compute in E. injection E as Eb. subst b. vm_compute. discriminate. }
  assert (HI : 0 <= 1 < 2 ^ Z.of_nat (Algebra.d (algebra b))).
  { vm_compute in E. injection E as Eb. subst b. vm_compute. split; [discriminate|reflexivity]. }
  assert (HJ : 0 <= 6 < 2 ^ Z.of_nat (Algebra.d (algebra b))).
  { vm_compute in E. injection E as Eb. subst b. vm_compute. split; [discriminate|reflexivity]. }
  destruct (signs_commutation 3 0 0 None None default_options b 1 6 E Hs Hd HI HJ)
    as (sIJ & sJI & V & W & R).
  assert (S1 : sIJ = 1).
  { vm_compute in E. injection E as Eb. subst b. vm_compute in V. now injection V. }
  subst sIJ. split; [exact V|]. rewrite W, R. reflexivity.
Defined.

Lemma reverse_keys_In (d : nat) (i : Z) :
  0 <= i < 2 ^ Z.of_nat d ->
  In i (Algebra._reverse_keys d)
  <-> (popcount i mod 4 = 2 \/ popcount i mod 4 = 3)%nat.
Proof.
  intros Hi. rewrite reverse_keys_eq, in_flat_map. split.
  - intros (g & Hg & Hin). apply filter_In in Hg, Hin.
    destruct Hg as [_ Hg], Hin as [_ Hin]. apply Nat.eqb_eq in Hin. subst g.
    now apply half_odd_mod4.
  - intros Hm. exists (popcount i). split.
    + apply filter_In. split; [|now apply half_odd_mod4].
      apply in_seq. pose proof (popcount_le d i Hi). lia.
    + apply filter_In. split; [now apply range_In|apply Nat.eqb_refl].
Qed.

(** X22: every blade squares to a scalar.  In a built algebra with
    one-character digits the Cayley entry of a blade with itself is [e],
    [-e] or [0], and the sign is the product of the signature entries of
    the generators of the blade, negated exactly when the index of the
    blade is in [_reverse_keys]. *)
Theorem blade_squares (p0 q0 r0 : nat) (sig0 : option (list Z))
    (si : option Z) (opts : Options) (b : Built) (bI : Z)
    (Hb : __post_init__ p0 q0 r0 sig0 si opts = Ok b)
    (Hs : 0 <= Algebra.start_index (algebra b))
    (Hd : Algebra.start_index (algebra b) + Z.of_nat (Algebra.d (algebra b)) <= 16)
    (HI : 0 <= bI < 2 ^ Z.of_nat (Algebra.d (algebra b))) :
  let a := algebra b in
  let s := Algebra.start_index a in
  let d := Algebra.d a in
  let metric :=
    fold_left (fun acc ei => acc * nth (Z.to_nat ei) (Algebra.signature a) 0)
      (generators d bI) 1 in
  exists sg,
    np_get2 (Algebra.signs a) bI bI = Ok sg /\
    (In bI (Algebra._reverse_keys d) -> sg = - metric) /\
    (~ In bI (Algebra._reverse_keys d) -> sg = metric) /\
    dict_get pair_eqb (Algebra.cayley a) (blade_name s d bI, blade_name s d bI)
    = Some (if sg =? 0 then "0"%string
            else if sg =? -1 then "-e"%string else "e"%string).
Proof.
  intros a s d metric.
  pose proof (built_valid_entry _ _ _ _ _ _ _ bI bI Hb Hs Hd HI HI) as V.
  cbv zeta in V. fold a s d in V. fold a in Hs, Hd, HI. fold s in Hs, Hd. fold d in Hd, HI.
  destruct V as (_ & _ & _ & _ & _ & _ & C & V & _).
  rewrite (product_swaps s d bI bI Hs Hd), parity_even in V, C.
  pose proof (swaps_both_orders d bI bI HI HI) as T.
  rewrite Z.land_diag in T.
  set (n := List.length (filter (fun ac => (snd ac <? fst ac)%Z)
                           (list_prod (generators d bI) (generators d bI)))) in *.
  assert (Tri : (2 * n = popcount bI * (popcount bI - 1))%nat) by nia.
  pose proof (triangle_parity _ _ Tri) as P.
  rewrite <- (reverse_keys_In d bI HI) in P.
  rewrite collapsed_sign_linear in V, C.
  assert (M : collapsed_sign (Algebra.signature a) d bI bI 1 = metric).
  { unfold collapsed_sign, metric. now rewrite Z.land_diag. }
  rewrite M in V, C. rewrite Z.lxor_nilpotent, blade_name_0 in C.
  exists ((if Nat.even n then 1 else -1) * metric). split; [exact V|].
  assert (O : Nat.odd n = negb (Nat.even n)) by (unfold Nat.odd; reflexivity).
  split; [|split].
  - intros Hin. apply P in Hin. rewrite O in Hin. apply negb_true_iff in Hin.
    rewrite Hin. lia.
  - intros Hout. destruct (Nat.even n) eqn:En; [lia|].
    exfalso. apply Hout, P. rewrite O. reflexivity.
  - rewrite C. destruct (_ =? 0); [reflexivity|]. destruct (_ =? -1); reflexivity.
Qed.

Lemma blade_squares_witness :
  exists b,
    __post_init__ 3 0 0 None None default_options = Ok b /\
    np_get2 (Algebra.signs (algebra b)) 3 3 = Ok (-1) /\
    dict_get pair_eqb (Algebra.cayley (algebra b)) ("e12", "e12")%string = Some "-e"%string.
Proof.
  destruct (__post_init__ 3 0 0 None None default_options) as [b|e] eqn:E;
    [|vm_compute in E; discriminate E].
  exists b. split; [reflexivity|].
  assert (Hs : 0 <= Algebra.start_index (algebra b)).
  { vm_compute in E. injection E as Eb. subst b. vm_compute. discriminate. }
  assert (Hd : Algebra.start_index (algebra b) + Z.of_nat (Algebra.d (algebra b)) <= 16).
  { vm_compute in E. injection E as Eb. subst b. vm_compute. discriminate. }
  assert (HI : 0 <= 3 < 2 ^ Z.of_nat (Algebra.d (algebra b))).
  { vm_compute in E. injection E as Eb. subst b. vm_compute. split; [discriminate|reflexivity]. }
  destruct (blade_squares 3 0 0 None None default_options b 3 E Hs Hd HI)
    as (sg & V & Hin & _ & C).
  assert (S1 : sg = -1).
  { rewrite Hin.
    - vm_compute in E. injection E as Eb. subst b. reflexivity.
    - vm_compute in E. injection E as Eb. subst b. vm_compute. auto. }
  subst sg. split; [exact V|].
  vm_compute in E. injection E as Eb. subst b. exact C.
Defined.
